(** * nsloopctl: the loop-control registry, the checkpoint and the control
    commands of [nsloopctl.c], as a state machine over the shared tables.

    The module keeps two hash tables ([loops], [threads]) behind one mutex
    [lock] and one condition variable [cond].  Every function below is the
    body of the C function of the same name.  A C function that blocks
    ([Ns_CondWait], [Ns_CondTimedWait]) or that gives up the mutex
    ([Tcl_EvalEx] in [CheckControl]) is cut at those points: each piece is
    the code that runs with the mutex held, from one acquisition to the next
    release. *)

From Stdlib Require Import ZArith Lia Ascii String.
From Stdlib Require Import HexadecimalN HexadecimalString.
From Stdlib Require DecimalString.
From stdpp Require Import gmap strings list fin_maps.

Open Scope Z_scope.

(** ** Constants of tcl.h and ns.h *)

Definition TCL_OK : Z := 0.
Definition TCL_ERROR : Z := 1.
Definition TCL_BREAK : Z := 3.
Definition TCL_CONTINUE : Z := 4.

Inductive Ns_ReturnCode := NS_OK | NS_ERROR | NS_TIMEOUT.

(** [unsigned int] is 32 bits wide. *)
Definition UINT_MOD : Z := 2 ^ 32.

(** ** Data *)

(** Addresses of the [LoopData] and [EvalData] structures; both live in the
    stack frame of the command that declares them ([LoopData data] in
    [ForObjCmd], [WhileObjCmd], [ForeachObjCmd]; [EvalData eval] in
    [EvalObjCmd]). *)
Definition addr := nat.

Inductive EvalState := EVAL_WAIT | EVAL_DONE | EVAL_DROP.
Inductive LoopControl := LOOP_RUN | LOOP_PAUSE | LOOP_CANCEL.

#[global] Instance EvalState_eq_dec : EqDecision EvalState.
Proof. solve_decision. Defined.
#[global] Instance LoopControl_eq_dec : EqDecision LoopControl.
Proof. solve_decision. Defined.
#[global] Instance Ns_ReturnCode_eq_dec : EqDecision Ns_ReturnCode.
Proof. solve_decision. Defined.

Record EvalData := mkEvalData {
  state : EvalState;        (* Eval request state. *)
  code : Z;                 (* Script result code. *)
  script : string;          (* Script buffer. *)
  result : string           (* Result buffer. *)
}.

Record Ns_Time := mkTime { sec : Z; usec : Z }.

Record LoopData := mkLoopData {
  control : LoopControl;    (* Loop control commands. *)
  lid : string;             (* Unique loop id. *)
  tid : Z;                  (* Thread id of script. *)
  spins : Z;                (* Loop iterations (unsigned int). *)
  etime : Ns_Time;          (* Loop entry time. *)
  hPtr : string;            (* Entry in active loop table, named by its key. *)
  args : list string;       (* Copy of command args. *)
  evalPtr : option addr     (* Eval request pending. *)
}.

(** A [Tcl_AsyncHandler] is a token of the Tcl library; [Tcl_AsyncMark]
    raises its ready flag, which the interpreter of the owning thread
    consumes at its next safe point. *)
Record Tcl_AsyncHandler := mkAsync { ready : bool }.

(** The table value of [threads] is the heap [ThreadData] itself; nothing
    else but the thread's own TLS slot points to it. *)
Record ThreadData := mkThreadData {
  cancel : Tcl_AsyncHandler
}.

(** What [Ns_Log] and [Ns_TclLogErrorInfo] write. *)
Inductive LogEntry :=
  | LogErrorInfo (interpResult : string)
  | LogDropped (interpResult : string).

(** The static variables of the file, the memory of the live [LoopData] and
    [EvalData] structures, the number of [Ns_CondBroadcast (&cond)] calls
    made so far and the server log. *)
Record State := mkState {
  loops : gmap string addr;          (* Currently running loops. *)
  threads : gmap string ThreadData;  (* Running threads with interps. *)
  next : Z;                          (* static unsigned int next, in EnterLoop *)
  loopmem : gmap addr LoopData;
  evalmem : gmap addr EvalData;
  broadcasts : nat;
  log : list LogEntry
}.

Definition init_state : State :=
  mkState ∅ ∅ 0 ∅ ∅ 0%nat [].

(** Field updates. *)
Definition set_loops (f : gmap string addr → gmap string addr) (s : State) :=
  mkState (f (loops s)) (threads s) (next s) (loopmem s) (evalmem s)
          (broadcasts s) (log s).
Definition set_threads (f : gmap string ThreadData → gmap string ThreadData)
    (s : State) :=
  mkState (loops s) (f (threads s)) (next s) (loopmem s) (evalmem s)
          (broadcasts s) (log s).
Definition set_next (n : Z) (s : State) :=
  mkState (loops s) (threads s) n (loopmem s) (evalmem s)
          (broadcasts s) (log s).
Definition set_loopmem (f : gmap addr LoopData → gmap addr LoopData)
    (s : State) :=
  mkState (loops s) (threads s) (next s) (f (loopmem s)) (evalmem s)
          (broadcasts s) (log s).
Definition set_evalmem (f : gmap addr EvalData → gmap addr EvalData)
    (s : State) :=
  mkState (loops s) (threads s) (next s) (loopmem s) (f (evalmem s))
          (broadcasts s) (log s).
Definition Ns_Log (e : LogEntry) (s : State) :=
  mkState (loops s) (threads s) (next s) (loopmem s) (evalmem s)
          (broadcasts s) (log s ++ [e]).

(** [Ns_CondBroadcast (&cond)]: every thread blocked on [cond] is released. *)
Definition Ns_CondBroadcast (s : State) :=
  mkState (loops s) (threads s) (next s) (loopmem s) (evalmem s)
          (S (broadcasts s)) (log s).

Definition with_control (c : LoopControl) (l : LoopData) :=
  mkLoopData c (lid l) (tid l) (spins l) (etime l) (hPtr l) (args l)
             (evalPtr l).
Definition with_spins (n : Z) (l : LoopData) :=
  mkLoopData (control l) (lid l) (tid l) n (etime l) (hPtr l) (args l)
             (evalPtr l).
Definition with_args (a : list string) (l : LoopData) :=
  mkLoopData (control l) (lid l) (tid l) (spins l) (etime l) (hPtr l) a
             (evalPtr l).
Definition with_evalPtr (e : option addr) (l : LoopData) :=
  mkLoopData (control l) (lid l) (tid l) (spins l) (etime l) (hPtr l)
             (args l) e.

Definition with_state (st : EvalState) (e : EvalData) :=
  mkEvalData st (code e) (script e) (result e).
Definition with_result (r : string) (e : EvalData) :=
  mkEvalData (state e) (code e) (script e) r.

(** ** Formatting *)

(** [snprintf (buf, 32, "%" PRIxPTR, n)]: lower-case hexadecimal without
    leading zeros.  The 32-byte buffers hold every value of a 64-bit
    [uintptr_t]. *)
Definition hex (n : Z) : string :=
  NilEmpty.string_of_uint (N.to_hex_uint (Z.to_N n)).

Definition dquote : string := String "034"%char EmptyString.

(** [Tcl_WrongNumArgs (interp, 1, objv, message)]. *)
Definition Tcl_WrongNumArgs (objv : list string) (message : string) : string :=
  "wrong # args: should be " +:+ dquote +:+ default "" (head objv) +:+ " "
    +:+ message +:+ dquote.

(** ** Registry and handle life cycle *)

(** The [do ... while (!new)] loop of [EnterLoop].  One round formats the
    counter, increments it (with [unsigned int] wrap-around) and asks
    [Tcl_CreateHashEntry] for the key; the loop ends at the first key that
    was not in the table.  After [2 ^ 32] rounds the counter is back where
    it started and the table is unchanged (a collision leaves it as it
    was), so the C loop ends within [2 ^ 32] rounds or never: [None] stands
    for the loop that never ends.  The round budget is in binary so that
    the function runs. *)
Definition probe_round (tbl : gmap string addr) (n : Z) : Z + (string * Z) :=
  let key := hex n in
  let n' := (n + 1) mod UINT_MOD in
  match tbl !! key with
  | Some _ => inl n'            (* new == 0: try again *)
  | None => inr (key, n')       (* new == 1 *)
  end.

Fixpoint probe_rounds (p : positive) (tbl : gmap string addr) (n : Z)
    : Z + (string * Z) :=
  match p with
  | xH => probe_round tbl n
  | xO q =>
      match probe_rounds q tbl n with
      | inl n' => probe_rounds q tbl n'
      | inr r => inr r
      end
  | xI q =>
      match probe_round tbl n with
      | inl n1 =>
          match probe_rounds q tbl n1 with
          | inl n2 => probe_rounds q tbl n2
          | inr r => inr r
          end
      | inr r => inr r
      end
  end.

Definition probe (tbl : gmap string addr) (n : Z) : option (string * Z) :=
  match probe_rounds (Z.to_pos UINT_MOD) tbl n with
  | inl _ => None
  | inr r => Some r
  end.

(** The probing loop with its rounds counted in unary. *)
Fixpoint probe_n (n : nat) (tbl : gmap string addr) (x : Z)
    : Z + (string * Z) :=
  match n with
  | O => inl x
  | S n' =>
      match probe_round tbl x with
      | inl x' => probe_n n' tbl x'
      | inr r => inr r
      end
  end.

(** The key tried in round [k] (from 0) of a probe started at counter [x]. *)
Definition probe_key (x : Z) (k : nat) : string :=
  hex ((x + Z.of_nat k) mod UINT_MOD).

(** [EnterLoop (loopPtr, objc, objv)].  [thread] and [now] are what
    [Ns_ThreadId ()] and [Ns_GetTime ()] return to the caller. *)
Definition EnterLoop (loopPtr : addr) (thread : Z) (now : Ns_Time)
    (objv : list string) (s : State) : option State :=
  '(key, next') ← probe (loops s) (next s);
  let data := mkLoopData LOOP_RUN key thread 0 now key objv None in
  Some (set_loops (<[key := loopPtr]>)
         (set_next next'
           (set_loopmem (<[loopPtr := data]>) s))).

#[global] Arguments probe : simpl never.
#[global] Arguments EnterLoop : simpl never.

(** The three steps of [LeaveLoop] under the mutex. *)
Definition drop_pending (l : LoopData) (s : State) : option State :=
  match evalPtr l with
  | Some e =>
      ev ← evalmem s !! e;
      Some (Ns_CondBroadcast
              (set_evalmem (<[e := with_state EVAL_DROP ev]>) s))
  | None => Some s
  end.

Definition Tcl_DeleteHashEntry (key : string) (s : State) : State :=
  set_loops (delete key) s.

(** [LeaveLoop (loopPtr)]. *)
Definition LeaveLoop (loopPtr : addr) (s : State) : option State :=
  l ← loopmem s !! loopPtr;
  s1 ← drop_pending l s;
  let s2 := Tcl_DeleteHashEntry (hPtr l) s1 in
  Some (set_loopmem (<[loopPtr := with_args [] l]>) s2).

(** [InitInterp]: the part that registers the calling thread.  The code
    asks the thread's TLS slot whether it has done so before.  The slot
    is set right after the entry under [hex thread] is put into
    [threads], and [ThreadCleanup], the destructor of the slot, is the
    only code that removes an entry; so the slot is empty exactly when
    the table has no entry for the thread, and the table is what the
    model asks. *)
Definition InitInterp (thread : Z) (s : State) : State :=
  match threads s !! hex thread with
  | Some _ => s                        (* Ns_TlsGet (&tls) != NULL *)
  | None =>
      set_threads (<[hex thread := mkThreadData (mkAsync false)]>) s
  end.

(** [ThreadCleanup]. *)
Definition ThreadCleanup (thread : Z) (s : State) : State :=
  set_threads (delete (hex thread)) s.

(** ** Control commands *)

(** [GetLoop (interp, objPtr)]: the loop pointer, or the message left in the
    interpreter when the id is not in [loops]. *)
Definition GetLoop (id : string) (s : State) : string + addr :=
  match loops s !! id with
  | None => inl ("no such loop id: " +:+ id)
  | Some loopPtr => inr loopPtr
  end.

(** [List]: the keys of the table.  The C code returns them in the order
    of Tcl's walk through the hash table, which depends on the hash values
    and the bucket layout and is not modelled: the list here has the same
    elements in the order of [map_to_list], and what is stated about it
    holds up to the order. *)
Definition List {V : Type} (tablePtr : gmap string V) : Z * list string :=
  (TCL_OK, (map_to_list tablePtr).*1).

Definition LoopsObjCmd (s : State) : Z * list string := List (loops s).
Definition ThreadsObjCmd (s : State) : Z * list string := List (threads s).

(** [Signal], behind [PauseObjCmd], [RunObjCmd] and [CancelObjCmd].  [None]
    is a read through a pointer to a dead structure. *)
Definition Signal (objv : list string) (signal : LoopControl) (s : State)
    : option (Z * string * State) :=
  match objv with
  | [_; id] =>
      match GetLoop id s with
      | inl msg => Some (TCL_ERROR, msg, s)
      | inr loopPtr =>
          l ← loopmem s !! loopPtr;
          Some (TCL_OK, "",
                Ns_CondBroadcast
                  (set_loopmem (<[loopPtr := with_control signal l]>) s))
      end
  | _ => Some (TCL_ERROR, Tcl_WrongNumArgs objv "loop-id", s)
  end.

Definition PauseObjCmd (objv : list string) := Signal objv LOOP_PAUSE.
Definition RunObjCmd (objv : list string) := Signal objv LOOP_RUN.
Definition CancelObjCmd (objv : list string) := Signal objv LOOP_CANCEL.

Definition Tcl_AsyncMark (h : Tcl_AsyncHandler) : Tcl_AsyncHandler :=
  mkAsync true.

(** [AbortObjCmd]. *)
Definition AbortObjCmd (objv : list string) (s : State) : Z * string * State :=
  match objv with
  | [_; id] =>
      match threads s !! id with
      | Some threadPtr =>
          (TCL_OK, "",
           set_threads
             (<[id := mkThreadData (Tcl_AsyncMark (cancel threadPtr))]>) s)
      | None => (TCL_ERROR, "no such active thread: " +:+ id, s)
      end
  | _ => (TCL_ERROR, Tcl_WrongNumArgs objv "thread-id", s)
  end.

(** Where [EvalObjCmd] stands when it gives up the mutex. *)
Inductive EvalOutcome :=
  | Ev_Return (result : Z) (interpResult : string)
  | Ev_TimedWait (loopPtr : addr).

(** [EvalObjCmd] from the test of its [while] loop on: [status] is the
    value of the variable [status], [eval] lives at address [e].  Returning
    ends the life of [eval]. *)
Definition EvalObjCmd_wait (e loopPtr : addr) (status : Ns_ReturnCode)
    (s : State) : option (EvalOutcome * State) :=
  ev ← evalmem s !! e;
  if decide (status = NS_OK ∧ state ev = EVAL_WAIT) then
    Some (Ev_TimedWait loopPtr, s)
  else
    match state ev with
    | EVAL_WAIT =>
        l ← loopmem s !! loopPtr;
        Some (Ev_Return TCL_ERROR "timeout: result dropped",
              set_evalmem (delete e)
                (set_loopmem (<[loopPtr := with_evalPtr None l]>) s))
    | EVAL_DROP =>
        Some (Ev_Return TCL_ERROR "dropped: loop exited",
              set_evalmem (delete e) s)
    | EVAL_DONE =>
        Some (Ev_Return (code ev) (result ev), set_evalmem (delete e) s)
    end.

(** [EvalObjCmd], from its entry to its first release of the mutex. *)
Definition EvalObjCmd (e : addr) (objv : list string) (s : State)
    : option (EvalOutcome * State) :=
  match objv with
  | [_; id; scriptArg] =>
      match GetLoop id s with
      | inl msg => Some (Ev_Return TCL_ERROR msg, s)
      | inr loopPtr =>
          l ← loopmem s !! loopPtr;
          match evalPtr l with
          | Some _ => Some (Ev_Return TCL_ERROR "eval pending", s)
          | None =>
              let eval := mkEvalData EVAL_WAIT TCL_OK scriptArg "" in
              let s1 :=
                set_loopmem (<[loopPtr := with_evalPtr (Some e) l]>)
                  (set_evalmem (<[e := eval]>) s) in
              EvalObjCmd_wait e loopPtr NS_OK (Ns_CondBroadcast s1)
          end
      end
  | _ => Some (Ev_Return TCL_ERROR (Tcl_WrongNumArgs objv "loop-id script"), s)
  end.

(** [EvalObjCmd] when [Ns_CondTimedWait] returns [status]. *)
Definition EvalObjCmd_wakeup (e loopPtr : addr) (status : Ns_ReturnCode)
    (s : State) : option (EvalOutcome * State) :=
  EvalObjCmd_wait e loopPtr status s.

(** ** The checkpoint *)

(** Where [CheckControl] stands when it gives up the mutex. *)
Inductive CheckOutcome :=
  | CC_Return (result : Z) (interpResult : option string)
  | CC_Eval (script : string)
  | CC_CondWait.

Definition canceled_msg : string :=
  "nsloopctl: loop canceled: returning TCL_ERROR".

(** [CheckControl] from the test of its [while] loop on, up to the next
    [Ns_MutexUnlock] or [Ns_CondWait]. *)
Definition CheckControl_while (loopPtr : addr) (s : State)
    : option (CheckOutcome * State) :=
  l ← loopmem s !! loopPtr;
  match evalPtr l with
  | Some e =>
      ev ← evalmem s !! e;
      Some (CC_Eval (script ev), s)
  | None =>
      if decide (control l = LOOP_PAUSE) then Some (CC_CondWait, s)
      else if decide (control l = LOOP_CANCEL) then
        Some (CC_Return TCL_ERROR (Some canceled_msg), s)
      else Some (CC_Return TCL_OK None, s)
  end.

(** [CheckControl] from its entry. *)
Definition CheckControl (loopPtr : addr) (s : State)
    : option (CheckOutcome * State) :=
  l ← loopmem s !! loopPtr;
  CheckControl_while loopPtr
    (set_loopmem
       (<[loopPtr := with_spins ((spins l + 1) mod UINT_MOD) l]>) s).

(** [CheckControl] from the return of [Tcl_EvalEx], which gave the code
    [res] (the C variable [result]) and left [interpResult] in the
    interpreter.  [Ns_TclLogErrorInfo] runs just before the mutex is taken
    again. *)
Definition CheckControl_evaluated (loopPtr : addr) (res : Z)
    (interpResult : string) (s : State) : option (CheckOutcome * State) :=
  let s0 :=
    if decide (res ≠ TCL_OK) then Ns_Log (LogErrorInfo interpResult) s
    else s in
  l ← loopmem s0 !! loopPtr;
  s1 ← match evalPtr l with
       | None => Some (Ns_Log (LogDropped interpResult) s0)
       | Some e =>
           ev ← evalmem s0 !! e;
           let ev' :=
             with_state EVAL_DONE
               (with_result (result ev +:+ interpResult) ev) in
           Some (Ns_CondBroadcast
                   (set_loopmem (<[loopPtr := with_evalPtr None l]>)
                      (set_evalmem (<[e := ev']>) s0)))
       end;
  if decide (control l = LOOP_PAUSE) then Some (CC_CondWait, s1)
  else CheckControl_while loopPtr s1.

(** [CheckControl] when [Ns_CondWait] returns. *)
Definition CheckControl_wakeup (loopPtr : addr) (s : State)
    : option (CheckOutcome * State) :=
  CheckControl_while loopPtr s.

(** ** The threads of the server

    A loop command ([ForObjCmd], [WhileObjCmd], [ForeachObjCmd]) calls
    [EnterLoop (&data)], then [CheckControl (&data)] before every run of
    its body, and [LeaveLoop (&data)] on every way out; a controller calls
    the [loopctl_*] commands.  The threads interleave at the points where
    the mutex changes hands.  A thread blocked on [cond] may resume at any
    time (condition variables wake spuriously, and every waiter tests its
    own condition again); a timed wait may also resume with [NS_TIMEOUT]. *)

(** Where a loop command stands, between two actions. *)
Inductive LoopPc :=
  | LP_Body                      (* in the command, outside CheckControl *)
  | LP_Eval (script : string)    (* CheckControl: inside Tcl_EvalEx *)
  | LP_CondWait                  (* CheckControl: inside Ns_CondWait *)
  | LP_Checked (result : Z).     (* CheckControl has just returned result *)

Record System := mkSys {
  shared : State;
  lpc : gmap addr LoopPc;   (* the loop commands between entry and exit,
                               by the address of their LoopData *)
  epc : gmap addr addr      (* the EvalObjCmd calls inside Ns_CondTimedWait,
                               by the address of their EvalData, with the
                               value of their variable loopPtr *)
}.

Definition init_sys : System := mkSys init_state ∅ ∅.

Inductive Action :=
  | A_InitInterp (thread : Z)
  | A_ThreadCleanup (thread : Z)
  | A_EnterLoop (loopPtr : addr) (thread : Z) (now : Ns_Time)
      (objv : list string)
  | A_CheckControl (loopPtr : addr)
  | A_Evaluated (loopPtr : addr) (res : Z) (interpResult : string)
  | A_LoopWakeup (loopPtr : addr)
  | A_Body (loopPtr : addr)
  | A_LeaveLoop (loopPtr : addr)
  | A_Eval (e : addr) (objv : list string)
  | A_EvalWakeup (e : addr) (status : Ns_ReturnCode)
  | A_Signal (objv : list string) (signal : LoopControl)
  | A_Abort (objv : list string)
  | A_Loops
  | A_Threads.

(** What the calling thread gets back. *)
Inductive Obs :=
  | O_None
  | O_Cmd (result : Z) (interpResult : string)
  | O_List (result : Z) (keys : list string)
  | O_Check (result : Z) (interpResult : option string).

Definition pc_of (o : CheckOutcome) : LoopPc :=
  match o with
  | CC_Return r _ => LP_Checked r
  | CC_Eval sc => LP_Eval sc
  | CC_CondWait => LP_CondWait
  end.

(** What the loop command sees of [CheckControl]: nothing while the call
    is in progress, then the value returned and the message left in the
    interpreter, if any. *)
Definition obs_of (o : CheckOutcome) : Obs :=
  match o with
  | CC_Return r m => O_Check r m
  | _ => O_None
  end.

Definition after_check (loopPtr : addr) (sys : System)
    (r : option (CheckOutcome * State)) : option (Obs * System) :=
  '(o, s') ← r;
  Some (obs_of o, mkSys s' (<[loopPtr := pc_of o]> (lpc sys)) (epc sys)).

Definition after_eval (e : addr) (sys : System)
    (r : option (EvalOutcome * State)) : option (Obs * System) :=
  '(o, s') ← r;
  match o with
  | Ev_Return res msg =>
      Some (O_Cmd res msg, mkSys s' (lpc sys) (delete e (epc sys)))
  | Ev_TimedWait loopPtr =>
      Some (O_None, mkSys s' (lpc sys) (<[e := loopPtr]> (epc sys)))
  end.

(** The points from which a loop command goes to [LeaveLoop]: anywhere in
    its own code (test failed, break, error), or right after a
    [CheckControl] that did not return [TCL_OK]. *)
Definition leaves (pc : LoopPc) : bool :=
  match pc with
  | LP_Body => true
  | LP_Checked r => bool_decide (r ≠ TCL_OK)
  | _ => false
  end.

(** One action of one thread.  [None]: the thread is not at a point where
    it can take the action, or the action reads a dead structure. *)
Definition step (act : Action) (sys : System) : option (Obs * System) :=
  let s := shared sys in
  match act with
  | A_InitInterp thread =>
      Some (O_None, mkSys (InitInterp thread s) (lpc sys) (epc sys))
  | A_ThreadCleanup thread =>
      Some (O_None, mkSys (ThreadCleanup thread s) (lpc sys) (epc sys))
  | A_EnterLoop loopPtr thread now objv =>
      (* a new stack frame: no live LoopData has its address *)
      match lpc sys !! loopPtr, loopmem s !! loopPtr with
      | None, None =>
          s' ← EnterLoop loopPtr thread now objv s;
          Some (O_None, mkSys s' (<[loopPtr := LP_Body]> (lpc sys)) (epc sys))
      | _, _ => None
      end
  | A_CheckControl loopPtr =>
      match lpc sys !! loopPtr with
      | Some LP_Body => after_check loopPtr sys (CheckControl loopPtr s)
      | _ => None
      end
  | A_Evaluated loopPtr res interpResult =>
      match lpc sys !! loopPtr with
      | Some (LP_Eval _) =>
          after_check loopPtr sys
            (CheckControl_evaluated loopPtr res interpResult s)
      | _ => None
      end
  | A_LoopWakeup loopPtr =>
      match lpc sys !! loopPtr with
      | Some LP_CondWait =>
          after_check loopPtr sys (CheckControl_wakeup loopPtr s)
      | _ => None
      end
  | A_Body loopPtr =>
      (* if (result == TCL_OK) result = Tcl_EvalObjEx (interp, body, 0) *)
      match lpc sys !! loopPtr with
      | Some (LP_Checked r) =>
          if decide (r = TCL_OK) then
            Some (O_None, mkSys s (<[loopPtr := LP_Body]> (lpc sys)) (epc sys))
          else None
      | _ => None
      end
  | A_LeaveLoop loopPtr =>
      (* LeaveLoop (&data); return result;  -- the frame of data ends *)
      match lpc sys !! loopPtr with
      | Some pc =>
          if leaves pc then
            s' ← LeaveLoop loopPtr s;
            Some (O_None,
                  mkSys (set_loopmem (delete loopPtr) s')
                        (delete loopPtr (lpc sys)) (epc sys))
          else None
      | None => None
      end
  | A_Eval e objv =>
      (* a new stack frame: no live EvalData has its address *)
      match epc sys !! e, evalmem s !! e with
      | None, None => after_eval e sys (EvalObjCmd e objv s)
      | _, _ => None
      end
  | A_EvalWakeup e status =>
      loopPtr ← epc sys !! e;
      after_eval e sys (EvalObjCmd_wakeup e loopPtr status s)
  | A_Signal objv signal =>
      '(res, msg, s') ← Signal objv signal s;
      Some (O_Cmd res msg, mkSys s' (lpc sys) (epc sys))
  | A_Abort objv =>
      let '(res, msg, s') := AbortObjCmd objv s in
      Some (O_Cmd res msg, mkSys s' (lpc sys) (epc sys))
  | A_Loops =>
      let '(res, keys) := LoopsObjCmd s in Some (O_List res keys, sys)
  | A_Threads =>
      let '(res, keys) := ThreadsObjCmd s in Some (O_List res keys, sys)
  end.

(** A run of the server: the actions taken, in order. *)
Fixpoint run (acts : list Action) (sys : System) : option System :=
  match acts with
  | [] => Some sys
  | act :: rest =>
      '(_, sys') ← step act sys;
      run rest sys'
  end.

Definition reachable (sys : System) : Prop :=
  ∃ acts, run acts init_sys = Some sys.

(** ** Consistency of the tables with the live structures

    What holds between any two actions: the table [loops] and the live
    [LoopData] structures name each other, a request hangs on a loop only
    while its controller waits for it in state [EVAL_WAIT], and a waiting
    controller whose request is still in state [EVAL_WAIT] is the one
    attached to its loop. *)
Record Inv (sys : System) : Prop := mkInv {
  inv_next : 0 ≤ next (shared sys) < UINT_MOD;
  inv_table : ∀ id a, loops (shared sys) !! id = Some a →
    ∃ l, loopmem (shared sys) !! a = Some l ∧ hPtr l = id ∧ lid l = id;
  inv_mem : ∀ a l, loopmem (shared sys) !! a = Some l →
    loops (shared sys) !! hPtr l = Some a;
  inv_lpc : ∀ a, is_Some (lpc sys !! a) ↔ is_Some (loopmem (shared sys) !! a);
  inv_attached : ∀ a l e, loopmem (shared sys) !! a = Some l →
    evalPtr l = Some e →
    epc sys !! e = Some a
    ∧ ∃ ev, evalmem (shared sys) !! e = Some ev ∧ state ev = EVAL_WAIT;
  inv_epc : ∀ e a, epc sys !! e = Some a →
    ∃ ev, evalmem (shared sys) !! e = Some ev
      ∧ (state ev = EVAL_WAIT →
         ∃ l, loopmem (shared sys) !! a = Some l ∧ evalPtr l = Some e);
  inv_evalmem : ∀ e, is_Some (evalmem (shared sys) !! e) →
    is_Some (epc sys !! e)
}.

(** What [EvalObjCmd] stores when it sets a request up, as far as it is
    still there: the field [code] is [TCL_OK], and the result buffer is
    empty until the request is done. *)
Definition as_set_up (s : State) : Prop :=
  ∀ e ev, evalmem s !! e = Some ev →
    code ev = TCL_OK ∧ (state ev ≠ EVAL_DONE → result ev = "").

(** ** Scenarios *)

Definition t0 : Ns_Time := mkTime 100 0.
Definition objv_while : list string := ["while"; "1"; "body"].

(** The state after a run from the initial state. *)
Definition after (acts : list Action) : System :=
  default init_sys (run acts init_sys).

(** A thread registers and enters a [while] loop; its [LoopData] is at
    address 1. *)
Definition acts_one_loop : list Action :=
  [A_InitInterp 7; A_EnterLoop 1%nat 7 t0 objv_while].

(** A controller then asks for a script to be run in the loop; its
    [EvalData] is at address 9. *)
Definition acts_pending : list Action :=
  acts_one_loop ++ [A_Eval 9%nat ["loopctl_eval"; "0"; "set x 1"]].

(** The loop reaches its checkpoint and starts to run the script. *)
Definition acts_evaluating : list Action :=
  acts_pending ++ [A_CheckControl 1%nat].

(** The loop is paused while in its body, after one checkpoint. *)
Definition acts_paused_in_body : list Action :=
  acts_one_loop
    ++ [A_CheckControl 1%nat; A_Body 1%nat;
        A_Signal ["loopctl_pause"; "0"] LOOP_PAUSE].

(** The paused loop has reached its next checkpoint and is blocked. *)
Definition acts_paused_blocked : list Action :=
  acts_paused_in_body ++ [A_CheckControl 1%nat].

(** The counter has wrapped around to 0 while the loop with id "0" is
    still running. *)
Definition s_wrapped : State := set_next 0 (shared (after acts_one_loop)).

(** The actions by which the loop at [a] moves inside [CheckControl]. *)
Definition checkpoint_action (a : addr) (act : Action) : Prop :=
  act = A_CheckControl a
  ∨ (∃ res txt, act = A_Evaluated a res txt)
  ∨ act = A_LoopWakeup a.

(** What [loopctl_loops] returns in a state of the server. *)
Definition listed (sys : System) : list string :=
  (LoopsObjCmd (shared sys)).2.

(** The loop commands between their [EnterLoop] and their [LeaveLoop], with
    the id each was given. *)
Definition running (sys : System) (a : addr) (id : string) : Prop :=
  is_Some (lpc sys !! a)
  ∧ ∃ l, loopmem (shared sys) !! a = Some l ∧ lid l = id.

(** The actions that are neither [EnterLoop] nor [LeaveLoop]. *)
Definition keeps_registry (act : Action) : Prop :=
  match act with
  | A_EnterLoop _ _ _ _ | A_LeaveLoop _ => False
  | _ => True
  end.

(** The loop at [a] is inside [CheckControl], running a script or blocked
    on the condition variable. *)
Definition in_checkpoint (sys : System) (a : addr) : Prop :=
  lpc sys !! a = Some LP_CondWait ∨ ∃ sc, lpc sys !! a = Some (LP_Eval sc).

Definition paused (sys : System) (a : addr) : Prop :=
  ∃ l, loopmem (shared sys) !! a = Some l ∧ control l = LOOP_PAUSE.

Definition spins_of (sys : System) (a : addr) : option Z :=
  spins <$> loopmem (shared sys) !! a.

(** A run in every state of which the loop at [a] has its control flag at
    [LOOP_PAUSE]. *)
Inductive paused_run (a : addr) : System → list Action → System → Prop :=
  | paused_run_nil (sys : System) :
      paused sys a → paused_run a sys [] sys
  | paused_run_cons (sys sys1 sys2 : System) (act : Action) (obs : Obs)
        (acts : list Action) :
      paused sys a →
      step act sys = Some (obs, sys1) →
      paused_run a sys1 acts sys2 →
      paused_run a sys (act :: acts) sys2.

(** The actions taken by the loop command whose [LoopData] is at [a]. *)
Definition loop_action (a : addr) (act : Action) : Prop :=
  match act with
  | A_EnterLoop b _ _ _ | A_CheckControl b | A_Evaluated b _ _
  | A_LoopWakeup b | A_Body b | A_LeaveLoop b => b = a
  | _ => False
  end.

(** The pieces of [CheckControl] that end its wait loop: the entry with
    no request attached, a wake-up with no request attached, and the
    return of a script. *)
Definition ends_wait (sys : System) (a : addr) (l : LoopData)
    (act : Action) : Prop :=
  (act = A_CheckControl a ∧ lpc sys !! a = Some LP_Body
   ∧ evalPtr l = None)
  ∨ (act = A_LoopWakeup a ∧ lpc sys !! a = Some LP_CondWait
     ∧ evalPtr l = None)
  ∨ (∃ sc res txt, act = A_Evaluated a res txt
       ∧ lpc sys !! a = Some (LP_Eval sc)).

(** What [CheckControl] returns for a control flag other than
    [LOOP_PAUSE]. *)
Definition verdict (c : LoopControl) : Z * option string :=
  if decide (c = LOOP_CANCEL) then (TCL_ERROR, Some canceled_msg)
  else (TCL_OK, None).

(** ** Further vocabulary for the properties of the commands *)

(** When a thread can take an action: it is at the right point of its
    code, a structure set up by the action has a new address, and
    [EnterLoop] finds the table with room for one more key. *)
Definition enabled (act : Action) (sys : System) : Prop :=
  match act with
  | A_EnterLoop a _ _ _ =>
      lpc sys !! a = None ∧ Z.of_nat (size (loops (shared sys))) < UINT_MOD
  | A_CheckControl a => lpc sys !! a = Some LP_Body
  | A_Evaluated a _ _ => ∃ sc, lpc sys !! a = Some (LP_Eval sc)
  | A_LoopWakeup a => lpc sys !! a = Some LP_CondWait
  | A_Body a => lpc sys !! a = Some (LP_Checked TCL_OK)
  | A_LeaveLoop a => ∃ pc, lpc sys !! a = Some pc ∧ leaves pc = true
  | A_Eval e _ => epc sys !! e = None
  | A_EvalWakeup e _ => is_Some (epc sys !! e)
  | _ => True
  end.

(** The number of [EnterLoop] calls in a run. *)
Fixpoint enters (acts : list Action) : nat :=
  match acts with
  | [] => 0
  | A_EnterLoop _ _ _ _ :: rest => S (enters rest)
  | _ :: rest => enters rest
  end.

(** The number of times the loop at [a] enters [CheckControl] in a run. *)
Fixpoint visits (a : addr) (acts : list Action) : nat :=
  match acts with
  | [] => 0
  | A_CheckControl b :: rest =>
      if decide (b = a) then S (visits a rest) else visits a rest
  | _ :: rest => visits a rest
  end.

(** ** The loop commands

    [ForObjCmd], [WhileObjCmd] and [ForeachObjCmd] are Tcl's own commands
    with calls to [EnterLoop], [CheckControl] and [LeaveLoop] added.  What
    the interpreter answers to their calls (the code of a script or of an
    expression, the line of an error, whether a variable could be set) and
    what [CheckControl] returns are inputs, one [Round] for each pass
    through the loop.  The output is the list of the calls made, in order,
    and the value returned; [None] when the rounds given run out while the
    command is still in its loop. *)

Inductive Call :=
  | C_WrongNumArgs (msg : string)
  | C_EvalObjEx (obj : string) (result : Z)
  | C_ExprBooleanObj (obj : string) (result : Z) (value : bool)
  | C_ObjSetVar2 (name value : string) (ok : bool)
  | C_ResetResult
  | C_AppendResult (msg : string)
  | C_AddErrorInfo (msg : string)
  | C_EnterLoop (objv : list string)
  | C_CheckControl (result : Z)
  | C_LeaveLoop.

Record Round := mkRound {
  r_test : Z * bool;          (* Tcl_ExprBooleanObj: result and value *)
  r_setvar : nat → nat → bool;  (* Tcl_ObjSetVar2 of variable v of list i
                                  did not return NULL *)
  r_check : Z;                (* CheckControl *)
  r_body : Z;                 (* Tcl_EvalObjEx of the body *)
  r_line : Z;                 (* Tcl_GetErrorLine *)
  r_next : Z                  (* Tcl_EvalObjEx of the "next" script *)
}.

(** [sprintf (buf, "%d", n)]. *)
Definition dec (n : Z) : string :=
  DecimalString.NilZero.string_of_int (Z.to_int n).

Definition nl : string := String "010"%char EmptyString.

(** [sprintf (msg, "\n    (\"cmd\" body line %d)", line)]. *)
Definition body_line (cmd : string) (line : Z) : string :=
  nl +:+ "    (" +:+ dquote +:+ cmd +:+ dquote +:+ " body line "
     +:+ dec line +:+ ")".



(** The calls [cs], then what [p] does. *)
Definition calls_then (cs : list Call) (p : list Call * option Z)
    : list Call * option Z :=
  (cs ++ p.1, p.2).

(** [for] and [while], from the end of the [while (1)] loop on:
    [if (result == TCL_BREAK) result = TCL_OK;
     if (result == TCL_OK) Tcl_ResetResult (interp);
     done: LeaveLoop (&data); return result;] *)
Definition loop_exit (result : Z) : list Call * option Z :=
  let result := if decide (result = TCL_BREAK) then TCL_OK else result in
  ((if decide (result = TCL_OK) then [C_ResetResult] else [])
     ++ [C_LeaveLoop],
   Some result).

(** From the label [done] on. *)
Definition loop_done (result : Z) : list Call * option Z :=
  ([C_LeaveLoop], Some result).

(** [result = CheckControl (interp, &data);
     if (result == TCL_OK) result = Tcl_EvalObjEx (interp, body, 0);]
    the calls made and the value of [result]. *)
Definition check_and_body (body : string) (r : Round) : list Call * Z :=
  if decide (r_check r = TCL_OK)
  then ([C_CheckControl (r_check r); C_EvalObjEx body (r_body r)], r_body r)
  else ([C_CheckControl (r_check r)], r_check r).





(** Where the calls of a loop command take it in the terms of [step]:
    [None] outside [EnterLoop] .. [LeaveLoop], otherwise the point the
    command is at.  [EnterLoop] is called from outside only,
    [CheckControl] from the body of the command only, [LeaveLoop] from the
    points [leaves] allows; a script, an expression or a variable is
    evaluated or set outside, in the body, or right after a [CheckControl]
    that returned [TCL_OK] (the step [A_Body]), never after one that
    failed; touching the interpreter's result moves nothing. *)
Definition call_step (pc : option LoopPc) (c : Call) : option (option LoopPc) :=
  match c with
  | C_EnterLoop _ =>
      match pc with None => Some (Some LP_Body) | Some _ => None end
  | C_CheckControl r =>
      match pc with
      | Some LP_Body => Some (Some (LP_Checked r))
      | _ => None
      end
  | C_LeaveLoop =>
      match pc with
      | Some pc => if leaves pc then Some None else None
      | None => None
      end
  | C_EvalObjEx _ _ | C_ExprBooleanObj _ _ _ | C_ObjSetVar2 _ _ _ =>
      match pc with
      | None => Some None
      | Some LP_Body => Some (Some LP_Body)
      | Some (LP_Checked r) =>
          if decide (r = TCL_OK) then Some (Some LP_Body) else None
      | Some _ => None
      end
  | C_WrongNumArgs _ | C_ResetResult | C_AppendResult _ | C_AddErrorInfo _ =>
      Some pc
  end.

Fixpoint call_run (pc : option LoopPc) (cs : list Call)
    : option (option LoopPc) :=
  match cs with
  | [] => Some pc
  | c :: rest =>
      match call_step pc c with
      | Some pc' => call_run pc' rest
      | None => None
      end
  end.






(** Rounds for the scenarios: one that runs the body, one in which
    [CheckControl] finds the loop canceled. *)
Definition round_ok : Round :=
  mkRound (TCL_OK, true) (λ _ _, true) TCL_OK TCL_OK 0 TCL_OK.


(** *** [ForeachObjCmd]

    [Tcl_ListObjGetElements] gives the elements of a list from its string,
    or fails; it is a parameter.  The command fetches the lists again in
    every round (the arrays may have moved, the elements are the same),
    and panics if that fails; as the same call on the same string has
    succeeded before the loop, the model reads the elements and leaves the
    panic out.  The counters [index[i]] are followed as natural numbers,
    which is what the C [int]s hold as long as they stay below 2^31. *)

Definition varv (get : string → Z * list string) (objv : list string)
    (i : nat) : list string :=
  (get (nth (1 + i * 2)%nat objv "")).2.

Definition argv (get : string → Z * list string) (objv : list string)
    (i : nat) : list string :=
  (get (nth (2 + i * 2)%nat objv "")).2.

(** [j = argc / varc; if ((argc % varc) != 0) j++;] *)
Definition rounds_for (argc varc : nat) : nat :=
  if decide ((argc mod varc)%nat ≠ 0%nat) then S (argc / varc)%nat
  else (argc / varc)%nat.

(** The first loop over the lists, from list [i] on with [n] lists to go:
    an early exit with its calls and result, or [maxj]. *)
Fixpoint Foreach_break_up (get : string → Z * list string)
    (objv : list string) (n i maxj : nat) : (list Call * Z) + nat :=
  match n with
  | O => inr maxj
  | S n' =>
      let '(result, vars) := get (nth (1 + i * 2)%nat objv "") in
      if decide (result ≠ TCL_OK) then inl ([], result)
      else if decide (length vars < 1)%nat then
        inl ([C_AppendResult "foreach varlist is empty"], TCL_ERROR)
      else
        let '(result, args) := get (nth (2 + i * 2)%nat objv "") in
        if decide (result ≠ TCL_OK) then inl ([], result)
        else
          let j := rounds_for (length args) (length vars) in
          Foreach_break_up get objv n' (S i)
            (if decide (maxj < j)%nat then j else maxj)
  end.

Definition couldnt_set (name : string) : string :=
  "couldn't set loop variable: " +:+ dquote +:+ name +:+ dquote.

(** [for (v = 0; v < varcList[i]; v++)], from variable [v] on, with
    [index[i]] at [k]: the calls, whether every variable was set, and
    [index[i]] at the end. *)
Fixpoint Foreach_set_vars (ok : nat → bool) (vars args : list string)
    (v k : nat) : list Call * bool * nat :=
  match vars with
  | [] => ([], true, k)
  | name :: rest =>
      let value := if decide (k < length args)%nat then nth k args ""
                   else "" in
      if ok v then
        let '(cs, fine, k') := Foreach_set_vars ok rest args (S v) (S k) in
        (C_ObjSetVar2 name value true :: cs, fine, k')
      else
        ([C_ObjSetVar2 name value false; C_ResetResult;
          C_AppendResult (couldnt_set name)],
         false, S k)
  end.

(** [for (i = 0; i < numLists; i++)] inside the rounds, from list [i] on
    with [n] lists to go. *)
Fixpoint Foreach_set_lists (get : string → Z * list string) (r : Round)
    (objv : list string) (n i : nat) (index : list nat)
    : list Call * bool * list nat :=
  match n with
  | O => ([], true, index)
  | S n' =>
      let '(cs, fine, k) :=
        Foreach_set_vars (r_setvar r i) (varv get objv i) (argv get objv i)
          0 (nth i index 0%nat) in
      let index := <[i := k]> index in
      if fine then
        let '(cs', fine', index') :=
          Foreach_set_lists get r objv n' (S i) index in
        (cs ++ cs', fine', index')
      else (cs, false, index)
  end.

(** [if (result == TCL_OK) Tcl_ResetResult (interp);
     done: ... LeaveLoop (&data); return result;] *)
Definition Foreach_exit (result : Z) : list Call * option Z :=
  ((if decide (result = TCL_OK) then [C_ResetResult] else [])
     ++ [C_LeaveLoop],
   Some result).

(** [for (j = 0; j < maxj; j++)], with [todo] rounds to go. *)
Fixpoint Foreach_loop (get : string → Z * list string) (objv : list string)
    (numLists todo : nat) (index : list nat) (result : Z) (rs : list Round)
    : list Call * option Z :=
  match todo with
  | O => Foreach_exit result
  | S todo' =>
      match rs with
      | [] => ([], None)
      | r :: rest =>
          let '(cs, fine, index) :=
            Foreach_set_lists get r objv numLists 0 index in
          calls_then cs
            (if negb fine then loop_done TCL_ERROR
             else
               let '(cs, result) :=
                 check_and_body (nth (length objv - 1)%nat objv "") r in
               calls_then cs
                 (if decide (result ≠ TCL_OK) then
                    if decide (result = TCL_CONTINUE) then
                      Foreach_loop get objv numLists todo' index TCL_OK rest
                    else if decide (result = TCL_BREAK) then
                      Foreach_exit TCL_OK
                    else if decide (result = TCL_ERROR) then
                      calls_then
                        [C_AddErrorInfo (body_line "foreach" (r_line r))]
                        (Foreach_exit result)
                    else Foreach_exit result
                  else
                    Foreach_loop get objv numLists todo' index result rest))
      end
  end.

(** [ForeachObjCmd]. *)
Definition ForeachObjCmd (get : string → Z * list string)
    (objv : list string) (rs : list Round) : list Call * option Z :=
  if decide ((length objv < 4)%nat ∨ (length objv mod 2)%nat ≠ 0%nat) then
    ([C_WrongNumArgs
        (Tcl_WrongNumArgs objv "varList list ?varList list ...? command")],
     Some TCL_ERROR)
  else
    calls_then [C_EnterLoop objv]
      (let numLists := ((length objv - 2) / 2)%nat in
       match Foreach_break_up get objv numLists 0 0 with
       | inl (cs, result) => calls_then cs (loop_done result)
       | inr maxj =>
           Foreach_loop get objv numLists maxj (replicate numLists 0%nat)
             TCL_OK rs
       end).

(** A stand-in for [Tcl_ListObjGetElements] on lists of plain words. *)
Definition get_words (s : string) : Z * list string :=
  (TCL_OK, String.words s).

Definition objv_foreach : list string :=
  ["foreach"; "a b"; "1 2 3"; "body"].

(** What [foreach] is documented to do in round [j] (from 0): variable
    [v] of list [i] is set to element [j * varc + v] of the value list,
    or to the empty string when the list has run out; and the number of
    rounds is the largest number a list needs. *)
Definition foreach_sets (get : string → Z * list string)
    (objv : list string) (numLists j : nat) : list Call :=
  concat
    (map (λ i,
            imap (λ v name,
                    C_ObjSetVar2 name
                      (nth (j * length (varv get objv i) + v)%nat
                           (argv get objv i) "")
                      true)
                 (varv get objv i))
         (seq 0 numLists)).

Definition foreach_rounds (get : string → Z * list string)
    (objv : list string) (numLists : nat) : nat :=
  foldr Nat.max 0%nat
    (map (λ i, rounds_for (length (argv get objv i))
                          (length (varv get objv i)))
         (seq 0 numLists)).

(** Every list of variables and of values can be broken up, and no list
    of variables is empty. *)
Definition foreach_lists_ok (get : string → Z * list string)
    (objv : list string) (numLists : nat) : Prop :=
  ∀ i, (i < numLists)%nat →
    (get (nth (1 + i * 2)%nat objv "")).1 = TCL_OK
    ∧ varv get objv i ≠ []
    ∧ (get (nth (2 + i * 2)%nat objv "")).1 = TCL_OK.

(** A round in which every variable can be set, the loop is not canceled
    and the body returns normally or by [continue]. *)
Definition sets_and_runs (r : Round) : Prop :=
  (∀ i v, r_setvar r i v = true) ∧ r_check r = TCL_OK
  ∧ (r_body r = TCL_OK ∨ r_body r = TCL_CONTINUE).

(** ** [InfoObjCmd] *)

(** [switch (loopPtr->control)]. *)
Definition desc (c : LoopControl) : string :=
  match c with
  | LOOP_RUN => "running"
  | LOOP_PAUSE => "paused"
  | LOOP_CANCEL => "canceled"
  end.

(** [%u] and [%" PRIu64 "]. *)
Definition udec (n : Z) : string :=
  DecimalString.NilZero.string_of_uint (N.to_uint (Z.to_N n)).

(** What [Ns_TclPrintfResult] leaves in the interpreter.  [elements]
    stands for the string that the [Tcl_DStringAppendElement] calls of
    [EnterLoop] have built from the arguments of the command. *)
Definition info_text (elements : list string → string) (id : string)
    (l : LoopData) : string :=
  "loopid " +:+ id +:+ " threadid " +:+ hex (tid l)
    +:+ " start " +:+ udec (sec (etime l) mod 2 ^ 64)
    +:+ ":" +:+ dec (usec (etime l))
    +:+ " spins " +:+ udec (spins l)
    +:+ " status " +:+ desc (control l)
    +:+ " command {" +:+ elements (args l) +:+ "}".

Definition InfoObjCmd (elements : list string → string) (objv : list string)
    (s : State) : option (Z * string) :=
  match objv with
  | [_; id] =>
      match GetLoop id s with
      | inl msg => Some (TCL_ERROR, msg)
      | inr loopPtr =>
          l ← loopmem s !! loopPtr;
          Some (TCL_OK, info_text elements id l)
      end
  | _ => Some (TCL_ERROR, Tcl_WrongNumArgs objv "loop-id")
  end.



(** * Properties *)

(** ** Field updates commute with field reads *)

Lemma broadcast_fields (s : State) :
  loops (Ns_CondBroadcast s) = loops s
  ∧ threads (Ns_CondBroadcast s) = threads s
  ∧ next (Ns_CondBroadcast s) = next s
  ∧ loopmem (Ns_CondBroadcast s) = loopmem s
  ∧ evalmem (Ns_CondBroadcast s) = evalmem s
  ∧ log (Ns_CondBroadcast s) = log s
  ∧ broadcasts (Ns_CondBroadcast s) = S (broadcasts s).
Proof. by repeat split. Qed.

Lemma state_eta (s : State) :
  mkState (loops s) (threads s) (next s) (loopmem s) (evalmem s)
          (broadcasts s) (log s) = s.
Proof. by destruct s. Qed.

Lemma state_ext (s s' : State) :
  loops s = loops s' → threads s = threads s' → next s = next s' →
  loopmem s = loopmem s' → evalmem s = evalmem s' →
  broadcasts s = broadcasts s' → log s = log s' → s = s'.
Proof. destruct s, s'. simpl. by intros -> -> -> -> -> -> ->. Qed.

Lemma set_threads_id (s : State) : set_threads (λ t, t) s = s.
Proof. by destruct s. Qed.

Lemma InitInterp_keeps (thread : Z) (s : State) :
  loops (InitInterp thread s) = loops s
  ∧ next (InitInterp thread s) = next s
  ∧ loopmem (InitInterp thread s) = loopmem s
  ∧ evalmem (InitInterp thread s) = evalmem s
  ∧ broadcasts (InitInterp thread s) = broadcasts s
  ∧ log (InitInterp thread s) = log s.
Proof. unfold InitInterp. by destruct (threads s !! hex thread). Qed.

(** ** [AbortObjCmd] *)

Lemma Abort_keeps_loops (objv : list string) (s : State) :
  loops (AbortObjCmd objv s).2 = loops s
  ∧ loopmem (AbortObjCmd objv s).2 = loopmem s
  ∧ evalmem (AbortObjCmd objv s).2 = evalmem s
  ∧ next (AbortObjCmd objv s).2 = next s.
Proof.
  unfold AbortObjCmd.
  destruct objv as [|c [|id [|x rest]]]; try done.
  by destruct (threads s !! id).
Qed.

Lemma Abort_reads_threads_only (objv : list string) (s1 s2 : State) :
  threads s1 = threads s2 →
  (AbortObjCmd objv s1).1 = (AbortObjCmd objv s2).1
  ∧ threads (AbortObjCmd objv s1).2 = threads (AbortObjCmd objv s2).2.
Proof.
  intros Ht. unfold AbortObjCmd.
  destruct objv as [|c [|id [|x rest]]]; simpl; rewrite ?Ht; try done.
  destruct (threads s2 !! id); simpl; by rewrite ?Ht.
Qed.

(** ** The pieces of [CheckControl] *)

(** The [while] loop of [CheckControl] is left only with no request
    attached and a control flag other than [LOOP_PAUSE]; the value returned
    is decided by that flag alone, and nothing is written. *)
Lemma CheckControl_while_return (a : addr) (s s' : State) (r : Z)
    (m : option string) :
  CheckControl_while a s = Some (CC_Return r m, s') →
  s' = s ∧ ∃ l, loopmem s !! a = Some l ∧ evalPtr l = None
    ∧ ((control l = LOOP_CANCEL ∧ r = TCL_ERROR ∧ m = Some canceled_msg)
       ∨ (control l = LOOP_RUN ∧ r = TCL_OK ∧ m = None)).
Proof.
  unfold CheckControl_while. intros H.
  destruct (loopmem s !! a) as [l|] eqn:Hl; simpl in H; [|done].
  destruct (evalPtr l) as [e|] eqn:He.
  - destruct (evalmem s !! e); simpl in H; congruence.
  - repeat case_decide; simplify_eq; split; try done; exists l;
      split_and!; try done; [by left|right].
    split_and!; try done. by destruct (control l).
Qed.

Lemma CheckControl_while_state (a : addr) (s s' : State) (o : CheckOutcome) :
  CheckControl_while a s = Some (o, s') → s' = s.
Proof.
  unfold CheckControl_while. intros H.
  destruct (loopmem s !! a) as [l|]; simpl in H; [|done].
  destruct (evalPtr l) as [e|].
  - destruct (evalmem s !! e); simpl in H; congruence.
  - repeat case_decide; congruence.
Qed.

Lemma CheckControl_while_total (a : addr) (s : State) (l : LoopData) :
  loopmem s !! a = Some l →
  (∀ e, evalPtr l = Some e → is_Some (evalmem s !! e)) →
  ∃ o, CheckControl_while a s = Some (o, s)
    ∧ (control l = LOOP_PAUSE → evalPtr l = None → o = CC_CondWait)
    ∧ (control l = LOOP_RUN → evalPtr l = None → o = CC_Return TCL_OK None)
    ∧ (control l = LOOP_CANCEL → evalPtr l = None →
       o = CC_Return TCL_ERROR (Some canceled_msg))
    ∧ (∀ e ev, evalPtr l = Some e → evalmem s !! e = Some ev →
       o = CC_Eval (script ev)).
Proof.
  intros Hl Hev. unfold CheckControl_while. rewrite Hl. simpl.
  destruct (evalPtr l) as [e|] eqn:He.
  - destruct (Hev e eq_refl) as [ev Hev']. rewrite Hev'. simpl.
    eexists; split; [done|]. split_and!; try done.
    intros e' ev' [= <-] ?. congruence.
  - repeat case_decide; eexists; (split; [done|]); split_and!;
      try done; try congruence.
    all: destruct (control l); try done.
Qed.

(** ** The probing loop of [EnterLoop] *)

Lemma probe_n_add (n m : nat) (tbl : gmap string addr) (x : Z) :
  probe_n (n + m) tbl x =
    match probe_n n tbl x with
    | inl x' => probe_n m tbl x'
    | inr r => inr r
    end.
Proof.
  revert x. induction n as [|n IH]; intros x; simpl; [done|].
  destruct (probe_round tbl x); [apply IH|done].
Qed.

Lemma probe_rounds_unary (p : positive) (tbl : gmap string addr) (x : Z) :
  probe_rounds p tbl x = probe_n (Pos.to_nat p) tbl x.
Proof.
  revert x. induction p as [q IH|q IH|]; intros x.
  - rewrite Pos2Nat.inj_xI.
    replace (2 * Pos.to_nat q)%nat with (Pos.to_nat q + Pos.to_nat q)%nat
      by lia.
    cbn [probe_rounds probe_n].
    destruct (probe_round tbl x) as [x1|r]; [|done].
    rewrite probe_n_add, <- IH.
    destruct (probe_rounds q tbl x1); [apply IH|done].
  - rewrite Pos2Nat.inj_xO.
    replace (2 * Pos.to_nat q)%nat with (Pos.to_nat q + Pos.to_nat q)%nat
      by lia.
    cbn [probe_rounds].
    rewrite probe_n_add, <- IH.
    destruct (probe_rounds q tbl x); [apply IH|done].
  - change (Pos.to_nat 1) with 1%nat. cbn [probe_rounds probe_n].
    by destruct (probe_round tbl x).
Qed.

Lemma UINT_MOD_pos : 0 < UINT_MOD.
Proof. by compute. Qed.

Lemma probe_n_hit (tbl : gmap string addr) (k n : nat) (x : Z) :
  0 ≤ x < UINT_MOD →
  (k < n)%nat →
  (∀ j, (j < k)%nat → is_Some (tbl !! probe_key x j)) →
  tbl !! probe_key x k = None →
  probe_n n tbl x
    = inr (probe_key x k, (x + Z.of_nat k + 1) mod UINT_MOD).
Proof.
  pose proof UINT_MOD_pos as HM.
  revert n x. induction k as [|k IH]; intros n x Hx Hk Hocc Hfree.
  - destruct n as [|n]; [lia|]. simpl. unfold probe_round.
    unfold probe_key in Hfree. simpl in Hfree.
    rewrite Z.add_0_r, Z.mod_small in Hfree by done.
    rewrite Hfree. unfold probe_key. simpl.
    by rewrite !Z.add_0_r, (Z.mod_small x) by done.
  - destruct n as [|n]; [lia|]. simpl. unfold probe_round.
    destruct (Hocc 0%nat ltac:(lia)) as [a0 Ha0].
    unfold probe_key in Ha0. simpl in Ha0.
    rewrite Z.add_0_r, Z.mod_small in Ha0 by done. rewrite Ha0.
    assert (Hshift : ∀ j, probe_key ((x + 1) mod UINT_MOD) j
                          = probe_key x (S j)).
    { intros j. unfold probe_key. f_equal.
      rewrite Zplus_mod_idemp_l. f_equal. lia. }
    rewrite (IH n ((x + 1) mod UINT_MOD)).
    + rewrite Hshift. do 2 f_equal.
      rewrite <- Z.add_assoc, Zplus_mod_idemp_l. f_equal. lia.
    + by apply Z.mod_pos_bound.
    + lia.
    + intros j Hj. rewrite Hshift. apply Hocc. lia.
    + by rewrite Hshift.
Qed.

Lemma probe_n_miss (tbl : gmap string addr) (n : nat) (x : Z) :
  0 ≤ x < UINT_MOD →
  (∀ j, (j < n)%nat → is_Some (tbl !! probe_key x j)) →
  probe_n n tbl x = inl ((x + Z.of_nat n) mod UINT_MOD).
Proof.
  pose proof UINT_MOD_pos as HM.
  revert x. induction n as [|n IH]; intros x Hx Hocc.
  - simpl. by rewrite Z.add_0_r, Z.mod_small.
  - simpl. unfold probe_round.
    destruct (Hocc 0%nat ltac:(lia)) as [a0 Ha0].
    unfold probe_key in Ha0. simpl in Ha0.
    rewrite Z.add_0_r, Z.mod_small in Ha0 by done. rewrite Ha0.
    rewrite IH.
    + rewrite Zplus_mod_idemp_l.
      apply (f_equal (λ z, inl (z mod UINT_MOD))). lia.
    + by apply Z.mod_pos_bound.
    + intros j Hj. specialize (Hocc (S j) ltac:(lia)).
      unfold probe_key in *. rewrite Zplus_mod_idemp_l.
      replace (x + 1 + Z.of_nat j) with (x + Z.of_nat (S j)) by lia. done.
Qed.

(** Among the rounds that find a free key there is a first one. *)
Lemma free_round_or_all_taken (tbl : gmap string addr) (x : Z) (k : nat) :
  (∀ j, (j < k)%nat → is_Some (tbl !! probe_key x j))
  ∨ ∃ k0, (k0 < k)%nat ∧ tbl !! probe_key x k0 = None
      ∧ ∀ j, (j < k0)%nat → is_Some (tbl !! probe_key x j).
Proof.
  induction k as [|k [IH|(k0 & ? & ? & ?)]].
  - left. intros j Hj. lia.
  - destruct (tbl !! probe_key x k) eqn:E.
    + left. intros j Hj. destruct (decide (j = k)) as [->|]; [by rewrite E|].
      apply IH. lia.
    + right. exists k. split_and!; [lia|done..].
  - right. exists k0. split_and!; [lia|done..].
Qed.

Lemma first_free_round (tbl : gmap string addr) (x : Z) (k : nat) :
  tbl !! probe_key x k = None →
  ∃ k0, (k0 ≤ k)%nat ∧ tbl !! probe_key x k0 = None
    ∧ ∀ j, (j < k0)%nat → is_Some (tbl !! probe_key x j).
Proof.
  intros Hfree.
  destruct (free_round_or_all_taken tbl x (S k)) as [Hall|(k0 & ? & ? & ?)].
  - specialize (Hall k ltac:(lia)). rewrite Hfree in Hall.
    by destruct Hall.
  - exists k0. split_and!; [lia|done..].
Qed.

(** Distinct counters print as distinct keys. *)
Lemma hex_inj (a b : Z) : 0 ≤ a → 0 ≤ b → hex a = hex b → a = b.
Proof.
  intros Ha Hb H. unfold hex in H.
  apply Z2N.inj; [done..|].
  apply HexadecimalN.Unsigned.to_uint_inj.
  pose proof (NilEmpty.usu (N.to_hex_uint (Z.to_N a))) as E1.
  pose proof (NilEmpty.usu (N.to_hex_uint (Z.to_N b))) as E2.
  rewrite H in E1. congruence.
Qed.

Lemma probe_key_inj (x : Z) (j k : nat) :
  Z.of_nat j < UINT_MOD → Z.of_nat k < UINT_MOD →
  probe_key x j = probe_key x k → j = k.
Proof.
  pose proof UINT_MOD_pos as HM. intros Hj Hk H.
  apply hex_inj in H; try (apply Z.mod_pos_bound; lia).
  pose proof (Z.div_mod (x + Z.of_nat j) UINT_MOD ltac:(lia)) as E1.
  pose proof (Z.div_mod (x + Z.of_nat k) UINT_MOD ltac:(lia)) as E2.
  rewrite H in E1.
  assert (Z.of_nat j - Z.of_nat k
          = UINT_MOD * ((x + Z.of_nat j) / UINT_MOD
                        - (x + Z.of_nat k) / UINT_MOD)) as E by lia.
  assert (- UINT_MOD < Z.of_nat j - Z.of_nat k < UINT_MOD) as Hr by lia.
  assert ((x + Z.of_nat j) / UINT_MOD - (x + Z.of_nat k) / UINT_MOD = 0)
    by nia.
  lia.
Qed.

(** The round budget of [probe], as a number of rounds. *)
Lemma probe_budget :
  ∃ M : nat, Z.of_nat M = UINT_MOD
    ∧ ∀ tbl x, probe tbl x = match probe_n M tbl x with
                             | inl _ => None
                             | inr r => Some r
                             end.
Proof.
  exists (Pos.to_nat (Z.to_pos UINT_MOD)). split.
  - rewrite positive_nat_Z. apply Z2Pos.id, UINT_MOD_pos.
  - intros tbl x. unfold probe. by rewrite probe_rounds_unary.
Qed.

(** A table that holds the keys of all [2 ^ 32] counters has at least
    [2 ^ 32] entries. *)
Lemma all_taken_size (tbl : gmap string addr) (x : Z) :
  (∀ j, Z.of_nat j < UINT_MOD → is_Some (tbl !! probe_key x j)) →
  UINT_MOD ≤ Z.of_nat (size tbl).
Proof.
  intros Hall. destruct probe_budget as (M & HM & _).
  set (ks := probe_key x <$> seq 0 M).
  assert (NoDup ks) as Hnd.
  { apply NoDup_fmap_2_strong; [|apply NoDup_seq].
    intros j k Hj Hk. apply elem_of_seq in Hj, Hk.
    apply probe_key_inj; lia. }
  assert (ks ⊆+ elements (dom tbl)) as Hsub.
  { apply NoDup_submseteq; [done|]. intros key Hkey.
    apply list_elem_of_fmap in Hkey as (j & -> & Hj).
    apply elem_of_seq in Hj.
    apply elem_of_elements, elem_of_dom, Hall. lia. }
  apply submseteq_length in Hsub.
  unfold ks in Hsub. rewrite length_fmap, length_seq in Hsub.
  rewrite <- size_dom. unfold size, set_size. simpl. lia.
Qed.

Lemma probe_Some (tbl : gmap string addr) (x : Z) (k : nat) :
  0 ≤ x < UINT_MOD →
  Z.of_nat k < UINT_MOD →
  tbl !! probe_key x k = None →
  ∃ k0, (k0 ≤ k)%nat
    ∧ (∀ j, (j < k0)%nat → is_Some (tbl !! probe_key x j))
    ∧ tbl !! probe_key x k0 = None
    ∧ probe tbl x
      = Some (probe_key x k0, (x + Z.of_nat k0 + 1) mod UINT_MOD).
Proof.
  intros Hx Hk Hfree. destruct probe_budget as (M & HM & Hp).
  destruct (first_free_round tbl x k Hfree) as (k0 & Hle & Hf0 & Hocc).
  exists k0. split_and!; try done.
  rewrite Hp, (probe_n_hit tbl k0); [done..|lia|done|done].
Qed.

Lemma probe_None (tbl : gmap string addr) (x : Z) :
  0 ≤ x < UINT_MOD →
  probe tbl x = None →
  ∀ j, Z.of_nat j < UINT_MOD → is_Some (tbl !! probe_key x j).
Proof.
  intros Hx Hp j Hj.
  destruct (tbl !! probe_key x j) eqn:E; [done|].
  destruct (probe_Some tbl x j Hx Hj E) as (k0 & _ & _ & _ & Hs). congruence.
Qed.

Lemma probe_inv (tbl : gmap string addr) (x : Z) (key : string) (x' : Z) :
  0 ≤ x < UINT_MOD →
  probe tbl x = Some (key, x') →
  ∃ k0, Z.of_nat k0 < UINT_MOD
    ∧ (∀ j, (j < k0)%nat → is_Some (tbl !! probe_key x j))
    ∧ tbl !! key = None
    ∧ key = probe_key x k0
    ∧ x' = (x + Z.of_nat k0 + 1) mod UINT_MOD.
Proof.
  intros Hx Hp. destruct probe_budget as (M & HM & HpM).
  destruct (free_round_or_all_taken tbl x M)
    as [Hall|(k0 & Hk0 & Hf & Hocc)].
  - exfalso. rewrite HpM in Hp.
    by rewrite (probe_n_miss tbl M x Hx Hall) in Hp.
  - destruct (probe_Some tbl x k0 Hx ltac:(lia) Hf)
      as (k1 & Hle & Hocc1 & Hf1 & E).
    rewrite Hp in E. injection E as -> ->.
    exists k1. split_and!; try done. lia.
Qed.

(** ** [EnterLoop] *)

Lemma free_key_exists (tbl : gmap string addr) (x : Z) :
  Z.of_nat (size tbl) < UINT_MOD →
  ∃ k, Z.of_nat k < UINT_MOD ∧ tbl !! probe_key x k = None.
Proof.
  intros Hsz. destruct probe_budget as (M & HM & _).
  destruct (free_round_or_all_taken tbl x M)
    as [Hall|(k0 & Hk0 & Hf & _)].
  - assert (UINT_MOD ≤ Z.of_nat (size tbl)); [|lia].
    apply (all_taken_size tbl x). intros j Hj. apply Hall. lia.
  - exists k0. split; [lia|done].
Qed.

Lemma EnterLoop_unfold (loopPtr : addr) (thread : Z) (now : Ns_Time)
    (objv : list string) (s : State) :
  EnterLoop loopPtr thread now objv s =
    match probe (loops s) (next s) with
    | Some (key, n') =>
        Some (mkState (<[key := loopPtr]> (loops s)) (threads s) n'
                (<[loopPtr := mkLoopData LOOP_RUN key thread 0 now key objv
                                None]> (loopmem s))
                (evalmem s) (broadcasts s) (log s))
    | None => None
    end.
Proof.
  unfold EnterLoop. by destruct (probe (loops s) (next s)) as [[key n']|].
Qed.

Lemma EnterLoop_inv (loopPtr : addr) (thread : Z) (now : Ns_Time)
    (objv : list string) (s s' : State) :
  0 ≤ next s < UINT_MOD →
  EnterLoop loopPtr thread now objv s = Some s' →
  ∃ k, Z.of_nat k < UINT_MOD
    ∧ (∀ j, (j < k)%nat → is_Some (loops s !! probe_key (next s) j))
    ∧ loops s !! probe_key (next s) k = None
    ∧ s' = mkState (<[probe_key (next s) k := loopPtr]> (loops s))
             (threads s) ((next s + Z.of_nat k + 1) mod UINT_MOD)
             (<[loopPtr := mkLoopData LOOP_RUN (probe_key (next s) k) thread
                             0 now (probe_key (next s) k) objv None]>
                (loopmem s))
             (evalmem s) (broadcasts s) (log s).
Proof.
  intros Hn H. rewrite EnterLoop_unfold in H.
  destruct (probe (loops s) (next s)) as [[key n']|] eqn:Hp; [|done].
  destruct (probe_inv _ _ _ _ Hn Hp) as (k & Hk & Hocc & Hfree & Ek & En).
  subst key n'. exists k. split_and!; try done. by injection H as <-.
Qed.

(** What [EnterLoop] leaves alone. *)
Lemma EnterLoop_keeps (loopPtr : addr) (thread : Z) (now : Ns_Time)
    (objv : list string) (s s' : State) :
  EnterLoop loopPtr thread now objv s = Some s' →
  evalmem s' = evalmem s ∧ threads s' = threads s
  ∧ broadcasts s' = broadcasts s ∧ log s' = log s
  ∧ ∀ b, b ≠ loopPtr → loopmem s' !! b = loopmem s !! b.
Proof.
  intros H. rewrite EnterLoop_unfold in H.
  destruct (probe (loops s) (next s)) as [[key n']|]; [|done].
  injection H as <-. split_and!; try done.
  intros b Hb. simpl. by rewrite lookup_insert_ne.
Qed.

(** C8.  [EnterLoop] hands out a fresh id: with fewer than [2 ^ 32] loops
    in the table the probing loop ends; it stops at the first counter
    value, from [next] on, whose key is not in the table (every earlier
    value collided and was retried); the new handle is stored under that
    key, which was not in the table before; nothing about a collision
    reaches the caller, the only outcome being the new state. *)
Theorem EnterLoop_fresh_id (loopPtr : addr) (thread : Z) (now : Ns_Time)
    (objv : list string) (s : State) :
  0 ≤ next s < UINT_MOD →
  Z.of_nat (size (loops s)) < UINT_MOD →
  ∃ (k : nat) (s' : State),
    EnterLoop loopPtr thread now objv s = Some s'
    ∧ (∀ j, (j < k)%nat → is_Some (loops s !! probe_key (next s) j))
    ∧ loops s !! probe_key (next s) k = None
    ∧ loops s' = <[probe_key (next s) k := loopPtr]> (loops s)
    ∧ loops s' !! probe_key (next s) k = Some loopPtr
    ∧ loopmem s' !! loopPtr
      = Some (mkLoopData LOOP_RUN (probe_key (next s) k) thread 0 now
                (probe_key (next s) k) objv None)
    ∧ next s' = (next s + Z.of_nat k + 1) mod UINT_MOD.
Proof.
  intros Hn Hsz.
  destruct (free_key_exists (loops s) (next s) Hsz) as (k1 & Hk1 & Hfree1).
  destruct (probe_Some (loops s) (next s) k1 Hn Hk1 Hfree1)
    as (k & Hle & Hocc & Hfree & Hp).
  exists k. eexists. rewrite EnterLoop_unfold, Hp.
  split_and!; try done.
  - apply lookup_insert_eq.
  - apply lookup_insert_eq.
Qed.

Lemma EnterLoop_fresh_id_witness :
  ∃ s', EnterLoop 2%nat 7 t0 objv_while s_wrapped = Some s'
    ∧ loops s_wrapped !! "0" = Some 1%nat
    ∧ loops s_wrapped !! "1" = None
    ∧ loops s' !! "1" = Some 2%nat
    ∧ next s' = 2.
Proof.
  destruct (EnterLoop_fresh_id 2%nat 7 t0 objv_while s_wrapped)
    as (k & s' & HE & Hocc & Hfree & Hlo & Hnew & Hmem & Hnext).
  - vm_compute. split; [discriminate|reflexivity].
  - vm_compute. reflexivity.
  - exists s'. split; [exact HE|].
    destruct k as [|[|k]].
    + vm_compute in Hfree. discriminate.
    + split_and!; [reflexivity|reflexivity|exact Hnew|exact Hnext].
    + destruct (Hocc 1%nat ltac:(lia)) as [x Hx].
      vm_compute in Hx. discriminate.
Defined.

(** ** The consistency invariant *)

Lemma Inv_init : Inv init_sys.
Proof.
  split; simpl.
  - pose proof UINT_MOD_pos. lia.
  - intros id a H. by rewrite lookup_empty in H.
  - intros a l H. by rewrite lookup_empty in H.
  - intros a. by rewrite !lookup_empty.
  - intros a l e H. by rewrite lookup_empty in H.
  - intros e a H. by rewrite lookup_empty in H.
  - intros e H. by rewrite lookup_empty in H.
Qed.

(** Two loop structures that differ in nothing the tables depend on. *)
Definition same_links (l l' : LoopData) : Prop :=
  hPtr l' = hPtr l ∧ lid l' = lid l ∧ evalPtr l' = evalPtr l.

(** Writes that leave every table, every request and every link alone. *)
Lemma Inv_same_links (sys sys' : System) :
  Inv sys →
  loops (shared sys') = loops (shared sys) →
  next (shared sys') = next (shared sys) →
  evalmem (shared sys') = evalmem (shared sys) →
  epc sys' = epc sys →
  (∀ a, is_Some (lpc sys' !! a) ↔ is_Some (lpc sys !! a)) →
  (∀ a l, loopmem (shared sys) !! a = Some l →
     ∃ l', loopmem (shared sys') !! a = Some l' ∧ same_links l l') →
  (∀ a, loopmem (shared sys) !! a = None →
     loopmem (shared sys') !! a = None) →
  Inv sys'.
Proof.
  intros [Hn Ht Hm Hl Ha He Hv] Elo Enx Eev Eep Hlp Hsome Hnone.
  assert (Hback : ∀ a l', loopmem (shared sys') !! a = Some l' →
            ∃ l, loopmem (shared sys) !! a = Some l ∧ same_links l l').
  { intros a l' Hl'. destruct (loopmem (shared sys) !! a) as [l|] eqn:E.
    - destruct (Hsome a l E) as (l2 & E2 & Hs). exists l. split; [done|].
      congruence.
    - rewrite (Hnone a E) in Hl'. done. }
  split.
  - by rewrite Enx.
  - intros id a Hid. rewrite Elo in Hid.
    destruct (Ht id a Hid) as (l & El & Hh & Hi).
    destruct (Hsome a l El) as (l' & El' & Hh' & Hi' & _).
    exists l'. split_and!; congruence.
  - intros a l' Hl'. destruct (Hback a l' Hl') as (l & El & Hh & _).
    rewrite Elo, Hh. by apply Hm.
  - intros a. rewrite Hlp, Hl. split; intros [l El].
    + destruct (Hsome a l El) as (l' & -> & _). done.
    + destruct (Hback a l El) as (l0 & -> & _). done.
  - intros a l' e Hl' He'. destruct (Hback a l' Hl') as (l & El & _ & _ & Hp).
    rewrite Eep, Eev. apply (Ha a l e El). congruence.
  - intros e a Hea. rewrite Eep in Hea. rewrite Eev.
    destruct (He e a Hea) as (ev & Eev' & Hw). exists ev. split; [done|].
    intros Hst. destruct (Hw Hst) as (l & El & Hp).
    destruct (Hsome a l El) as (l' & El' & _ & _ & Hp').
    exists l'. split; congruence.
  - intros e. rewrite Eev, Eep. apply Hv.
Qed.

Lemma Inv_update_loop (sys sys' : System) (a : addr) (l l' : LoopData) :
  Inv sys →
  loopmem (shared sys) !! a = Some l →
  same_links l l' →
  loops (shared sys') = loops (shared sys) →
  next (shared sys') = next (shared sys) →
  evalmem (shared sys') = evalmem (shared sys) →
  loopmem (shared sys') = <[a := l']> (loopmem (shared sys)) →
  epc sys' = epc sys →
  (∀ b, is_Some (lpc sys' !! b) ↔ is_Some (lpc sys !! b)) →
  Inv sys'.
Proof.
  intros HI Hl Hs Elo Enx Eev Elm Eep Hlp.
  apply (Inv_same_links sys sys' HI Elo Enx Eev Eep Hlp).
  - intros b lb Hb. rewrite Elm.
    destruct (decide (b = a)) as [->|Hne].
    + rewrite lookup_insert_eq. exists l'. split; [done|]. congruence.
    + rewrite lookup_insert_ne by done. exists lb. by split.
  - intros b Hb. rewrite Elm.
    rewrite lookup_insert_ne; [done|]. congruence.
Qed.

(** A request hangs on at most one loop. *)
Lemma attached_once (sys : System) (a b : addr) (la lb : LoopData)
    (e : addr) :
  Inv sys →
  loopmem (shared sys) !! a = Some la → evalPtr la = Some e →
  loopmem (shared sys) !! b = Some lb → evalPtr lb = Some e →
  a = b.
Proof.
  intros HI Ha Hea Hb Heb.
  destruct (inv_attached sys HI a la e Ha Hea) as [E1 _].
  destruct (inv_attached sys HI b lb e Hb Heb) as [E2 _]. congruence.
Qed.

(** The checkpoint, or the controller's timeout, takes a request off its
    loop; the request leaves state [EVAL_WAIT] or is given up. *)
Lemma Inv_detach (sys sys' : System) (a : addr) (l : LoopData) (e : addr)
    (ev' : option EvalData) :
  Inv sys →
  loopmem (shared sys) !! a = Some l →
  evalPtr l = Some e →
  (∀ v, ev' = Some v → state v ≠ EVAL_WAIT) →
  loops (shared sys') = loops (shared sys) →
  next (shared sys') = next (shared sys) →
  loopmem (shared sys') = <[a := with_evalPtr None l]> (loopmem (shared sys)) →
  evalmem (shared sys') = partial_alter (λ _, ev') e (evalmem (shared sys)) →
  (ev' = None → epc sys' = delete e (epc sys)) →
  (is_Some ev' → epc sys' = epc sys) →
  (∀ b, is_Some (lpc sys' !! b) ↔ is_Some (lpc sys !! b)) →
  Inv sys'.
Proof.
  intros HI Hl He Hst Elo Enx Elm Eev Eep0 Eep1 Hlp.
  pose proof HI as [Hn Ht Hm Hlc Ha Hep Hv].
  assert (Hepc : ∀ e' b, e' ≠ e → epc sys' !! e' = Some b ↔
                                   epc sys !! e' = Some b).
  { intros e' b Hne. destruct ev' as [v|].
    - by rewrite Eep1.
    - rewrite Eep0 by done. by rewrite lookup_delete_ne. }
  split.
  - by rewrite Enx.
  - intros id b Hid. rewrite Elo in Hid.
    destruct (Ht id b Hid) as (lb & Elb & Hh & Hi). rewrite Elm.
    destruct (decide (b = a)) as [->|Hne].
    + rewrite lookup_insert_eq. eexists. split; [done|].
      assert (lb = l) as -> by congruence. done.
    + rewrite lookup_insert_ne by done. by exists lb.
  - intros b lb. rewrite Elm, Elo.
    destruct (decide (b = a)) as [->|Hne].
    + rewrite lookup_insert_eq. intros [= <-]. simpl. by apply Hm.
    + rewrite lookup_insert_ne by done. apply Hm.
  - intros b. rewrite Hlp, Hlc, Elm.
    destruct (decide (b = a)) as [->|Hne].
    + rewrite lookup_insert_eq, Hl. split; by eexists.
    + by rewrite lookup_insert_ne.
  - intros b lb e'. rewrite Elm.
    destruct (decide (b = a)) as [->|Hne].
    + rewrite lookup_insert_eq. by intros [= <-].
    + rewrite lookup_insert_ne by done. intros Hb Heb.
      assert (e' ≠ e) as Hne'.
      { intros ->. apply Hne. by eapply (attached_once sys b a). }
      destruct (Ha b lb e' Hb Heb) as [E1 E2]. split.
      * by apply Hepc.
      * rewrite Eev. by rewrite lookup_partial_alter_ne.
  - intros e' b Hb. rewrite Eev.
    destruct (decide (e' = e)) as [->|Hne'].
    + rewrite lookup_partial_alter_eq. destruct ev' as [v|].
      * exists v. split; [done|]. intros Hw. by destruct (Hst v eq_refl).
      * rewrite Eep0 in Hb by done. by rewrite lookup_delete_eq in Hb.
    + rewrite lookup_partial_alter_ne by done.
      apply Hepc in Hb; [|done].
      destruct (Hep e' b Hb) as (v & Ev & Hw). exists v. split; [done|].
      intros Hwait. destruct (Hw Hwait) as (lb & Elb & Heb).
      assert (b ≠ a) as Hne.
      { intros ->. congruence. }
      exists lb. rewrite Elm, lookup_insert_ne by done. done.
  - intros e'. rewrite Eev.
    destruct (decide (e' = e)) as [->|Hne'].
    + rewrite lookup_partial_alter_eq. intros Hs. rewrite Eep1 by done.
      destruct (Ha a l e Hl He) as [E _]. by rewrite E.
    + rewrite lookup_partial_alter_ne by done. intros Hs.
      destruct (Hv e' Hs) as [b Hb]. exists b. by apply Hepc.
Qed.

(** [EvalObjCmd] returns with a request that is done or dropped. *)
Lemma Inv_finish (sys sys' : System) (e : addr) (ev : EvalData) :
  Inv sys →
  evalmem (shared sys) !! e = Some ev →
  state ev ≠ EVAL_WAIT →
  loops (shared sys') = loops (shared sys) →
  next (shared sys') = next (shared sys) →
  loopmem (shared sys') = loopmem (shared sys) →
  evalmem (shared sys') = delete e (evalmem (shared sys)) →
  epc sys' = delete e (epc sys) →
  lpc sys' = lpc sys →
  Inv sys'.
Proof.
  intros [Hn Ht Hm Hlc Ha Hep Hv] Hev Hst Elo Enx Elm Eev Eep Elp.
  split; rewrite ?Elo, ?Enx, ?Elm, ?Eev, ?Eep, ?Elp; try done.
  - intros b lb e' Hb Heb. destruct (Ha b lb e' Hb Heb) as [E1 (v & Ev & Hw)].
    assert (e' ≠ e) by (intros ->; congruence).
    rewrite !lookup_delete_ne by done. split; [done|]. by exists v.
  - intros e' b. destruct (decide (e' = e)) as [->|Hne].
    + by rewrite lookup_delete_eq.
    + rewrite !lookup_delete_ne by done. apply Hep.
  - intros e'. destruct (decide (e' = e)) as [->|Hne].
    + rewrite lookup_delete_eq. by intros [? ?].
    + rewrite !lookup_delete_ne by done. apply Hv.
Qed.

(** [EvalObjCmd] hangs a new request on a loop that has none. *)
Lemma Inv_attach (sys sys' : System) (a : addr) (l : LoopData) (e : addr)
    (ev : EvalData) :
  Inv sys →
  loopmem (shared sys) !! a = Some l →
  evalPtr l = None →
  epc sys !! e = None →
  state ev = EVAL_WAIT →
  loops (shared sys') = loops (shared sys) →
  next (shared sys') = next (shared sys) →
  loopmem (shared sys')
    = <[a := with_evalPtr (Some e) l]> (loopmem (shared sys)) →
  evalmem (shared sys') = <[e := ev]> (evalmem (shared sys)) →
  epc sys' = <[e := a]> (epc sys) →
  lpc sys' = lpc sys →
  Inv sys'.
Proof.
  intros [Hn Ht Hm Hlc Ha Hep Hv] Hl He Hfresh Hst Elo Enx Elm Eev Eep Elp.
  split; rewrite ?Elo, ?Enx, ?Elm, ?Eev, ?Eep, ?Elp; try done.
  - intros id b Hid. destruct (Ht id b Hid) as (lb & Elb & Hh & Hi).
    destruct (decide (b = a)) as [->|Hne].
    + rewrite lookup_insert_eq. eexists. split; [done|].
      assert (lb = l) as -> by congruence. done.
    + rewrite lookup_insert_ne by done. by exists lb.
  - intros b lb. destruct (decide (b = a)) as [->|Hne].
    + rewrite lookup_insert_eq. intros [= <-]. simpl. by apply Hm.
    + rewrite lookup_insert_ne by done. apply Hm.
  - intros b. rewrite Hlc. destruct (decide (b = a)) as [->|Hne].
    + rewrite lookup_insert_eq, Hl. split; by eexists.
    + by rewrite lookup_insert_ne.
  - intros b lb e'. destruct (decide (b = a)) as [->|Hne].
    + rewrite lookup_insert_eq. intros [= <-] [= <-].
      rewrite !lookup_insert_eq. split; [done|]. by exists ev.
    + rewrite lookup_insert_ne by done. intros Hb Heb.
      destruct (Ha b lb e' Hb Heb) as [E1 E2].
      assert (e' ≠ e) by (intros ->; congruence).
      by rewrite !lookup_insert_ne.
  - intros e' b. destruct (decide (e' = e)) as [->|Hne'].
    + rewrite !lookup_insert_eq. intros [= <-]. exists ev. split; [done|].
      intros _. exists (with_evalPtr (Some e) l).
      by rewrite lookup_insert_eq.
    + rewrite !lookup_insert_ne by done. intros Hb.
      destruct (Hep e' b Hb) as (v & Ev & Hw). exists v. split; [done|].
      intros Hwait. destruct (Hw Hwait) as (lb & Elb & Heb).
      assert (b ≠ a) by (intros ->; congruence).
      exists lb. by rewrite lookup_insert_ne.
  - intros e'. destruct (decide (e' = e)) as [->|Hne'].
    + rewrite !lookup_insert_eq. done.
    + rewrite !lookup_insert_ne by done. apply Hv.
Qed.

(** [EnterLoop] puts a new structure under a key that was free. *)
Lemma Inv_enter (sys sys' : System) (a : addr) (key : string)
    (data : LoopData) (pc : LoopPc) :
  Inv sys →
  loops (shared sys) !! key = None →
  loopmem (shared sys) !! a = None →
  hPtr data = key → lid data = key → evalPtr data = None →
  0 ≤ next (shared sys') < UINT_MOD →
  loops (shared sys') = <[key := a]> (loops (shared sys)) →
  loopmem (shared sys') = <[a := data]> (loopmem (shared sys)) →
  evalmem (shared sys') = evalmem (shared sys) →
  epc sys' = epc sys →
  lpc sys' = <[a := pc]> (lpc sys) →
  Inv sys'.
Proof.
  intros [Hn Ht Hm Hlc Ha Hep Hv] Hkey Hfresh Hh Hi Hp Hn' Elo Elm Eev Eep
    Elp.
  split; rewrite ?Elo, ?Elm, ?Eev, ?Eep, ?Elp; try done.
  - intros id b. destruct (decide (id = key)) as [->|Hne].
    + rewrite lookup_insert_eq. intros [= <-]. rewrite lookup_insert_eq.
      by exists data.
    + rewrite lookup_insert_ne by done. intros Hid.
      destruct (Ht id b Hid) as (lb & Elb & ? & ?).
      assert (b ≠ a) by (intros ->; congruence).
      rewrite lookup_insert_ne by done. by exists lb.
  - intros b lb. destruct (decide (b = a)) as [->|Hne].
    + rewrite lookup_insert_eq. intros [= <-]. rewrite Hh.
      apply lookup_insert_eq.
    + rewrite lookup_insert_ne by done. intros Hb.
      pose proof (Hm b lb Hb) as Hk.
      assert (hPtr lb ≠ key) by (intros E; congruence).
      by rewrite lookup_insert_ne.
  - intros b. destruct (decide (b = a)) as [->|Hne].
    + rewrite !lookup_insert_eq. done.
    + rewrite !lookup_insert_ne by done. apply Hlc.
  - intros b lb e. destruct (decide (b = a)) as [->|Hne].
    + rewrite lookup_insert_eq. intros [= <-]. congruence.
    + rewrite lookup_insert_ne by done. apply Ha.
  - intros e b Hb. destruct (Hep e b Hb) as (v & Ev & Hw).
    exists v. split; [done|]. intros Hwait.
    destruct (Hw Hwait) as (lb & Elb & Heb).
    assert (b ≠ a) by (intros ->; congruence).
    exists lb. by rewrite lookup_insert_ne.
Qed.

(** [LeaveLoop] and the end of the loop command's frame. *)
Lemma Inv_leave (sys sys' : System) (a : addr) (l : LoopData) :
  Inv sys →
  loopmem (shared sys) !! a = Some l →
  next (shared sys') = next (shared sys) →
  loops (shared sys') = delete (hPtr l) (loops (shared sys)) →
  loopmem (shared sys') = delete a (loopmem (shared sys)) →
  (evalPtr l = None → evalmem (shared sys') = evalmem (shared sys)) →
  (∀ e, evalPtr l = Some e →
     ∃ ev, evalmem (shared sys) !! e = Some ev
       ∧ evalmem (shared sys')
         = <[e := with_state EVAL_DROP ev]> (evalmem (shared sys))) →
  epc sys' = epc sys →
  lpc sys' = delete a (lpc sys) →
  Inv sys'.
Proof.
  intros HI Hl Enx Elo Elm Eev0 Eev1 Eep Elp.
  pose proof HI as [Hn Ht Hm Hlc Ha Hep Hv].
  assert (Hev : ∀ e', evalPtr l ≠ Some e' →
            evalmem (shared sys') !! e' = evalmem (shared sys) !! e').
  { intros e' Hne. destruct (evalPtr l) as [e|] eqn:E.
    - destruct (Eev1 e eq_refl) as (ev & _ & ->).
      rewrite lookup_insert_ne; [done|]. congruence.
    - by rewrite Eev0. }
  split; rewrite ?Enx, ?Elo, ?Elm, ?Eep, ?Elp; try done.
  - intros id b. destruct (decide (id = hPtr l)) as [->|Hne].
    + by rewrite lookup_delete_eq.
    + rewrite lookup_delete_ne by done. intros Hid.
      destruct (Ht id b Hid) as (lb & Elb & Hh & Hi).
      assert (b ≠ a) by (intros ->; congruence).
      rewrite lookup_delete_ne by done. by exists lb.
  - intros b lb. destruct (decide (b = a)) as [->|Hne].
    + by rewrite lookup_delete_eq.
    + rewrite lookup_delete_ne by done. intros Hb.
      pose proof (Hm b lb Hb) as Hk. pose proof (Hm a l Hl) as Hk'.
      assert (hPtr lb ≠ hPtr l) by (intros E; rewrite E in Hk; congruence).
      by rewrite lookup_delete_ne.
  - intros b. destruct (decide (b = a)) as [->|Hne].
    + rewrite !lookup_delete_eq. done.
    + rewrite !lookup_delete_ne by done. apply Hlc.
  - intros b lb e'. destruct (decide (b = a)) as [->|Hne].
    + by rewrite lookup_delete_eq.
    + rewrite lookup_delete_ne by done. intros Hb Heb.
      rewrite Hev; [by apply (Ha b lb)|].
      intros E. apply Hne. by eapply (attached_once sys b a).
  - intros e' b Hb. destruct (Hep e' b Hb) as (v & Ev & Hw).
    destruct (decide (evalPtr l = Some e')) as [E|E].
    + destruct (Eev1 e' E) as (ev & Eev & ->). rewrite lookup_insert_eq.
      eexists. split; [done|]. done.
    + rewrite (Hev e' E). exists v. split; [done|]. intros Hwait.
      destruct (Hw Hwait) as (lb & Elb & Heb).
      assert (b ≠ a) by (intros ->; congruence).
      exists lb. by rewrite lookup_delete_ne.
  - intros e' Hs. apply Hv.
    destruct (decide (evalPtr l = Some e')) as [E|E].
    + destruct (Eev1 e' E) as (ev & -> & _). done.
    + by rewrite <- (Hev e' E).
Qed.

(** ** What each piece writes *)

Lemma CheckControl_shape (a : addr) (s s' : State) (o : CheckOutcome) :
  CheckControl a s = Some (o, s') →
  ∃ l, loopmem s !! a = Some l
    ∧ s' = set_loopmem
             (<[a := with_spins ((spins l + 1) mod UINT_MOD) l]>) s
    ∧ CheckControl_while a s' = Some (o, s').
Proof.
  unfold CheckControl. intros H.
  destruct (loopmem s !! a) as [l|] eqn:Hl; simpl in H; [|done].
  exists l. split; [done|].
  pose proof (CheckControl_while_state _ _ _ _ H) as ->. done.
Qed.

Lemma CheckControl_evaluated_shape (a : addr) (res : Z) (txt : string)
    (s s' : State) (o : CheckOutcome) :
  CheckControl_evaluated a res txt s = Some (o, s') →
  ∃ l, loopmem s !! a = Some l
    ∧ ((evalPtr l = None
        ∧ s' = Ns_Log (LogDropped txt)
                 (if decide (res ≠ TCL_OK)
                  then Ns_Log (LogErrorInfo txt) s else s))
       ∨ (∃ e ev, evalPtr l = Some e ∧ evalmem s !! e = Some ev
          ∧ s' = Ns_CondBroadcast
                   (set_loopmem (<[a := with_evalPtr None l]>)
                      (set_evalmem
                         (<[e := with_state EVAL_DONE
                                   (with_result (result ev +:+ txt) ev)]>)
                         (if decide (res ≠ TCL_OK)
                          then Ns_Log (LogErrorInfo txt) s else s)))))
    ∧ (control l = LOOP_PAUSE → o = CC_CondWait)
    ∧ (control l ≠ LOOP_PAUSE → CheckControl_while a s' = Some (o, s')).
Proof.
  unfold CheckControl_evaluated. intros H.
  set (s0 := if decide (res ≠ TCL_OK) then Ns_Log (LogErrorInfo txt) s
             else s) in *.
  assert (loopmem s0 = loopmem s ∧ evalmem s0 = evalmem s) as [E1 E2].
  { unfold s0. by case_decide. }
  rewrite E1 in H.
  destruct (loopmem s !! a) as [l|] eqn:Hl; simpl in H; [|done].
  exists l. split; [done|].
  destruct (evalPtr l) as [e|] eqn:He.
  - rewrite E2 in H. destruct (evalmem s !! e) as [ev|] eqn:Hev;
      simpl in H; [|done].
    case_decide as Hc.
    + injection H as <- <-. split_and!; [right; by exists e, ev|done|done].
    + pose proof (CheckControl_while_state _ _ _ _ H) as ->.
      split_and!; [right; by exists e, ev|done|done].
  - simpl in H. case_decide as Hc.
    + injection H as <- <-. split_and!; [by left|done|done].
    + pose proof (CheckControl_while_state _ _ _ _ H) as ->.
      split_and!; [by left|done|done].
Qed.

Lemma LeaveLoop_shape (a : addr) (s s' : State) :
  LeaveLoop a s = Some s' →
  ∃ l s1, loopmem s !! a = Some l
    ∧ drop_pending l s = Some s1
    ∧ s' = set_loopmem (<[a := with_args [] l]>)
             (Tcl_DeleteHashEntry (hPtr l) s1)
    ∧ (evalPtr l = None → s1 = s)
    ∧ (∀ e, evalPtr l = Some e →
         ∃ ev, evalmem s !! e = Some ev
           ∧ s1 = Ns_CondBroadcast
                    (set_evalmem (<[e := with_state EVAL_DROP ev]>) s)).
Proof.
  unfold LeaveLoop. intros H.
  destruct (loopmem s !! a) as [l|] eqn:Hl; simpl in H; [|done].
  destruct (drop_pending l s) as [s1|] eqn:Hd; simpl in H; [|done].
  injection H as <-. exists l, s1. split_and!; try done.
  - intros He. unfold drop_pending in Hd. rewrite He in Hd. congruence.
  - intros e He. unfold drop_pending in Hd. rewrite He in Hd.
    destruct (evalmem s !! e) as [ev|]; simpl in Hd; [|done].
    exists ev. split; congruence.
Qed.

Lemma EvalObjCmd_wait_shape (e a : addr) (status : Ns_ReturnCode)
    (s s' : State) (o : EvalOutcome) :
  EvalObjCmd_wait e a status s = Some (o, s') →
  ∃ ev, evalmem s !! e = Some ev
    ∧ ((status = NS_OK ∧ state ev = EVAL_WAIT
        ∧ o = Ev_TimedWait a ∧ s' = s)
       ∨ (status ≠ NS_OK ∧ state ev = EVAL_WAIT
          ∧ o = Ev_Return TCL_ERROR "timeout: result dropped"
          ∧ ∃ l, loopmem s !! a = Some l
              ∧ s' = set_evalmem (delete e)
                       (set_loopmem (<[a := with_evalPtr None l]>) s))
       ∨ (state ev = EVAL_DROP
          ∧ o = Ev_Return TCL_ERROR "dropped: loop exited"
          ∧ s' = set_evalmem (delete e) s)
       ∨ (state ev = EVAL_DONE
          ∧ o = Ev_Return (code ev) (result ev)
          ∧ s' = set_evalmem (delete e) s)).
Proof.
  unfold EvalObjCmd_wait. intros H.
  destruct (evalmem s !! e) as [ev|] eqn:Hev; simpl in H; [|done].
  exists ev. split; [done|].
  case_decide as Hc.
  - destruct Hc as [-> Hw]. injection H as <- <-. by left.
  - destruct (state ev) eqn:Hst.
    + destruct (loopmem s !! a) as [l|] eqn:Hl; simpl in H; [|done].
      injection H as <- <-. right; left. split_and!; try done.
      * intros ->. by apply Hc.
      * by exists l.
    + injection H as <- <-. by right; right; right.
    + injection H as <- <-. by right; right; left.
Qed.

Lemma EvalObjCmd_shape (e : addr) (objv : list string) (s s' : State)
    (o : EvalOutcome) :
  EvalObjCmd e objv s = Some (o, s') →
  (s' = s ∧ ∃ msg, o = Ev_Return TCL_ERROR msg)
  ∨ ∃ c id sc a l,
      objv = [c; id; sc] ∧ loops s !! id = Some a
      ∧ loopmem s !! a = Some l ∧ evalPtr l = None
      ∧ o = Ev_TimedWait a
      ∧ s' = Ns_CondBroadcast
               (set_loopmem (<[a := with_evalPtr (Some e) l]>)
                  (set_evalmem
                     (<[e := mkEvalData EVAL_WAIT TCL_OK sc ""]>) s)).
Proof.
  unfold EvalObjCmd. intros H.
  destruct objv as [|c [|id [|sc [|x rest]]]];
    try (injection H as <- <-; left; split; [done|by eexists]).
  unfold GetLoop in H.
  destruct (loops s !! id) as [a|] eqn:Hid.
  2: { injection H as <- <-. left. split; [done|by eexists]. }
  destruct (loopmem s !! a) as [l|] eqn:Hl; simpl in H; [|done].
  destruct (evalPtr l) as [e0|] eqn:He.
  { injection H as <- <-. left. split; [done|by eexists]. }
  unfold EvalObjCmd_wait in H. simpl in H.
  rewrite (lookup_insert_eq (evalmem s)) in H. simpl in H.
  injection H as <- <-. right. by exists c, id, sc, a, l.
Qed.

Lemma Signal_shape (objv : list string) (sg : LoopControl) (s s' : State)
    (r : Z) (m : string) :
  Signal objv sg s = Some (r, m, s') →
  (s' = s ∧ r = TCL_ERROR)
  ∨ ∃ c id a l,
      objv = [c; id] ∧ loops s !! id = Some a ∧ loopmem s !! a = Some l
      ∧ r = TCL_OK ∧ m = ""
      ∧ s' = Ns_CondBroadcast
               (set_loopmem (<[a := with_control sg l]>) s).
Proof.
  unfold Signal. intros H.
  destruct objv as [|c [|id [|x rest]]];
    try (injection H as <- <- <-; by left).
  unfold GetLoop in H.
  destruct (loops s !! id) as [a|] eqn:Hid.
  2: { injection H as <- <- <-. by left. }
  destruct (loopmem s !! a) as [l|] eqn:Hl; simpl in H; [|done].
  injection H as <- <- <-. right. by exists c, id, a, l.
Qed.

Lemma is_Some_insert_live {A : Type} (m : gmap addr A) (a : addr) (x y : A) :
  m !! a = Some x → ∀ b, is_Some (<[a := y]> m !! b) ↔ is_Some (m !! b).
Proof.
  intros Ha b. destruct (decide (b = a)) as [->|Hne].
  - rewrite lookup_insert_eq, Ha. split; by eexists.
  - by rewrite lookup_insert_ne.
Qed.

Lemma same_links_refl (l : LoopData) : same_links l l.
Proof. by repeat split. Qed.

(** Writes outside the loop structures and the requests. *)
Lemma Inv_frame (sys sys' : System) :
  Inv sys →
  loops (shared sys') = loops (shared sys) →
  next (shared sys') = next (shared sys) →
  loopmem (shared sys') = loopmem (shared sys) →
  evalmem (shared sys') = evalmem (shared sys) →
  epc sys' = epc sys →
  (∀ b, is_Some (lpc sys' !! b) ↔ is_Some (lpc sys !! b)) →
  Inv sys'.
Proof.
  intros HI Elo Enx Elm Eev Eep Hlp.
  apply (Inv_same_links sys sys' HI Elo Enx Eev Eep Hlp).
  - intros a l Hl. exists l. rewrite Elm. split; [done|apply same_links_refl].
  - intros a. by rewrite Elm.
Qed.

(** Every action keeps the tables consistent. *)
Lemma step_Inv (act : Action) (sys sys' : System) (obs : Obs) :
  Inv sys → step act sys = Some (obs, sys') → Inv sys'.
Proof.
  intros HI H. destruct act as
    [th|th|a th now objv|a|a res txt|a|a|a|e objv|e status|objv sg|objv| |];
    simpl in H.
  - injection H as <- <-.
    destruct (InitInterp_keeps th (shared sys)) as (? & ? & ? & ? & ? & ?).
    by apply (Inv_frame sys).
  - injection H as <- <-. by apply (Inv_frame sys).
  - destruct (lpc sys !! a) eqn:Hpc; [done|].
    destruct (loopmem (shared sys) !! a) eqn:Hlm; [done|].
    destruct (EnterLoop a th now objv (shared sys)) as [s1|] eqn:HE;
      simpl in H; [|done].
    injection H as <- <-.
    destruct (EnterLoop_inv _ _ _ _ _ _ (inv_next sys HI) HE)
      as (k & Hk & Hocc & Hfree & ->).
    eapply (Inv_enter sys _ a (probe_key (next (shared sys)) k));
      try done; simpl; try done.
    apply Z.mod_pos_bound, UINT_MOD_pos.
  - destruct (lpc sys !! a) as [[| | |]|] eqn:Hpc; try done.
    unfold after_check in H.
    destruct (CheckControl a (shared sys)) as [[o s1]|] eqn:HC;
      simpl in H; [|done].
    injection H as <- <-.
    destruct (CheckControl_shape _ _ _ _ HC) as (l & Hl & -> & _).
    eapply (Inv_update_loop sys _ a l
              (with_spins ((spins l + 1) mod UINT_MOD) l)); try done.
    simpl. by apply is_Some_insert_live with LP_Body.
  - destruct (lpc sys !! a) as [[|sc| |]|] eqn:Hpc; try done.
    unfold after_check in H.
    destruct (CheckControl_evaluated a res txt (shared sys))
      as [[o s1]|] eqn:HC; simpl in H; [|done].
    injection H as <- <-.
    destruct (CheckControl_evaluated_shape _ _ _ _ _ _ HC)
      as (l & Hl & [[He ->]|(e & ev & He & Hev & ->)] & _).
    + apply (Inv_frame sys); try done; try (by case_decide).
      simpl. by apply is_Some_insert_live with (LP_Eval sc).
    + eapply (Inv_detach sys _ a l e
                (Some (with_state EVAL_DONE
                         (with_result (result ev +:+ txt) ev))));
        try done; try (by case_decide).
      * by intros v [= <-].
      * simpl. by apply is_Some_insert_live with (LP_Eval sc).
  - destruct (lpc sys !! a) as [[| | |]|] eqn:Hpc; try done.
    unfold after_check, CheckControl_wakeup in H.
    destruct (CheckControl_while a (shared sys)) as [[o s1]|] eqn:HC;
      simpl in H; [|done].
    injection H as <- <-.
    pose proof (CheckControl_while_state _ _ _ _ HC) as ->.
    apply (Inv_frame sys); try done.
    simpl. by apply is_Some_insert_live with LP_CondWait.
  - destruct (lpc sys !! a) as [[| | |r]|] eqn:Hpc; try done.
    case_decide; [|done]. injection H as <- <-.
    apply (Inv_frame sys); try done.
    simpl. by apply is_Some_insert_live with (LP_Checked r).
  - destruct (lpc sys !! a) as [pc|] eqn:Hpc; [|done].
    destruct (leaves pc); [|done].
    destruct (LeaveLoop a (shared sys)) as [s1|] eqn:HL; simpl in H; [|done].
    injection H as <- <-.
    destruct (LeaveLoop_shape _ _ _ HL) as (l & s2 & Hl & _ & -> & H0 & H1).
    assert (loops s2 = loops (shared sys) ∧ next s2 = next (shared sys)
            ∧ loopmem s2 = loopmem (shared sys)) as (E1 & E2 & E3).
    { destruct (evalPtr l) as [e|] eqn:He.
      - by destruct (H1 e eq_refl) as (ev & _ & ->).
      - by rewrite H0. }
    eapply (Inv_leave sys _ a l); try done; simpl; rewrite ?E1, ?E2, ?E3;
      try done.
    + apply delete_insert_eq.
    + intros He. by rewrite H0.
    + intros e He. destruct (H1 e He) as (ev & Hev & ->). by exists ev.
  - destruct (epc sys !! e) eqn:Hpc; [done|].
    destruct (evalmem (shared sys) !! e) eqn:Hem; [done|].
    unfold after_eval in H.
    destruct (EvalObjCmd e objv (shared sys)) as [[o s1]|] eqn:HE;
      simpl in H; [|done].
    destruct (EvalObjCmd_shape _ _ _ _ _ HE)
      as [[-> [msg ->]]|(c & id & sc & a & l & _ & _ & Hl & He & -> & ->)];
      injection H as <- <-.
    + apply (Inv_frame sys); try done. simpl. by rewrite delete_id.
    + by eapply (Inv_attach sys _ a l e
                   (mkEvalData EVAL_WAIT TCL_OK sc "")).
  - destruct (epc sys !! e) as [a|] eqn:Hpc; simpl in H; [|done].
    unfold after_eval, EvalObjCmd_wakeup in H.
    destruct (EvalObjCmd_wait e a status (shared sys)) as [[o s1]|] eqn:HW;
      simpl in H; [|done].
    destruct (EvalObjCmd_wait_shape _ _ _ _ _ _ HW) as (ev & Hev & Hcase).
    destruct (inv_epc sys HI e a Hpc) as (ev' & Hev' & Hw).
    assert (ev' = ev) as -> by congruence.
    destruct Hcase as [(-> & Hst & -> & ->)
                      |[(Hns & Hst & -> & l & Hl & ->)
                       |[(Hst & -> & ->)|(Hst & -> & ->)]]].
    + injection H as <- <-. apply (Inv_frame sys); try done.
      simpl. by rewrite insert_id.
    + injection H as <- <-.
      destruct (Hw Hst) as (l' & Hl' & He).
      assert (l' = l) as -> by congruence.
      by eapply (Inv_detach sys _ a l e None).
    + injection H as <- <-.
      eapply (Inv_finish sys _ e ev); try done. congruence.
    + injection H as <- <-.
      eapply (Inv_finish sys _ e ev); try done. congruence.
  - destruct (Signal objv sg (shared sys)) as [[[r m] s1]|] eqn:HS;
      simpl in H; [|done].
    injection H as <- <-.
    destruct (Signal_shape _ _ _ _ _ _ HS)
      as [[-> _]|(c & id & a & l & _ & _ & Hl & _ & _ & ->)].
    + by apply (Inv_frame sys).
    + by eapply (Inv_update_loop sys _ a l (with_control sg l)).
  - destruct (AbortObjCmd objv (shared sys)) as [[r m] s1] eqn:HA.
    injection H as <- <-.
    pose proof (Abort_keeps_loops objv (shared sys)) as (E1 & E2 & E3 & E4).
    rewrite HA in E1, E2, E3, E4. simpl in *.
    by apply (Inv_frame sys).
  - unfold LoopsObjCmd, List in H. by injection H as <- <-.
  - unfold ThreadsObjCmd, List in H. by injection H as <- <-.
Qed.

Lemma run_Inv (acts : list Action) (sys sys' : System) :
  Inv sys → run acts sys = Some sys' → Inv sys'.
Proof.
  revert sys. induction acts as [|act rest IH]; intros sys HI H; simpl in H.
  - by injection H as <-.
  - destruct (step act sys) as [[obs sys1]|] eqn:Hs; simpl in H; [|done].
    apply (IH sys1); [|done]. by eapply step_Inv.
Qed.

Lemma reachable_Inv (sys : System) : reachable sys → Inv sys.
Proof. intros [acts H]. eapply run_Inv; [apply Inv_init|done]. Qed.

(** ** A request that left state [EVAL_WAIT] waits for its controller

    Once a request is done or dropped, no thread but the controller that
    owns it touches it: it is on no loop any more. *)
Lemma settled_request_stable (act : Action) (sys sys' : System) (obs : Obs)
    (e a : addr) (ev : EvalData) :
  Inv sys →
  epc sys !! e = Some a →
  evalmem (shared sys) !! e = Some ev →
  state ev ≠ EVAL_WAIT →
  (∀ status, act ≠ A_EvalWakeup e status) →
  step act sys = Some (obs, sys') →
  epc sys' !! e = Some a ∧ evalmem (shared sys') !! e = Some ev.
Proof.
  intros HI Hpe Hev Hst Hact H.
  assert (Hoff : ∀ b lb, loopmem (shared sys) !! b = Some lb →
            evalPtr lb ≠ Some e).
  { intros b lb Hb He.
    destruct (inv_attached sys HI b lb e Hb He) as [_ (v & Ev & Hw)].
    congruence. }
  destruct act as
    [th|th|b th now objv|b|b res txt|b|b|b|e' objv|e' status|objv sg|objv| |];
    simpl in H.
  - unfold InitInterp in H.
    by destruct (threads (shared sys) !! hex th); injection H as <- <-.
  - by injection H as <- <-.
  - destruct (lpc sys !! b); [done|].
    destruct (loopmem (shared sys) !! b); [done|].
    destruct (EnterLoop b th now objv (shared sys)) as [s1|] eqn:HE;
      simpl in H; [|done].
    injection H as <- <-.
    destruct (EnterLoop_keeps _ _ _ _ _ _ HE) as (E & _). simpl.
    by rewrite E.
  - destruct (lpc sys !! b) as [[| | |]|]; try done.
    unfold after_check in H.
    destruct (CheckControl b (shared sys)) as [[o s1]|] eqn:HC;
      simpl in H; [|done].
    injection H as <- <-.
    by destruct (CheckControl_shape _ _ _ _ HC) as (l & Hl & -> & _).
  - destruct (lpc sys !! b) as [[|sc| |]|]; try done.
    unfold after_check in H.
    destruct (CheckControl_evaluated b res txt (shared sys))
      as [[o s1]|] eqn:HC; simpl in H; [|done].
    injection H as <- <-.
    destruct (CheckControl_evaluated_shape _ _ _ _ _ _ HC)
      as (l & Hl & [[He ->]|(e0 & ev0 & He & Hev0 & ->)] & _).
    + split; [done|]. by case_decide.
    + split; [done|]. simpl.
      assert (e0 ≠ e) by (intros ->; by apply (Hoff b l)).
      rewrite lookup_insert_ne by done. by case_decide.
  - destruct (lpc sys !! b) as [[| | |]|]; try done.
    unfold after_check, CheckControl_wakeup in H.
    destruct (CheckControl_while b (shared sys)) as [[o s1]|] eqn:HC;
      simpl in H; [|done].
    injection H as <- <-.
    by pose proof (CheckControl_while_state _ _ _ _ HC) as ->.
  - destruct (lpc sys !! b) as [[| | |r]|]; try done.
    case_decide; [|done]. by injection H as <- <-.
  - destruct (lpc sys !! b) as [pc|]; [|done].
    destruct (leaves pc); [|done].
    destruct (LeaveLoop b (shared sys)) as [s1|] eqn:HL; simpl in H; [|done].
    injection H as <- <-.
    destruct (LeaveLoop_shape _ _ _ HL) as (l & s2 & Hl & _ & -> & H0 & H1).
    split; [done|]. simpl.
    destruct (evalPtr l) as [e0|] eqn:He.
    + destruct (H1 e0 eq_refl) as (ev0 & _ & ->). simpl.
      assert (e0 ≠ e) by (intros ->; by apply (Hoff b l)).
      by rewrite lookup_insert_ne.
    + by rewrite H0.
  - destruct (epc sys !! e') eqn:Hpc; [done|].
    destruct (evalmem (shared sys) !! e') eqn:Hem; [done|].
    assert (e' ≠ e) as Hne by (intros ->; congruence).
    unfold after_eval in H.
    destruct (EvalObjCmd e' objv (shared sys)) as [[o s1]|] eqn:HE;
      simpl in H; [|done].
    destruct (EvalObjCmd_shape _ _ _ _ _ HE)
      as [[-> [msg ->]]|(c & id & sc & b & l & _ & _ & Hl & He & -> & ->)];
      injection H as <- <-; simpl.
    + by rewrite lookup_delete_ne.
    + by rewrite !lookup_insert_ne.
  - assert (e' ≠ e) as Hne by (intros ->; by apply (Hact status)).
    destruct (epc sys !! e') as [b|] eqn:Hpc; simpl in H; [|done].
    unfold after_eval, EvalObjCmd_wakeup in H.
    destruct (EvalObjCmd_wait e' b status (shared sys)) as [[o s1]|] eqn:HW;
      simpl in H; [|done].
    destruct (EvalObjCmd_wait_shape _ _ _ _ _ _ HW) as (ev0 & Hev0 & Hcase).
    destruct Hcase as [(-> & _ & -> & ->)
                      |[(_ & _ & -> & l & Hl & ->)
                       |[(_ & -> & ->)|(_ & -> & ->)]]];
      injection H as <- <-; simpl;
      rewrite ?lookup_insert_ne, ?lookup_delete_ne by done; done.
  - destruct (Signal objv sg (shared sys)) as [[[r m] s1]|] eqn:HS;
      simpl in H; [|done].
    injection H as <- <-.
    by destruct (Signal_shape _ _ _ _ _ _ HS)
      as [[-> _]|(c & id & b & l & _ & _ & Hl & _ & _ & ->)].
  - destruct (AbortObjCmd objv (shared sys)) as [[r m] s1] eqn:HA.
    injection H as <- <-.
    pose proof (Abort_keeps_loops objv (shared sys)) as (_ & _ & E3 & _).
    rewrite HA in E3. simpl in *. by rewrite E3.
  - unfold LoopsObjCmd, List in H. by injection H as <- <-.
  - unfold ThreadsObjCmd, List in H. by injection H as <- <-.
Qed.

(** The actions of a run that are not taken by the controller of [e]. *)
Definition others (e : addr) (acts : list Action) : Prop :=
  Forall (λ act, ∀ status, act ≠ A_EvalWakeup e status) acts.

Lemma settled_request_stable_run (acts : list Action) (sys sys' : System)
    (e a : addr) (ev : EvalData) :
  Inv sys →
  epc sys !! e = Some a →
  evalmem (shared sys) !! e = Some ev →
  state ev ≠ EVAL_WAIT →
  others e acts →
  run acts sys = Some sys' →
  Inv sys' ∧ epc sys' !! e = Some a ∧ evalmem (shared sys') !! e = Some ev.
Proof.
  revert sys. induction acts as [|act rest IH];
    intros sys HI Hpe Hev Hst Ho H; simpl in H.
  - by injection H as <-.
  - destruct (step act sys) as [[obs sys1]|] eqn:Hs; simpl in H; [|done].
    apply Forall_cons in Ho as [Ha Hr].
    destruct (settled_request_stable _ _ _ _ _ _ _ HI Hpe Hev Hst Ha Hs)
      as [E1 E2].
    apply (IH sys1); try done. by eapply step_Inv.
Qed.

(** What the controller gets when it finds its request settled. *)
Lemma EvalWakeup_settled (sys : System) (e a : addr) (ev : EvalData)
    (status : Ns_ReturnCode) :
  epc sys !! e = Some a →
  evalmem (shared sys) !! e = Some ev →
  state ev ≠ EVAL_WAIT →
  step (A_EvalWakeup e status) sys
    = Some (match state ev with
            | EVAL_DROP => O_Cmd TCL_ERROR "dropped: loop exited"
            | _ => O_Cmd (code ev) (result ev)
            end,
            mkSys (set_evalmem (delete e) (shared sys)) (lpc sys)
                  (delete e (epc sys))).
Proof.
  intros Hpe Hev Hst. simpl. rewrite Hpe. simpl.
  unfold EvalObjCmd_wakeup, EvalObjCmd_wait. rewrite Hev. simpl.
  rewrite decide_False by (intros [_ ?]; done).
  by destruct (state ev).
Qed.

Lemma as_set_up_step (act : Action) (sys sys' : System) (obs : Obs) :
  Inv sys → as_set_up (shared sys) →
  step act sys = Some (obs, sys') → as_set_up (shared sys').
Proof.
  intros HI HS H.
  destruct act as
    [th|th|b th now objv|b|b res txt|b|b|b|e' objv|e' status|objv sg|objv| |];
    simpl in H.
  - unfold InitInterp in H.
    by destruct (threads (shared sys) !! hex th); injection H as <- <-.
  - by injection H as <- <-.
  - destruct (lpc sys !! b); [done|].
    destruct (loopmem (shared sys) !! b); [done|].
    destruct (EnterLoop b th now objv (shared sys)) as [s1|] eqn:HE;
      simpl in H; [|done].
    injection H as <- <-.
    destruct (EnterLoop_keeps _ _ _ _ _ _ HE) as (E & _). simpl.
    unfold as_set_up. by rewrite E.
  - destruct (lpc sys !! b) as [[| | |]|]; try done.
    unfold after_check in H.
    destruct (CheckControl b (shared sys)) as [[o s1]|] eqn:HC;
      simpl in H; [|done].
    injection H as <- <-.
    by destruct (CheckControl_shape _ _ _ _ HC) as (l & Hl & -> & _).
  - destruct (lpc sys !! b) as [[|sc| |]|]; try done.
    unfold after_check in H.
    destruct (CheckControl_evaluated b res txt (shared sys))
      as [[o s1]|] eqn:HC; simpl in H; [|done].
    injection H as <- <-.
    destruct (CheckControl_evaluated_shape _ _ _ _ _ _ HC)
      as (l & Hl & [[He ->]|(e0 & ev0 & He & Hev0 & ->)] & _).
    + simpl. by case_decide.
    + intros e ev. simpl.
      replace (evalmem (if decide (res ≠ TCL_OK)
                        then Ns_Log (LogErrorInfo txt) (shared sys)
                        else shared sys))
        with (evalmem (shared sys)) by (by case_decide).
      destruct (decide (e = e0)) as [->|Hne].
      * rewrite lookup_insert_eq. intros [= <-]. simpl.
        split; [by apply (HS e0 ev0)|done].
      * rewrite lookup_insert_ne by done. apply HS.
  - destruct (lpc sys !! b) as [[| | |]|]; try done.
    unfold after_check, CheckControl_wakeup in H.
    destruct (CheckControl_while b (shared sys)) as [[o s1]|] eqn:HC;
      simpl in H; [|done].
    injection H as <- <-.
    by pose proof (CheckControl_while_state _ _ _ _ HC) as ->.
  - destruct (lpc sys !! b) as [[| | |r]|]; try done.
    case_decide; [|done]. by injection H as <- <-.
  - destruct (lpc sys !! b) as [pc|]; [|done].
    destruct (leaves pc); [|done].
    destruct (LeaveLoop b (shared sys)) as [s1|] eqn:HL; simpl in H; [|done].
    injection H as <- <-.
    destruct (LeaveLoop_shape _ _ _ HL) as (l & s2 & Hl & _ & -> & H0 & H1).
    simpl. destruct (evalPtr l) as [e0|] eqn:He.
    + destruct (H1 e0 eq_refl) as (ev0 & Hev0 & ->).
      intros e ev. simpl. destruct (decide (e = e0)) as [->|Hne].
      * rewrite lookup_insert_eq. intros [= <-]. simpl.
        destruct (HS e0 ev0 Hev0) as [Hc Hr]. split; [done|]. intros _.
        apply Hr.
        destruct (inv_attached sys HI b l e0 Hl He) as [_ (v & Ev & Hw)].
        congruence.
      * rewrite lookup_insert_ne by done. apply HS.
    + by rewrite H0.
  - destruct (epc sys !! e') eqn:Hpc; [done|].
    destruct (evalmem (shared sys) !! e') eqn:Hem; [done|].
    unfold after_eval in H.
    destruct (EvalObjCmd e' objv (shared sys)) as [[o s1]|] eqn:HE;
      simpl in H; [|done].
    destruct (EvalObjCmd_shape _ _ _ _ _ HE)
      as [[-> [msg ->]]|(c & id & sc & b & l & _ & _ & Hl & He & -> & ->)];
      injection H as <- <-; [done|].
    intros e ev. simpl.
    destruct (decide (e = e')) as [->|Hne].
    + rewrite lookup_insert_eq. by intros [= <-].
    + rewrite lookup_insert_ne by done. apply HS.
  - destruct (epc sys !! e') as [b|] eqn:Hpc; simpl in H; [|done].
    unfold after_eval, EvalObjCmd_wakeup in H.
    destruct (EvalObjCmd_wait e' b status (shared sys)) as [[o s1]|] eqn:HW;
      simpl in H; [|done].
    destruct (EvalObjCmd_wait_shape _ _ _ _ _ _ HW) as (ev0 & Hev0 & Hcase).
    destruct Hcase as [(-> & _ & -> & ->)
                      |[(_ & _ & -> & l & Hl & ->)
                       |[(_ & -> & ->)|(_ & -> & ->)]]];
      injection H as <- <-; simpl; try done;
      intros e ev Hlk; simpl in Hlk;
      apply lookup_delete_Some in Hlk as [_ Hlk]; by apply (HS e ev).
  - destruct (Signal objv sg (shared sys)) as [[[r m] s1]|] eqn:HS';
      simpl in H; [|done].
    injection H as <- <-.
    by destruct (Signal_shape _ _ _ _ _ _ HS')
      as [[-> _]|(c & id & b & l & _ & _ & Hl & _ & _ & ->)].
  - destruct (AbortObjCmd objv (shared sys)) as [[r m] s1] eqn:HA.
    injection H as <- <-.
    pose proof (Abort_keeps_loops objv (shared sys)) as (_ & _ & E3 & _).
    rewrite HA in E3. simpl in *. unfold as_set_up. by rewrite E3.
  - unfold LoopsObjCmd, List in H. by injection H as <- <-.
  - unfold ThreadsObjCmd, List in H. by injection H as <- <-.
Qed.

Lemma reachable_as_set_up (sys : System) :
  reachable sys → as_set_up (shared sys).
Proof.
  intros [acts H].
  assert (∀ sys0, Inv sys0 → as_set_up (shared sys0) →
            run acts sys0 = Some sys → as_set_up (shared sys)) as Hgen.
  { clear H. induction acts as [|act rest IH]; intros sys0 HI HS H;
      simpl in H.
    - by injection H as <-.
    - destruct (step act sys0) as [[obs sys1]|] eqn:Hs; simpl in H; [|done].
      apply (IH sys1); [by eapply step_Inv|by eapply as_set_up_step|done]. }
  apply (Hgen init_sys); [apply Inv_init| |done].
  intros e ev. simpl. by rewrite lookup_empty.
Qed.

Lemma after_reachable (acts : list Action) :
  is_Some (run acts init_sys) → reachable (after acts).
Proof.
  intros [sys H]. exists acts. unfold after. by rewrite H.
Qed.

(** ** The claims *)

Lemma lid_is_key (sys : System) (a : addr) (l : LoopData) :
  Inv sys → loopmem (shared sys) !! a = Some l →
  lid l = hPtr l ∧ loops (shared sys) !! lid l = Some a.
Proof.
  intros HI Hl. pose proof (inv_mem sys HI a l Hl) as Hk.
  destruct (inv_table sys HI _ _ Hk) as (l' & Hl' & Hh & Hi).
  assert (l' = l) as -> by congruence. split; congruence.
Qed.

(** C1.  A loop that leaves ([LeaveLoop], on any way out of the loop
    command) while a request hangs on it: the request is in state
    [EVAL_WAIT] and its controller is blocked in [EvalObjCmd]; under the
    mutex [LeaveLoop] first marks the request [EVAL_DROP] and broadcasts on
    the condition variable, with the loop's entry still in the table, and
    only then deletes the entry; whatever the other threads do next, the
    controller, when it resumes (woken or timed out), finds the request
    dropped and fails with "dropped: loop exited", not with a timeout. *)
Theorem LeaveLoop_drops_pending (sys : System) (a : addr) (l : LoopData)
    (e : addr) (pc : LoopPc) :
  reachable sys →
  lpc sys !! a = Some pc → leaves pc = true →
  loopmem (shared sys) !! a = Some l →
  evalPtr l = Some e →
  ∃ ev s1 sys',
    evalmem (shared sys) !! e = Some ev ∧ state ev = EVAL_WAIT
    ∧ epc sys !! e = Some a
    ∧ drop_pending l (shared sys) = Some s1
    ∧ evalmem s1 !! e = Some (with_state EVAL_DROP ev)
    ∧ broadcasts s1 = S (broadcasts (shared sys))
    ∧ loops s1 !! lid l = Some a
    ∧ step (A_LeaveLoop a) sys = Some (O_None, sys')
    ∧ loops (shared sys') = delete (lid l) (loops s1)
    ∧ evalmem (shared sys') = evalmem s1
    ∧ broadcasts (shared sys') = broadcasts s1
    ∧ ∀ acts sys2 status,
        others e acts → run acts sys' = Some sys2 →
        ∃ sys3, step (A_EvalWakeup e status) sys2
                = Some (O_Cmd TCL_ERROR "dropped: loop exited", sys3).
Proof.
  intros Hr Hpc Hlv Hl He. pose proof (reachable_Inv sys Hr) as HI.
  destruct (inv_attached sys HI a l e Hl He) as [Hep (ev & Hev & Hst)].
  destruct (lid_is_key sys a l HI Hl) as [Hlid Hkey].
  set (s1 := Ns_CondBroadcast
               (set_evalmem (<[e := with_state EVAL_DROP ev]>) (shared sys))).
  assert (drop_pending l (shared sys) = Some s1) as Hdrop.
  { unfold drop_pending. rewrite He, Hev. done. }
  assert (step (A_LeaveLoop a) sys
          = Some (O_None,
                  mkSys (set_loopmem (delete a)
                           (set_loopmem (<[a := with_args [] l]>)
                              (Tcl_DeleteHashEntry (hPtr l) s1)))
                        (delete a (lpc sys)) (epc sys))) as Hstep.
  { simpl. rewrite Hpc, Hlv. unfold LeaveLoop. rewrite Hl. simpl.
    rewrite Hdrop. done. }
  exists ev, s1. eexists. split_and!; try done.
  - simpl. apply lookup_insert_eq.
  - simpl. by rewrite Hlid.
  - intros acts sys2 status Ho Hrun.
    pose proof (step_Inv _ _ _ _ HI Hstep) as HI'.
    destruct (settled_request_stable_run acts _ sys2 e a
                (with_state EVAL_DROP ev) HI') as (HI2 & Hep2 & Hev2);
      try done.
    { simpl. apply lookup_insert_eq. }
    eexists. by rewrite (EvalWakeup_settled sys2 e a _ status Hep2 Hev2).
Qed.

Lemma LeaveLoop_drops_pending_witness :
  ∃ sys',
    step (A_LeaveLoop 1%nat) (after acts_pending) = Some (O_None, sys')
    ∧ loops (shared sys') !! "0" = None
    ∧ ∀ status, ∃ sys3,
        step (A_EvalWakeup 9%nat status) sys'
        = Some (O_Cmd TCL_ERROR "dropped: loop exited", sys3).
Proof.
  destruct (LeaveLoop_drops_pending (after acts_pending) 1%nat
              (mkLoopData LOOP_RUN "0" 7 0 t0 "0" objv_while (Some 9%nat))
              9%nat LP_Body)
    as (ev & s1 & sys' & _ & _ & _ & _ & _ & _ & _ & Hstep & Hlo & _ & _ & Hw).
  - apply after_reachable. vm_compute. by eexists.
  - vm_compute. reflexivity.
  - reflexivity.
  - vm_compute. reflexivity.
  - reflexivity.
  - exists sys'. split_and!.
    + exact Hstep.
    + rewrite Hlo. apply lookup_delete_eq.
    + intros status. apply (Hw [] sys' status); [constructor|reflexivity].
Defined.

(** C9.  [AbortObjCmd] for a thread id: when no thread is registered under
    it, the command fails with "no such active thread: id" and changes
    nothing; otherwise it marks that thread's async handler, leaves the
    other threads' entries alone and succeeds.  In both cases the loop
    table and the loop structures are as before, and what the command
    returns and writes depends on the threads table alone. *)
Theorem Abort_spec (c id : string) (s : State) :
  (threads s !! id = None →
     AbortObjCmd [c; id] s
     = (TCL_ERROR, "no such active thread: " +:+ id, s))
  ∧ (∀ t, threads s !! id = Some t →
       ∃ s', AbortObjCmd [c; id] s = (TCL_OK, "", s')
         ∧ threads s' !! id = Some (mkThreadData (mkAsync true))
         ∧ ∀ id', id' ≠ id → threads s' !! id' = threads s !! id')
  ∧ loops (AbortObjCmd [c; id] s).2 = loops s
  ∧ loopmem (AbortObjCmd [c; id] s).2 = loopmem s
  ∧ evalmem (AbortObjCmd [c; id] s).2 = evalmem s
  ∧ ∀ s2, threads s2 = threads s →
      (AbortObjCmd [c; id] s2).1 = (AbortObjCmd [c; id] s).1
      ∧ threads (AbortObjCmd [c; id] s2).2
        = threads (AbortObjCmd [c; id] s).2.
Proof.
  split_and!.
  - intros H. unfold AbortObjCmd. by rewrite H.
  - intros t H. unfold AbortObjCmd. rewrite H. eexists. split; [done|].
    simpl. split; [apply lookup_insert_eq|].
    intros id' Hne. by rewrite lookup_insert_ne.
  - apply Abort_keeps_loops.
  - apply Abort_keeps_loops.
  - apply Abort_keeps_loops.
  - intros s2 H. by apply Abort_reads_threads_only.
Qed.

Lemma Abort_spec_witness :
  AbortObjCmd ["loopctl_abort"; "8"] (shared (after acts_one_loop))
  = (TCL_ERROR, "no such active thread: 8", shared (after acts_one_loop))
  ∧ ∃ s', AbortObjCmd ["loopctl_abort"; "7"] (shared (after acts_one_loop))
          = (TCL_OK, "", s')
      ∧ threads s' !! "7" = Some (mkThreadData (mkAsync true))
      ∧ loops s' = loops (shared (after acts_one_loop)).
Proof.
  split.
  - apply (proj1 (Abort_spec "loopctl_abort" "8"
                    (shared (after acts_one_loop)))).
    vm_compute. reflexivity.
  - destruct (Abort_spec "loopctl_abort" "7" (shared (after acts_one_loop)))
      as (_ & Hok & Hlo & _).
    destruct (Hok (mkThreadData (mkAsync false))) as (s' & E & Hr & _).
    + vm_compute. reflexivity.
    + exists s'. rewrite E in Hlo. by split_and!.
Defined.

Lemma sys_eta (sys : System) : mkSys (shared sys) (lpc sys) (epc sys) = sys.
Proof. by destruct sys. Qed.

(** C4.  [EvalObjCmd] for a loop id, called by a controller whose
    [EvalData] is at a new address [e]: when no loop has the id, the call
    fails with "no such loop id: id"; when the loop already has a request
    attached, it fails with "eval pending".  In both cases nothing is
    written: no request is set up, the attached one is as it was, and
    every later run of the server goes on exactly as if the call had not
    been made. *)
Theorem EvalObjCmd_rejects (sys : System) (e : addr) (c id sc : string) :
  reachable sys →
  epc sys !! e = None →
  (loops (shared sys) !! id = None →
     step (A_Eval e [c; id; sc]) sys
     = Some (O_Cmd TCL_ERROR ("no such loop id: " +:+ id), sys)
     ∧ ∀ rest, run (A_Eval e [c; id; sc] :: rest) sys = run rest sys)
  ∧ (∀ a l e0,
       loops (shared sys) !! id = Some a →
       loopmem (shared sys) !! a = Some l →
       evalPtr l = Some e0 →
       step (A_Eval e [c; id; sc]) sys
       = Some (O_Cmd TCL_ERROR "eval pending", sys)
       ∧ e0 ≠ e
       ∧ ∀ rest, run (A_Eval e [c; id; sc] :: rest) sys = run rest sys).
Proof.
  intros Hr Hpe. pose proof (reachable_Inv sys Hr) as HI.
  assert (evalmem (shared sys) !! e = None) as Hem.
  { destruct (evalmem (shared sys) !! e) eqn:E; [|done].
    destruct (inv_evalmem sys HI e) as [x Hx]; [by rewrite E|congruence]. }
  split.
  - intros Hid.
    assert (step (A_Eval e [c; id; sc]) sys
            = Some (O_Cmd TCL_ERROR ("no such loop id: " +:+ id), sys)) as Hs.
    { simpl. rewrite Hpe, Hem. unfold after_eval, EvalObjCmd, GetLoop.
      rewrite Hid. simpl. rewrite delete_id by done. by rewrite sys_eta. }
    split; [done|]. intros rest. cbn [run]. by rewrite Hs.
  - intros a l e0 Hid Hl He.
    assert (step (A_Eval e [c; id; sc]) sys
            = Some (O_Cmd TCL_ERROR "eval pending", sys)) as Hs.
    { simpl. rewrite Hpe, Hem. unfold after_eval, EvalObjCmd, GetLoop.
      rewrite Hid. simpl. rewrite Hl. simpl. rewrite He. simpl.
      rewrite delete_id by done. by rewrite sys_eta. }
    split_and!; [done| |].
    + intros ->. destruct (inv_attached sys HI a l e Hl He) as [E _].
      congruence.
    + intros rest. cbn [run]. by rewrite Hs.
Qed.

Lemma EvalObjCmd_rejects_witness :
  step (A_Eval 10%nat ["loopctl_eval"; "5"; "set y 2"]) (after acts_pending)
  = Some (O_Cmd TCL_ERROR "no such loop id: 5", after acts_pending)
  ∧ step (A_Eval 10%nat ["loopctl_eval"; "0"; "set y 2"])
      (after acts_pending)
    = Some (O_Cmd TCL_ERROR "eval pending", after acts_pending).
Proof.
  destruct (EvalObjCmd_rejects (after acts_pending) 10%nat "loopctl_eval"
              "5" "set y 2") as [H1 _].
  { apply after_reachable. vm_compute. by eexists. }
  { vm_compute. reflexivity. }
  destruct (EvalObjCmd_rejects (after acts_pending) 10%nat "loopctl_eval"
              "0" "set y 2") as [_ H2].
  { apply after_reachable. vm_compute. by eexists. }
  { vm_compute. reflexivity. }
  split.
  - apply H1. vm_compute. reflexivity.
  - apply (H2 1%nat
             (mkLoopData LOOP_RUN "0" 7 0 t0 "0" objv_while (Some 9%nat))
             9%nat); vm_compute; reflexivity.
Defined.

(** C5.  A controller whose timed wait ends without [NS_OK] (the timeout
    expired) while its request is still in state [EVAL_WAIT]: the request
    is the one attached to the loop it was sent to; [EvalObjCmd] takes it
    off that loop ([loopPtr->evalPtr = NULL]) and fails with "timeout:
    result dropped"; the other loops are untouched, and a checkpoint of
    the loop that looks at it afterwards finds no script to run. *)
Theorem EvalObjCmd_timeout (sys : System) (e a : addr) (ev : EvalData)
    (status : Ns_ReturnCode) :
  reachable sys →
  epc sys !! e = Some a →
  evalmem (shared sys) !! e = Some ev →
  state ev = EVAL_WAIT →
  status ≠ NS_OK →
  ∃ l sys',
    loopmem (shared sys) !! a = Some l ∧ evalPtr l = Some e
    ∧ step (A_EvalWakeup e status) sys
      = Some (O_Cmd TCL_ERROR "timeout: result dropped", sys')
    ∧ loopmem (shared sys') !! a = Some (with_evalPtr None l)
    ∧ evalmem (shared sys') !! e = None
    ∧ epc sys' !! e = None
    ∧ (∀ b, b ≠ a → loopmem (shared sys') !! b = loopmem (shared sys) !! b)
    ∧ ∀ sc s2, CheckControl_while a (shared sys') ≠ Some (CC_Eval sc, s2).
Proof.
  intros Hr Hpe Hev Hst Hns. pose proof (reachable_Inv sys Hr) as HI.
  destruct (inv_epc sys HI e a Hpe) as (ev' & Hev' & Hw).
  assert (ev' = ev) as -> by congruence.
  destruct (Hw Hst) as (l & Hl & He).
  exists l,
    (mkSys (set_evalmem (delete e)
              (set_loopmem (<[a := with_evalPtr None l]>) (shared sys)))
           (lpc sys) (delete e (epc sys))).
  split_and!; try done.
  - simpl. rewrite Hpe. simpl.
    unfold after_eval, EvalObjCmd_wakeup, EvalObjCmd_wait.
    rewrite Hev. simpl. rewrite decide_False by (by intros [? _]).
    rewrite Hst, Hl. done.
  - simpl. apply lookup_insert_eq.
  - simpl. apply lookup_delete_eq.
  - simpl. apply lookup_delete_eq.
  - intros b Hb. simpl. by rewrite lookup_insert_ne.
  - intros sc s2. unfold CheckControl_while. simpl.
    rewrite lookup_insert_eq. simpl. by repeat case_decide.
Qed.

Lemma EvalObjCmd_timeout_witness :
  ∃ l sys',
    loopmem (shared (after acts_pending)) !! 1%nat = Some l
    ∧ evalPtr l = Some 9%nat
    ∧ step (A_EvalWakeup 9%nat NS_TIMEOUT) (after acts_pending)
      = Some (O_Cmd TCL_ERROR "timeout: result dropped", sys')
    ∧ loopmem (shared sys') !! 1%nat = Some (with_evalPtr None l).
Proof.
  destruct (EvalObjCmd_timeout (after acts_pending) 9%nat 1%nat
              (mkEvalData EVAL_WAIT TCL_OK "set x 1" "") NS_TIMEOUT)
    as (l & sys' & Hl & He & Hs & Hl' & _).
  - apply after_reachable. vm_compute. by eexists.
  - vm_compute. reflexivity.
  - vm_compute. reflexivity.
  - reflexivity.
  - discriminate.
  - exists l, sys'. split_and!; [exact Hl|exact He|exact Hs|exact Hl'].
Defined.

(** A piece of [CheckControl] that ends the call. *)
Lemma checkpoint_returns (sys sys' : System) (a : addr) (act : Action)
    (obs : Obs) (r : Z) :
  checkpoint_action a act →
  step act sys = Some (obs, sys') →
  lpc sys' !! a = Some (LP_Checked r) →
  ∃ m, obs = O_Check r m
    ∧ CheckControl_while a (shared sys') = Some (CC_Return r m, shared sys').
Proof.
  intros [->|[(res & txt & ->)| ->]] H Hpc; simpl in H.
  - destruct (lpc sys !! a) as [[| | |]|]; try done.
    unfold after_check in H.
    destruct (CheckControl a (shared sys)) as [[o s1]|] eqn:HC;
      simpl in H; [|done].
    injection H as <- <-. simpl in *. rewrite lookup_insert_eq in Hpc.
    destruct o as [r' m| |]; simpl in Hpc; simplify_eq.
    exists m. split; [done|].
    by destruct (CheckControl_shape _ _ _ _ HC) as (l & _ & _ & Hw).
  - destruct (lpc sys !! a) as [[|sc| |]|]; try done.
    unfold after_check in H.
    destruct (CheckControl_evaluated a res txt (shared sys))
      as [[o s1]|] eqn:HC; simpl in H; [|done].
    injection H as <- <-. simpl in *. rewrite lookup_insert_eq in Hpc.
    destruct o as [r' m| |]; simpl in Hpc; simplify_eq.
    exists m. split; [done|].
    destruct (CheckControl_evaluated_shape _ _ _ _ _ _ HC)
      as (l & _ & _ & Hp & Hw).
    destruct (decide (control l = LOOP_PAUSE)) as [E|E]; [|by apply Hw].
    by specialize (Hp E).
  - destruct (lpc sys !! a) as [[| | |]|]; try done.
    unfold after_check, CheckControl_wakeup in H.
    destruct (CheckControl_while a (shared sys)) as [[o s1]|] eqn:HC;
      simpl in H; [|done].
    injection H as <- <-. simpl in *. rewrite lookup_insert_eq in Hpc.
    destruct o as [r' m| |]; simpl in Hpc; simplify_eq.
    exists m. split; [done|].
    by pose proof (CheckControl_while_state _ _ _ _ HC) as ->.
Qed.

Lemma checkpoint_piece_returns (sys : System) (a : addr) (l : LoopData)
    (act : Action) :
  Inv sys →
  loopmem (shared sys) !! a = Some l →
  control l ≠ LOOP_PAUSE →
  ends_wait sys a l act →
  ∃ sys' l',
    step act sys
    = Some (O_Check (verdict (control l)).1 (verdict (control l)).2, sys')
    ∧ lpc sys' !! a = Some (LP_Checked (verdict (control l)).1)
    ∧ loopmem (shared sys') !! a = Some l'
    ∧ evalPtr l' = None ∧ control l' = control l.
Proof.
  intros HI Hl Hc Hends.
  assert (Hw : ∀ s l1, loopmem s !! a = Some l1 → evalPtr l1 = None →
            control l1 = control l →
            CheckControl_while a s
            = Some (CC_Return (verdict (control l)).1
                              (verdict (control l)).2, s)).
  { intros s l1 Hl1 He1 Hc1. unfold CheckControl_while. rewrite Hl1. simpl.
    rewrite He1, Hc1. rewrite decide_False by done.
    unfold verdict. by case_decide. }
  destruct Hends as [(-> & Hpc & He)|[(-> & Hpc & He)
                    |(sc & res & txt & -> & Hpc)]].
  - eexists _, (with_spins ((spins l + 1) mod UINT_MOD) l).
    unfold step. rewrite Hpc. unfold CheckControl. rewrite Hl. simpl.
    rewrite (Hw _ (with_spins ((spins l + 1) mod UINT_MOD) l));
      [|simpl; apply lookup_insert_eq|done|done].
    simpl. split_and!; try done.
    + apply lookup_insert_eq.
    + apply lookup_insert_eq.
  - eexists _, l.
    unfold step. rewrite Hpc. unfold CheckControl_wakeup.
    rewrite (Hw _ l Hl He eq_refl). simpl. split_and!; try done.
    apply lookup_insert_eq.
  - set (s0 := if decide (res ≠ TCL_OK)
               then Ns_Log (LogErrorInfo txt) (shared sys) else shared sys).
    assert (Hl0 : loopmem s0 !! a = Some l) by (unfold s0; by case_decide).
    assert (He0 : evalmem s0 = evalmem (shared sys))
      by (unfold s0; by case_decide).
    destruct (evalPtr l) as [e|] eqn:He.
    + destruct (inv_attached _ HI a l e Hl He) as (_ & ev & Hev & _).
      eexists _, (with_evalPtr None l).
      unfold step. rewrite Hpc. unfold CheckControl_evaluated. fold s0.
      rewrite Hl0. simpl. rewrite He. simpl. rewrite He0, Hev. simpl.
      rewrite decide_False by done.
      rewrite (Hw _ (with_evalPtr None l));
        [|simpl; apply lookup_insert_eq|done|done].
      simpl.
      split_and!;
        [reflexivity|apply lookup_insert_eq|apply lookup_insert_eq
        |done|done].
    + eexists _, l.
      unfold step. rewrite Hpc. unfold CheckControl_evaluated. fold s0.
      rewrite Hl0. simpl. rewrite He. simpl.
      rewrite decide_False by done.
      rewrite (Hw _ l); [|simpl; exact Hl0|done|done].
      simpl.
      split_and!; [reflexivity|apply lookup_insert_eq|exact Hl0|done|done].
Qed.

(** C6.  The cancel contract of the checkpoint.  Whenever [CheckControl]
    returns (its wait loop is over: no request attached, not paused), the
    value is decided by the control flag at that moment: with
    [LOOP_CANCEL] it is [TCL_ERROR] with the message "nsloopctl: loop
    canceled: returning TCL_ERROR", and the loop command does not run its
    body but leaves; otherwise the flag is [LOOP_RUN], the value is
    [TCL_OK] and the body runs.  In particular a loop blocked at the
    checkpoint because it was paused, and then canceled, returns
    [TCL_ERROR] as soon as it resumes.  And [CheckControl] does return:
    each piece of it that ends the wait loop (the entry and a wake-up
    with no request attached, the return of a script) produces
    [TCL_ERROR] with the message when the flag is [LOOP_CANCEL], and
    [TCL_OK] when it is [LOOP_RUN]; a loop canceled while in its body
    gets [TCL_ERROR] from its next [CheckControl], at once when no
    request is attached, and as soon as the script has returned when one
    is. *)
Theorem CheckControl_cancel_contract (sys : System) (a : addr) :
  reachable sys →
  (∀ act obs sys' r,
     checkpoint_action a act →
     step act sys = Some (obs, sys') →
     lpc sys' !! a = Some (LP_Checked r) →
     ∃ l', loopmem (shared sys') !! a = Some l' ∧ evalPtr l' = None
       ∧ ((control l' = LOOP_CANCEL ∧ r = TCL_ERROR
           ∧ obs = O_Check TCL_ERROR (Some canceled_msg)
           ∧ step (A_Body a) sys' = None
           ∧ is_Some (step (A_LeaveLoop a) sys'))
          ∨ (control l' = LOOP_RUN ∧ r = TCL_OK
             ∧ obs = O_Check TCL_OK None
             ∧ step (A_Body a) sys'
               = Some (O_None,
                       mkSys (shared sys') (<[a := LP_Body]> (lpc sys'))
                             (epc sys')))))
  ∧ (∀ c id l,
       lpc sys !! a = Some LP_CondWait →
       loops (shared sys) !! id = Some a →
       loopmem (shared sys) !! a = Some l →
       control l = LOOP_PAUSE → evalPtr l = None →
       ∃ sys1 sys2,
         step (A_Signal [c; id] LOOP_CANCEL) sys
         = Some (O_Cmd TCL_OK "", sys1)
         ∧ broadcasts (shared sys1) = S (broadcasts (shared sys))
         ∧ step (A_LoopWakeup a) sys1
           = Some (O_Check TCL_ERROR (Some canceled_msg), sys2)
         ∧ lpc sys2 !! a = Some (LP_Checked TCL_ERROR)
         ∧ step (A_Body a) sys2 = None)
  ∧ (∀ act l,
       loopmem (shared sys) !! a = Some l →
       ends_wait sys a l act →
       (control l = LOOP_CANCEL →
          ∃ sys',
            step act sys
            = Some (O_Check TCL_ERROR (Some canceled_msg), sys')
            ∧ lpc sys' !! a = Some (LP_Checked TCL_ERROR)
            ∧ step (A_Body a) sys' = None
            ∧ is_Some (step (A_LeaveLoop a) sys'))
       ∧ (control l = LOOP_RUN →
            ∃ sys',
              step act sys = Some (O_Check TCL_OK None, sys')
              ∧ lpc sys' !! a = Some (LP_Checked TCL_OK)
              ∧ step (A_Body a) sys'
                = Some (O_None,
                        mkSys (shared sys') (<[a := LP_Body]> (lpc sys'))
                              (epc sys'))))
  ∧ (∀ c id l,
       lpc sys !! a = Some LP_Body →
       loops (shared sys) !! id = Some a →
       loopmem (shared sys) !! a = Some l →
       ∃ sys1,
         step (A_Signal [c; id] LOOP_CANCEL) sys
         = Some (O_Cmd TCL_OK "", sys1)
         ∧ (evalPtr l = None →
              ∃ sys2,
                step (A_CheckControl a) sys1
                = Some (O_Check TCL_ERROR (Some canceled_msg), sys2)
                ∧ lpc sys2 !! a = Some (LP_Checked TCL_ERROR)
                ∧ step (A_Body a) sys2 = None
                ∧ is_Some (step (A_LeaveLoop a) sys2))
         ∧ (∀ e, evalPtr l = Some e →
              ∃ sc sys2,
                step (A_CheckControl a) sys1 = Some (O_None, sys2)
                ∧ lpc sys2 !! a = Some (LP_Eval sc)
                ∧ ∀ res txt, ∃ sys3,
                    step (A_Evaluated a res txt) sys2
                    = Some (O_Check TCL_ERROR (Some canceled_msg), sys3)
                    ∧ lpc sys3 !! a = Some (LP_Checked TCL_ERROR)
                    ∧ step (A_Body a) sys3 = None
                    ∧ is_Some (step (A_LeaveLoop a) sys3))).
Proof.
  intros Hr. pose proof (reachable_Inv _ Hr) as HI.
  assert (Hcancel : ∀ sysx lx act,
            Inv sysx → loopmem (shared sysx) !! a = Some lx →
            ends_wait sysx a lx act → control lx = LOOP_CANCEL →
            ∃ sys',
              step act sysx
              = Some (O_Check TCL_ERROR (Some canceled_msg), sys')
              ∧ lpc sys' !! a = Some (LP_Checked TCL_ERROR)
              ∧ step (A_Body a) sys' = None
              ∧ is_Some (step (A_LeaveLoop a) sys')).
  { intros sysx lx act HIx Hlx Hends Hc.
    destruct (checkpoint_piece_returns sysx a lx act HIx Hlx)
      as (sys' & l' & Hs & Hpc & Hl' & He' & _); [by rewrite Hc|done|].
    rewrite Hc in Hs, Hpc. unfold verdict in Hs, Hpc. simpl in Hs, Hpc.
    exists sys'. split_and!; try done.
    - simpl. by rewrite Hpc.
    - simpl. rewrite Hpc. simpl. unfold LeaveLoop. rewrite Hl'. simpl.
      unfold drop_pending. rewrite He'. done. }
  split_and!.
  - intros act obs sys' r Hact Hs Hpc.
    destruct (checkpoint_returns _ _ _ _ _ _ Hact Hs Hpc) as (m & -> & Hw).
    destruct (CheckControl_while_return _ _ _ _ _ Hw)
      as (_ & l' & Hl' & He & Hcase).
    exists l'. split_and!; try done.
    destruct Hcase as [(Hc & -> & ->)|(Hc & -> & ->)]; [left|right].
    + split_and!; try done.
      * simpl. by rewrite Hpc.
      * simpl. rewrite Hpc. simpl. unfold LeaveLoop. rewrite Hl'. simpl.
        unfold drop_pending. rewrite He. done.
    + split_and!; try done. simpl. by rewrite Hpc.
  - intros c id l Hpc Hid Hl Hc He.
    eexists. eexists. split_and!.
    + simpl. unfold Signal, GetLoop. rewrite Hid, Hl. simpl. done.
    + done.
    + simpl. rewrite Hpc. unfold after_check, CheckControl_wakeup.
      unfold CheckControl_while. simpl. rewrite lookup_insert_eq. simpl.
      rewrite He. simpl. done.
    + simpl. apply lookup_insert_eq.
    + simpl. by rewrite lookup_insert_eq.
  - intros act l Hl Hends. split.
    + intros Hc. by apply (Hcancel sys l act).
    + intros Hc.
      destruct (checkpoint_piece_returns sys a l act HI Hl)
        as (sys' & l' & Hs & Hpc & _); [by rewrite Hc|done|].
      rewrite Hc in Hs, Hpc. unfold verdict in Hs, Hpc. simpl in Hs, Hpc.
      exists sys'. split_and!; try done. simpl. by rewrite Hpc.
  - intros c id l Hpc Hid Hl.
    set (l1 := with_control LOOP_CANCEL l).
    set (sys1 := mkSys (Ns_CondBroadcast
                          (set_loopmem (<[a := l1]>) (shared sys)))
                   (lpc sys) (epc sys)).
    assert (H1 : step (A_Signal [c; id] LOOP_CANCEL) sys
                 = Some (O_Cmd TCL_OK "", sys1)).
    { simpl. unfold Signal, GetLoop. rewrite Hid, Hl. simpl. done. }
    pose proof (step_Inv _ _ _ _ HI H1) as HI1.
    assert (Hl1 : loopmem (shared sys1) !! a = Some l1)
      by (simpl; apply lookup_insert_eq).
    exists sys1. split_and!; [exact H1| |].
    + intros He. apply (Hcancel sys1 l1 (A_CheckControl a)); try done.
      left. by split_and!.
    + intros e He.
      destruct (inv_attached _ HI a l e Hl He) as (_ & ev & Hev & _).
      set (l2 := with_spins ((spins l1 + 1) mod UINT_MOD) l1).
      set (sys2 := mkSys (set_loopmem (<[a := l2]>) (shared sys1))
                     (<[a := LP_Eval (script ev)]> (lpc sys1)) (epc sys1)).
      assert (H2 : step (A_CheckControl a) sys1 = Some (O_None, sys2)).
      { unfold step.
        replace (lpc sys1 !! a) with (Some LP_Body) by done.
        unfold CheckControl. rewrite Hl1. simpl.
        unfold CheckControl_while. simpl. rewrite lookup_insert_eq. simpl.
        rewrite He. simpl. rewrite Hev. simpl. done. }
      pose proof (step_Inv _ _ _ _ HI1 H2) as HI2.
      exists (script ev), sys2. split_and!; [exact H2| |].
      * simpl. apply lookup_insert_eq.
      * intros res txt.
        apply (Hcancel sys2 l2 (A_Evaluated a res txt)); try done.
        -- simpl. apply lookup_insert_eq.
        -- right. right. exists (script ev), res, txt. split; [done|].
           simpl. apply lookup_insert_eq.
Qed.

(** A loop that was paused and is blocked at the checkpoint returns
    [TCL_ERROR] when it is canceled and wakes up; a loop canceled while in
    its body gets [TCL_ERROR] from its next [CheckControl]; and one that
    is left alone gets [TCL_OK]. *)
Lemma CheckControl_cancel_contract_witness :
  (∃ sys1 sys2,
     lpc (after acts_paused_blocked) !! 1%nat = Some LP_CondWait
     ∧ step (A_Signal ["loopctl_cancel"; "0"] LOOP_CANCEL)
         (after acts_paused_blocked) = Some (O_Cmd TCL_OK "", sys1)
     ∧ step (A_LoopWakeup 1%nat) sys1
       = Some (O_Check TCL_ERROR (Some canceled_msg), sys2)
     ∧ step (A_Body 1%nat) sys2 = None)
  ∧ (∃ sys1 sys2,
       step (A_Signal ["loopctl_cancel"; "0"] LOOP_CANCEL)
         (after acts_one_loop) = Some (O_Cmd TCL_OK "", sys1)
       ∧ step (A_CheckControl 1%nat) sys1
         = Some (O_Check TCL_ERROR (Some canceled_msg), sys2)
       ∧ step (A_Body 1%nat) sys2 = None)
  ∧ (∃ sys',
       step (A_CheckControl 1%nat) (after acts_one_loop)
       = Some (O_Check TCL_OK None, sys')
       ∧ is_Some (step (A_Body 1%nat) sys')).
Proof.
  split_and!.
  - destruct (CheckControl_cancel_contract (after acts_paused_blocked)
                1%nat) as (_ & H & _).
    { apply after_reachable. vm_compute. by eexists. }
    destruct (H "loopctl_cancel" "0"
                (mkLoopData LOOP_PAUSE "0" 7 2 t0 "0" objv_while None))
      as (sys1 & sys2 & H1 & _ & H2 & _ & H3);
      try (vm_compute; reflexivity).
    exists sys1, sys2. split_and!; [vm_compute; reflexivity|done..].
  - destruct (CheckControl_cancel_contract (after acts_one_loop) 1%nat)
      as (_ & _ & _ & H).
    { apply after_reachable. vm_compute. by eexists. }
    destruct (H "loopctl_cancel" "0"
                (mkLoopData LOOP_RUN "0" 7 0 t0 "0" objv_while None))
      as (sys1 & H1 & H2 & _).
    { vm_compute. reflexivity. }
    { vm_compute. reflexivity. }
    { vm_compute. reflexivity. }
    destruct (H2 eq_refl) as (sys2 & H3 & _ & H4 & _).
    exists sys1, sys2. split_and!; [exact H1|exact H3|exact H4].
  - destruct (CheckControl_cancel_contract (after acts_one_loop) 1%nat)
      as (_ & _ & H & _).
    { apply after_reachable. vm_compute. by eexists. }
    destruct (H (A_CheckControl 1%nat)
                (mkLoopData LOOP_RUN "0" 7 0 t0 "0" objv_while None))
      as [_ Hrun].
    { vm_compute. reflexivity. }
    { left. split_and!; [done|vm_compute; reflexivity|done]. }
    destruct (Hrun eq_refl) as (sys' & H1 & _ & H2).
    exists sys'. split; [exact H1|]. rewrite H2. eexists. reflexivity.
Defined.

(** The checkpoint after the script, with the request still attached. *)
Lemma CheckControl_evaluated_attached (a : addr) (res : Z) (txt : string)
    (s : State) (l : LoopData) (e : addr) (ev : EvalData) :
  loopmem s !! a = Some l → evalPtr l = Some e → evalmem s !! e = Some ev →
  CheckControl_evaluated a res txt s
  = Some (match control l with
          | LOOP_PAUSE => CC_CondWait
          | LOOP_CANCEL => CC_Return TCL_ERROR (Some canceled_msg)
          | LOOP_RUN => CC_Return TCL_OK None
          end,
          Ns_CondBroadcast
            (set_loopmem (<[a := with_evalPtr None l]>)
               (set_evalmem
                  (<[e := mkEvalData EVAL_DONE (code ev) (script ev)
                            (result ev +:+ txt)]>)
                  (if decide (res ≠ TCL_OK)
                   then Ns_Log (LogErrorInfo txt) s else s)))).
Proof.
  intros Hl He Hev. unfold CheckControl_evaluated.
  set (s0 := if decide (res ≠ TCL_OK) then Ns_Log (LogErrorInfo txt) s
             else s).
  assert (loopmem s0 = loopmem s ∧ evalmem s0 = evalmem s) as [E1 E2].
  { unfold s0. by case_decide. }
  rewrite E1, Hl. simpl. rewrite He, E2, Hev. simpl.
  unfold CheckControl_while. simpl. rewrite lookup_insert_eq. simpl.
  by destruct (control l).
Qed.

(** C10.  A script sent to a loop that ends with a code other than
    [TCL_OK], the request being still attached when the checkpoint takes
    the mutex again: the interpreter's result text is appended to the
    (empty) result buffer of the request, the request becomes [EVAL_DONE]
    and is taken off the loop, the condition variable is broadcast, and
    the failure shows in the server log only: apart from the log entry
    the checkpoint does exactly what it does for a script that succeeded.
    It then goes on as usual: with [LOOP_RUN] it returns [TCL_OK] and the
    body runs in this same iteration, with [LOOP_CANCEL] it returns
    [TCL_ERROR], with [LOOP_PAUSE] it blocks. *)
Theorem failing_script_only_logged (sys : System) (a : addr) (sc : string)
    (l : LoopData) (e : addr) (res : Z) (txt : string) :
  reachable sys →
  lpc sys !! a = Some (LP_Eval sc) →
  loopmem (shared sys) !! a = Some l →
  evalPtr l = Some e →
  res ≠ TCL_OK →
  ∃ ev obs sys' sys_ok,
    evalmem (shared sys) !! e = Some ev
    ∧ step (A_Evaluated a res txt) sys = Some (obs, sys')
    ∧ evalmem (shared sys') !! e
      = Some (mkEvalData EVAL_DONE (code ev) (script ev) txt)
    ∧ loopmem (shared sys') !! a = Some (with_evalPtr None l)
    ∧ broadcasts (shared sys') = S (broadcasts (shared sys))
    ∧ log (shared sys') = log (shared sys) ++ [LogErrorInfo txt]
    ∧ step (A_Evaluated a TCL_OK txt) sys = Some (obs, sys_ok)
    ∧ sys' = mkSys (Ns_Log (LogErrorInfo txt) (shared sys_ok))
               (lpc sys_ok) (epc sys_ok)
    ∧ (control l = LOOP_RUN →
         obs = O_Check TCL_OK None
         ∧ step (A_Body a) sys'
           = Some (O_None,
                   mkSys (shared sys') (<[a := LP_Body]> (lpc sys'))
                         (epc sys')))
    ∧ (control l = LOOP_CANCEL →
         obs = O_Check TCL_ERROR (Some canceled_msg))
    ∧ (control l = LOOP_PAUSE →
         obs = O_None ∧ lpc sys' !! a = Some LP_CondWait).
Proof.
  intros Hr Hpc Hl He Hres. pose proof (reachable_Inv sys Hr) as HI.
  destruct (inv_attached sys HI a l e Hl He) as [_ (ev & Hev & Hst)].
  destruct (reachable_as_set_up sys Hr e ev Hev) as [_ Hempty].
  assert (result ev = "") as Hres0 by (apply Hempty; congruence).
  set (o := match control l with
            | LOOP_PAUSE => CC_CondWait
            | LOOP_CANCEL => CC_Return TCL_ERROR (Some canceled_msg)
            | LOOP_RUN => CC_Return TCL_OK None
            end).
  set (after_script := λ s0 : State,
         mkSys (Ns_CondBroadcast
                  (set_loopmem (<[a := with_evalPtr None l]>)
                     (set_evalmem
                        (<[e := mkEvalData EVAL_DONE (code ev) (script ev)
                                  txt]>) s0)))
               (<[a := pc_of o]> (lpc sys)) (epc sys)).
  exists ev, (obs_of o),
    (after_script (Ns_Log (LogErrorInfo txt) (shared sys))),
    (after_script (shared sys)).
  split_and!; try done.
  - simpl. rewrite Hpc. unfold after_check.
    rewrite (CheckControl_evaluated_attached a res txt _ l e ev Hl He Hev).
    simpl. rewrite decide_True by done. by rewrite Hres0.
  - simpl. apply lookup_insert_eq.
  - simpl. apply lookup_insert_eq.
  - simpl. rewrite Hpc. unfold after_check.
    rewrite (CheckControl_evaluated_attached a TCL_OK txt _ l e ev Hl He Hev).
    simpl. by rewrite Hres0.
  - intros Hc. subst after_script o. rewrite Hc. simpl.
    by rewrite lookup_insert_eq.
  - intros Hc. subst after_script o. by rewrite Hc.
  - intros Hc. subst after_script o. rewrite Hc. simpl.
    by rewrite lookup_insert_eq.
Qed.

Lemma failing_script_only_logged_witness :
  ∃ sys',
    step (A_Evaluated 1%nat TCL_ERROR "boom") (after acts_evaluating)
    = Some (O_Check TCL_OK None, sys')
    ∧ evalmem (shared sys') !! 9%nat
      = Some (mkEvalData EVAL_DONE TCL_OK "set x 1" "boom")
    ∧ log (shared sys') = [LogErrorInfo "boom"]
    ∧ is_Some (step (A_Body 1%nat) sys').
Proof.
  destruct (failing_script_only_logged (after acts_evaluating) 1%nat
              "set x 1"
              (mkLoopData LOOP_RUN "0" 7 1 t0 "0" objv_while (Some 9%nat))
              9%nat TCL_ERROR "boom")
    as (ev & obs & sys' & sys_ok & Hev & Hs & Hd & _ & _ & Hlog & _ & _
        & Hrun & _).
  - apply after_reachable. vm_compute. by eexists.
  - vm_compute. reflexivity.
  - vm_compute. reflexivity.
  - reflexivity.
  - discriminate.
  - destruct (Hrun eq_refl) as [-> Hbody].
    assert (ev = mkEvalData EVAL_WAIT TCL_OK "set x 1" "") as ->.
    { vm_compute in Hev. by injection Hev as <-. }
    exists sys'. split_and!; [exact Hs|exact Hd|exact Hlog|].
    rewrite Hbody. by eexists.
Defined.

(** C2 (what the code does).  A script sent with [EvalObjCmd] and run by
    the loop's checkpoint, the request being still attached afterwards:
    the request becomes [EVAL_DONE] and the controller, whenever it
    resumes and whatever the other threads did meanwhile, gets the
    interpreter's result text of that run; but the code it returns is
    [TCL_OK] for every result code [res] of the script: [CheckControl]
    never stores [res] into the request's [code] field, which still holds
    the [TCL_OK] that [EvalObjCmd] put there. *)
Theorem script_result_code_lost (sys : System) (a : addr) (sc : string)
    (l : LoopData) (e : addr) (res : Z) (txt : string) :
  reachable sys →
  lpc sys !! a = Some (LP_Eval sc) →
  loopmem (shared sys) !! a = Some l →
  evalPtr l = Some e →
  ∃ obs sys1,
    step (A_Evaluated a res txt) sys = Some (obs, sys1)
    ∧ (state <$> evalmem (shared sys1) !! e) = Some EVAL_DONE
    ∧ ∀ acts sys2 status,
        others e acts → run acts sys1 = Some sys2 →
        ∃ sys3, step (A_EvalWakeup e status) sys2
                = Some (O_Cmd TCL_OK txt, sys3).
Proof.
  intros Hr Hpc Hl He. pose proof (reachable_Inv sys Hr) as HI.
  destruct (inv_attached sys HI a l e Hl He) as [Hep (ev & Hev & Hst)].
  destruct (reachable_as_set_up sys Hr e ev Hev) as [Hcode Hempty].
  assert (result ev = "") as Hres0 by (apply Hempty; congruence).
  destruct (step (A_Evaluated a res txt) sys) as [[obs sys1]|] eqn:Hs.
  2: { simpl in Hs. rewrite Hpc in Hs. unfold after_check in Hs.
       by rewrite (CheckControl_evaluated_attached a res txt _ l e ev Hl He
                     Hev) in Hs. }
  assert (evalmem (shared sys1) !! e
          = Some (mkEvalData EVAL_DONE TCL_OK (script ev) txt)
          ∧ epc sys1 !! e = Some a) as [Hev1 Hep1].
  { simpl in Hs. rewrite Hpc in Hs. unfold after_check in Hs.
    rewrite (CheckControl_evaluated_attached a res txt _ l e ev Hl He Hev)
      in Hs.
    simpl in Hs. injection Hs as <- <-. simpl.
    rewrite lookup_insert_eq, Hcode, Hres0. done. }
  exists obs, sys1. split_and!; [done|by rewrite Hev1|].
  intros acts sys2 status Ho Hrun.
  pose proof (step_Inv _ _ _ _ HI Hs) as HI1.
  destruct (settled_request_stable_run acts sys1 sys2 e a _ HI1 Hep1 Hev1)
    as (_ & Hep2 & Hev2); try done.
  eexists. by rewrite (EvalWakeup_settled sys2 e a _ status Hep2 Hev2).
Qed.

Lemma script_result_code_lost_witness :
  ∃ obs sys1 sys3,
    step (A_Evaluated 1%nat TCL_ERROR "boom") (after acts_evaluating)
    = Some (obs, sys1)
    ∧ step (A_EvalWakeup 9%nat NS_OK) sys1
      = Some (O_Cmd TCL_OK "boom", sys3).
Proof.
  destruct (script_result_code_lost (after acts_evaluating) 1%nat "set x 1"
              (mkLoopData LOOP_RUN "0" 7 1 t0 "0" objv_while (Some 9%nat))
              9%nat TCL_ERROR "boom")
    as (obs & sys1 & Hs & _ & Hw).
  - apply after_reachable. vm_compute. by eexists.
  - vm_compute. reflexivity.
  - vm_compute. reflexivity.
  - reflexivity.
  - destruct (Hw [] sys1 NS_OK) as [sys3 H3]; [constructor|reflexivity|].
    by exists obs, sys1, sys3.
Defined.

(** ** The registry *)

Lemma listed_elem (sys : System) (id : string) :
  id ∈ listed sys ↔ is_Some (loops (shared sys) !! id).
Proof.
  unfold listed, LoopsObjCmd, List. simpl.
  rewrite list_elem_of_fmap. split.
  - intros ([k a] & -> & H). apply elem_of_map_to_list in H. by exists a.
  - intros [a H]. exists (id, a). split; [done|].
    by apply elem_of_map_to_list.
Qed.

Lemma listed_NoDup (sys : System) : NoDup (listed sys).
Proof. apply NoDup_fst_map_to_list. Qed.

(** Only [EnterLoop] and [LeaveLoop] write the table [loops]. *)
Lemma step_keeps_registry (act : Action) (sys sys' : System) (obs : Obs) :
  keeps_registry act →
  step act sys = Some (obs, sys') →
  loops (shared sys') = loops (shared sys).
Proof.
  intros Hk H.
  destruct act as
    [th|th|b th now objv|b|b res txt|b|b|b|e' objv|e' status|objv sg|objv| |];
    simpl in H; try done.
  - unfold InitInterp in H.
    by destruct (threads (shared sys) !! hex th); injection H as <- <-.
  - by injection H as <- <-.
  - destruct (lpc sys !! b) as [[| | |]|]; try done.
    unfold after_check in H.
    destruct (CheckControl b (shared sys)) as [[o s1]|] eqn:HC;
      simpl in H; [|done].
    injection H as <- <-.
    by destruct (CheckControl_shape _ _ _ _ HC) as (l & Hl & -> & _).
  - destruct (lpc sys !! b) as [[|sc| |]|]; try done.
    unfold after_check in H.
    destruct (CheckControl_evaluated b res txt (shared sys))
      as [[o s1]|] eqn:HC; simpl in H; [|done].
    injection H as <- <-.
    destruct (CheckControl_evaluated_shape _ _ _ _ _ _ HC)
      as (l & Hl & [[He ->]|(e0 & ev0 & He & Hev0 & ->)] & _);
      simpl; by case_decide.
  - destruct (lpc sys !! b) as [[| | |]|]; try done.
    unfold after_check, CheckControl_wakeup in H.
    destruct (CheckControl_while b (shared sys)) as [[o s1]|] eqn:HC;
      simpl in H; [|done].
    injection H as <- <-.
    by pose proof (CheckControl_while_state _ _ _ _ HC) as ->.
  - destruct (lpc sys !! b) as [[| | |r]|]; try done.
    case_decide; [|done]. by injection H as <- <-.
  - destruct (epc sys !! e'); [done|].
    destruct (evalmem (shared sys) !! e'); [done|].
    unfold after_eval in H.
    destruct (EvalObjCmd e' objv (shared sys)) as [[o s1]|] eqn:HE;
      simpl in H; [|done].
    by destruct (EvalObjCmd_shape _ _ _ _ _ HE)
      as [[-> [msg ->]]|(c & id & sc & b & l & _ & _ & Hl & He & -> & ->)];
      injection H as <- <-.
  - destruct (epc sys !! e') as [b|] eqn:Hpc; simpl in H; [|done].
    unfold after_eval, EvalObjCmd_wakeup in H.
    destruct (EvalObjCmd_wait e' b status (shared sys)) as [[o s1]|] eqn:HW;
      simpl in H; [|done].
    destruct (EvalObjCmd_wait_shape _ _ _ _ _ _ HW) as (ev0 & Hev0 & Hcase).
    by destruct Hcase as [(-> & _ & -> & ->)
                         |[(_ & _ & -> & l & Hl & ->)
                          |[(_ & -> & ->)|(_ & -> & ->)]]];
      injection H as <- <-.
  - destruct (Signal objv sg (shared sys)) as [[[r m] s1]|] eqn:HS;
      simpl in H; [|done].
    injection H as <- <-.
    by destruct (Signal_shape _ _ _ _ _ _ HS)
      as [[-> _]|(c & id & b & l & _ & _ & Hl & _ & _ & ->)].
  - destruct (AbortObjCmd objv (shared sys)) as [[r m] s1] eqn:HA.
    injection H as <- <-.
    pose proof (Abort_keeps_loops objv (shared sys)) as (E1 & _).
    by rewrite HA in E1.
  - unfold LoopsObjCmd, List in H. by injection H as <- <-.
  - unfold ThreadsObjCmd, List in H. by injection H as <- <-.
Qed.

(** The addresses in the table are those of the running loop commands,
    each once. *)
Lemma table_addresses (sys : System) :
  Inv sys →
  (map_to_list (loops (shared sys))).*2 ≡ₚ (map_to_list (lpc sys)).*1.
Proof.
  intros HI. apply NoDup_Permutation.
  - apply NoDup_fmap_2_strong; [|apply NoDup_map_to_list].
    intros [id1 a1] [id2 a2] H1 H2 E. simpl in E. subst a2.
    apply elem_of_map_to_list in H1, H2.
    destruct (inv_table sys HI _ _ H1) as (l1 & Hl1 & Hh1 & _).
    destruct (inv_table sys HI _ _ H2) as (l2 & Hl2 & Hh2 & _).
    f_equal. congruence.
  - apply NoDup_fst_map_to_list.
  - intros a. rewrite !list_elem_of_fmap. split.
    + intros ([id a'] & -> & H). apply elem_of_map_to_list in H. simpl.
      destruct (inv_table sys HI _ _ H) as (l & Hl & _).
      destruct (proj2 (inv_lpc sys HI a')) as [pc Hpc]; [by eexists|].
      exists (a', pc). split; [done|]. by apply elem_of_map_to_list.
    + intros ([a' pc] & -> & H). apply elem_of_map_to_list in H. simpl.
      destruct (proj1 (inv_lpc sys HI a')) as [l Hl]; [by eexists|].
      exists (hPtr l, a'). split; [done|]. apply elem_of_map_to_list.
      by apply (inv_mem sys HI).
Qed.

(** C3.  In every state the server can reach, [loopctl_loops] returns,
    without repetition, exactly the ids of the loop commands that have
    entered and not yet left: an id is listed if and only if it is that of
    a running loop, and there are as many ids as running loops.  An
    [EnterLoop] adds exactly one id, not listed before, which is the new
    loop's; a [LeaveLoop] removes exactly the id of the loop that leaves;
    no other action changes the list. *)
Theorem LoopsObjCmd_exact (sys : System) :
  reachable sys →
  (LoopsObjCmd (shared sys)).1 = TCL_OK
  ∧ NoDup (listed sys)
  ∧ (∀ id, id ∈ listed sys ↔ ∃ a, running sys a id)
  ∧ length (listed sys) = size (lpc sys)
  ∧ (∀ a th now objv obs sys',
       step (A_EnterLoop a th now objv) sys = Some (obs, sys') →
       ∃ id, (id ∉ listed sys) ∧ (listed sys' ≡ₚ (id :: listed sys))
         ∧ running sys' a id)
  ∧ (∀ a l obs sys',
       loopmem (shared sys) !! a = Some l →
       step (A_LeaveLoop a) sys = Some (obs, sys') →
       (lid l ∉ listed sys') ∧ (listed sys ≡ₚ (lid l :: listed sys'))
       ∧ ¬ (∃ id, running sys' a id))
  ∧ (∀ act obs sys',
       keeps_registry act → step act sys = Some (obs, sys') →
       listed sys' = listed sys).
Proof.
  intros Hr. pose proof (reachable_Inv sys Hr) as HI.
  split_and!.
  - done.
  - apply listed_NoDup.
  - intros id. rewrite listed_elem. split.
    + intros [a Ha]. exists a.
      destruct (inv_table sys HI id a Ha) as (l & Hl & _ & Hi).
      split; [|by exists l]. apply (inv_lpc sys HI). by eexists.
    + intros (a & Hpc & l & Hl & Hi). exists a.
      destruct (lid_is_key sys a l HI Hl) as [_ Hk]. by rewrite <- Hi.
  - unfold listed, LoopsObjCmd, List. simpl.
    rewrite length_fmap, <- (length_fmap snd).
    rewrite (table_addresses sys HI). by rewrite length_fmap,
      length_map_to_list.
  - intros a th now objv obs sys' Hs. simpl in Hs.
    destruct (lpc sys !! a) eqn:Hpc; [done|].
    destruct (loopmem (shared sys) !! a) eqn:Hlm; [done|].
    destruct (EnterLoop a th now objv (shared sys)) as [s1|] eqn:HE;
      simpl in Hs; [|done].
    injection Hs as <- <-.
    destruct (EnterLoop_inv _ _ _ _ _ _ (inv_next sys HI) HE)
      as (k & Hk & Hocc & Hfree & ->).
    exists (probe_key (next (shared sys)) k). split_and!.
    + rewrite listed_elem, Hfree. by intros [? ?].
    + unfold listed, LoopsObjCmd, List. simpl.
      by rewrite map_to_list_insert.
    + split; simpl.
      * rewrite lookup_insert_eq. by eexists.
      * eexists. by rewrite lookup_insert_eq.
  - intros a l obs sys' Hl Hs. simpl in Hs.
    destruct (lpc sys !! a) as [pc|] eqn:Hpc; [|done].
    destruct (leaves pc); [|done].
    destruct (LeaveLoop a (shared sys)) as [s1|] eqn:HL; simpl in Hs; [|done].
    injection Hs as <- <-.
    destruct (LeaveLoop_shape _ _ _ HL) as (l0 & s2 & Hl0 & _ & -> & H0 & H1).
    assert (l0 = l) as -> by congruence.
    assert (loops s2 = loops (shared sys)) as E1.
    { destruct (evalPtr l) as [e|] eqn:He.
      - by destruct (H1 e eq_refl) as (ev & _ & ->).
      - by rewrite H0. }
    destruct (lid_is_key sys a l HI Hl) as [Hlid Hkey].
    split_and!.
    + rewrite listed_elem. simpl. rewrite E1, Hlid, lookup_delete_eq.
      by intros [? ?].
    + unfold listed, LoopsObjCmd, List. simpl. rewrite E1, <- Hlid.
      by rewrite <- (map_to_list_delete _ _ _ Hkey).
    + intros (id & [pc' Hpc'] & _). simpl in Hpc'.
      by rewrite lookup_delete_eq in Hpc'.
  - intros act obs sys' Hk Hs. unfold listed, LoopsObjCmd.
    by rewrite (step_keeps_registry act sys sys' obs Hk Hs).
Qed.

Lemma LoopsObjCmd_exact_witness :
  listed (after acts_one_loop) = ["0"]
  ∧ (∃ sys', step (A_EnterLoop 2%nat 8 t0 ["for"; "a"; "b"; "c"; "d"])
               (after acts_one_loop) = Some (O_None, sys')
       ∧ length (listed sys') = 2%nat)
  ∧ ∃ sys', step (A_LeaveLoop 1%nat) (after acts_one_loop)
            = Some (O_None, sys')
      ∧ length (listed sys') = 0%nat.
Proof.
  destruct (LoopsObjCmd_exact (after acts_one_loop))
    as (_ & _ & _ & _ & Henter & Hleave & _).
  { apply after_reachable. vm_compute. by eexists. }
  split_and!.
  - vm_compute. reflexivity.
  - destruct (step (A_EnterLoop 2%nat 8 t0 ["for"; "a"; "b"; "c"; "d"])
                (after acts_one_loop)) as [[obs sys']|] eqn:Hs;
      [|vm_compute in Hs; discriminate].
    destruct (Henter _ _ _ _ _ _ Hs) as (id & _ & Hp & _).
    assert (obs = O_None) as ->.
    { vm_compute in Hs. by injection Hs as <- _. }
    exists sys'. split; [reflexivity|]. by rewrite Hp.
  - destruct (step (A_LeaveLoop 1%nat) (after acts_one_loop))
      as [[obs sys']|] eqn:Hs; [|vm_compute in Hs; discriminate].
    destruct (Hleave 1%nat
                (mkLoopData LOOP_RUN "0" 7 0 t0 "0" objv_while None)
                obs sys') as (_ & Hp & _); [vm_compute; reflexivity|done|].
    assert (obs = O_None) as ->.
    { vm_compute in Hs. by injection Hs as <- _. }
    exists sys'. split; [reflexivity|].
    apply Permutation_length in Hp. simpl in Hp.
    change (listed (after acts_one_loop)) with ["0"] in Hp. simpl in Hp.
    lia.
Defined.

(** ** The spin counter *)

(** The counter of a loop is written by its own entry into [CheckControl]
    and by nothing else. *)
Lemma spins_step (act : Action) (sys sys' : System) (obs : Obs) (a : addr)
    (l l' : LoopData) :
  step act sys = Some (obs, sys') →
  loopmem (shared sys) !! a = Some l →
  loopmem (shared sys') !! a = Some l' →
  (act = A_CheckControl a ∧ spins l' = (spins l + 1) mod UINT_MOD)
  ∨ (act ≠ A_CheckControl a ∧ spins l' = spins l).
Proof.
  intros H Hl Hl'.
  destruct act as
    [th|th|b th now objv|b|b res txt|b|b|b|e' objv|e' status|objv sg|objv| |];
    simpl in H.
  - unfold InitInterp in H.
    destruct (threads (shared sys) !! hex th); injection H as <- <-;
      right; simpl in Hl'; (split; [done|congruence]).
  - injection H as <- <-. right. simpl in Hl'. split; [done|congruence].
  - destruct (lpc sys !! b); [done|].
    destruct (loopmem (shared sys) !! b) eqn:Hb; [done|].
    destruct (EnterLoop b th now objv (shared sys)) as [s1|] eqn:HE;
      simpl in H; [|done].
    injection H as <- <-. right. split; [done|].
    destruct (EnterLoop_keeps _ _ _ _ _ _ HE) as (_ & _ & _ & _ & Hk).
    simpl in Hl'. rewrite Hk in Hl' by congruence. congruence.
  - destruct (lpc sys !! b) as [[| | |]|]; try done.
    unfold after_check in H.
    destruct (CheckControl b (shared sys)) as [[o s1]|] eqn:HC;
      simpl in H; [|done].
    injection H as <- <-.
    destruct (CheckControl_shape _ _ _ _ HC) as (lb & Hlb & -> & _).
    simpl in Hl'. destruct (decide (b = a)) as [->|Hne].
    + left. rewrite lookup_insert_eq in Hl'. split; [done|].
      injection Hl' as <-. simpl. congruence.
    + right. rewrite lookup_insert_ne in Hl' by done.
      split; congruence.
  - destruct (lpc sys !! b) as [[|sc| |]|]; try done.
    unfold after_check in H.
    destruct (CheckControl_evaluated b res txt (shared sys))
      as [[o s1]|] eqn:HC; simpl in H; [|done].
    injection H as <- <-. right. split; [done|].
    destruct (CheckControl_evaluated_shape _ _ _ _ _ _ HC)
      as (lb & Hlb & [[He ->]|(e0 & ev0 & He & Hev0 & ->)] & _);
      simpl in Hl'.
    + assert (loopmem (shared sys) !! a = Some l') by (by case_decide).
      congruence.
    + assert (<[b := with_evalPtr None lb]> (loopmem (shared sys)) !! a
              = Some l') as Hl2 by (by case_decide).
      destruct (decide (b = a)) as [->|Hne].
      * rewrite lookup_insert_eq in Hl2. injection Hl2 as <-. simpl.
        congruence.
      * rewrite lookup_insert_ne in Hl2 by done. congruence.
  - destruct (lpc sys !! b) as [[| | |]|]; try done.
    unfold after_check, CheckControl_wakeup in H.
    destruct (CheckControl_while b (shared sys)) as [[o s1]|] eqn:HC;
      simpl in H; [|done].
    injection H as <- <-.
    pose proof (CheckControl_while_state _ _ _ _ HC) as ->.
    right. simpl in Hl'. split; [done|congruence].
  - destruct (lpc sys !! b) as [[| | |r]|]; try done.
    case_decide; [|done]. injection H as <- <-.
    right. simpl in Hl'. split; [done|congruence].
  - destruct (lpc sys !! b) as [pc|]; [|done].
    destruct (leaves pc); [|done].
    destruct (LeaveLoop b (shared sys)) as [s1|] eqn:HL; simpl in H; [|done].
    injection H as <- <-. right. split; [done|].
    destruct (LeaveLoop_shape _ _ _ HL) as (lb & s2 & Hlb & _ & -> & H0 & H1).
    assert (loopmem s2 = loopmem (shared sys)) as E.
    { destruct (evalPtr lb) as [e|] eqn:He.
      - by destruct (H1 e eq_refl) as (ev & _ & ->).
      - by rewrite H0. }
    simpl in Hl'. rewrite E in Hl'.
    destruct (decide (b = a)) as [->|Hne].
    + by rewrite lookup_delete_eq in Hl'.
    + rewrite lookup_delete_ne, lookup_insert_ne in Hl' by done. congruence.
  - destruct (epc sys !! e'); [done|].
    destruct (evalmem (shared sys) !! e'); [done|].
    unfold after_eval in H.
    destruct (EvalObjCmd e' objv (shared sys)) as [[o s1]|] eqn:HE;
      simpl in H; [|done].
    right. split; [done|].
    destruct (EvalObjCmd_shape _ _ _ _ _ HE)
      as [[-> [msg ->]]|(c & id & sc & b & lb & _ & _ & Hlb & He & -> & ->)];
      injection H as <- <-; simpl in Hl'; [congruence|].
    destruct (decide (b = a)) as [->|Hne].
    + rewrite lookup_insert_eq in Hl'. injection Hl' as <-. simpl.
      congruence.
    + rewrite lookup_insert_ne in Hl' by done. congruence.
  - destruct (epc sys !! e') as [b|] eqn:Hpc; simpl in H; [|done].
    unfold after_eval, EvalObjCmd_wakeup in H.
    destruct (EvalObjCmd_wait e' b status (shared sys)) as [[o s1]|] eqn:HW;
      simpl in H; [|done].
    right. split; [done|].
    destruct (EvalObjCmd_wait_shape _ _ _ _ _ _ HW) as (ev0 & Hev0 & Hcase).
    destruct Hcase as [(-> & _ & -> & ->)
                      |[(_ & _ & -> & lb & Hlb & ->)
                       |[(_ & -> & ->)|(_ & -> & ->)]]];
      injection H as <- <-; simpl in Hl'; try congruence.
    destruct (decide (b = a)) as [->|Hne].
    + rewrite lookup_insert_eq in Hl'. injection Hl' as <-. simpl.
      congruence.
    + rewrite lookup_insert_ne in Hl' by done. congruence.
  - destruct (Signal objv sg (shared sys)) as [[[r m] s1]|] eqn:HS;
      simpl in H; [|done].
    injection H as <- <-. right. split; [done|].
    destruct (Signal_shape _ _ _ _ _ _ HS)
      as [[-> _]|(c & id & b & lb & _ & _ & Hlb & _ & _ & ->)];
      simpl in Hl'; [congruence|].
    destruct (decide (b = a)) as [->|Hne].
    + rewrite lookup_insert_eq in Hl'. injection Hl' as <-. simpl.
      congruence.
    + rewrite lookup_insert_ne in Hl' by done. congruence.
  - destruct (AbortObjCmd objv (shared sys)) as [[r m] s1] eqn:HA.
    injection H as <- <-. right. split; [done|].
    pose proof (Abort_keeps_loops objv (shared sys)) as (_ & E & _).
    rewrite HA in E. simpl in *. congruence.
  - unfold LoopsObjCmd, List in H. injection H as <- <-.
    right. split; [done|congruence].
  - unfold ThreadsObjCmd, List in H. injection H as <- <-.
    right. split; [done|congruence].
Qed.

(** Where a loop command stands changes by its own actions only. *)
Lemma step_pc_other (act : Action) (sys sys' : System) (obs : Obs)
    (a : addr) :
  ¬ loop_action a act →
  step act sys = Some (obs, sys') →
  lpc sys' !! a = lpc sys !! a.
Proof.
  intros Hn H.
  destruct act as
    [th|th|b th now objv|b|b res txt|b|b|b|e' objv|e' status|objv sg|objv| |];
    simpl in H, Hn.
  - unfold InitInterp in H.
    by destruct (threads (shared sys) !! hex th); injection H as <- <-.
  - by injection H as <- <-.
  - destruct (lpc sys !! b); [done|].
    destruct (loopmem (shared sys) !! b); [done|].
    destruct (EnterLoop b th now objv (shared sys)); simpl in H; [|done].
    injection H as <- <-. simpl. by rewrite lookup_insert_ne.
  - destruct (lpc sys !! b) as [[| | |]|]; try done.
    unfold after_check in H.
    destruct (CheckControl b (shared sys)) as [[o s1]|]; simpl in H; [|done].
    injection H as <- <-. simpl. by rewrite lookup_insert_ne.
  - destruct (lpc sys !! b) as [[|sc| |]|]; try done.
    unfold after_check in H.
    destruct (CheckControl_evaluated b res txt (shared sys)) as [[o s1]|];
      simpl in H; [|done].
    injection H as <- <-. simpl. by rewrite lookup_insert_ne.
  - destruct (lpc sys !! b) as [[| | |]|]; try done.
    unfold after_check in H.
    destruct (CheckControl_wakeup b (shared sys)) as [[o s1]|];
      simpl in H; [|done].
    injection H as <- <-. simpl. by rewrite lookup_insert_ne.
  - destruct (lpc sys !! b) as [[| | |r]|]; try done.
    case_decide; [|done]. injection H as <- <-. simpl.
    by rewrite lookup_insert_ne.
  - destruct (lpc sys !! b) as [pc|]; [|done].
    destruct (leaves pc); [|done].
    destruct (LeaveLoop b (shared sys)); simpl in H; [|done].
    injection H as <- <-. simpl. by rewrite lookup_delete_ne.
  - destruct (epc sys !! e'); [done|].
    destruct (evalmem (shared sys) !! e'); [done|].
    unfold after_eval in H.
    destruct (EvalObjCmd e' objv (shared sys)) as [[[r m|b] s1]|];
      simpl in H; [| |done]; by injection H as <- <-.
  - destruct (epc sys !! e') as [b|]; simpl in H; [|done].
    unfold after_eval in H.
    destruct (EvalObjCmd_wakeup e' b status (shared sys))
      as [[[r m|b'] s1]|]; simpl in H; [| |done]; by injection H as <- <-.
  - destruct (Signal objv sg (shared sys)) as [[[r m] s1]|];
      simpl in H; [|done].
    by injection H as <- <-.
  - destruct (AbortObjCmd objv (shared sys)) as [[r m] s1].
    by injection H as <- <-.
  - unfold LoopsObjCmd, List in H. by injection H as <- <-.
  - unfold ThreadsObjCmd, List in H. by injection H as <- <-.
Qed.

(** A paused loop does not get out of [CheckControl]. *)
Lemma paused_not_returned (sys sys' : System) (a : addr) (act : Action)
    (obs : Obs) (r : Z) :
  checkpoint_action a act →
  step act sys = Some (obs, sys') →
  lpc sys' !! a = Some (LP_Checked r) →
  ¬ paused sys' a.
Proof.
  intros Hact Hs Hpc (l & Hl & Hc).
  destruct (checkpoint_returns _ _ _ _ _ _ Hact Hs Hpc) as (m & _ & Hw).
  destruct (CheckControl_while_return _ _ _ _ _ Hw)
    as (_ & l' & Hl' & _ & [(Hc' & _)|(Hc' & _)]); congruence.
Qed.

Lemma checkpoint_pc (sys sys' : System) (a : addr) (act : Action)
    (obs : Obs) :
  checkpoint_action a act →
  step act sys = Some (obs, sys') →
  in_checkpoint sys' a ∨ ∃ r, lpc sys' !! a = Some (LP_Checked r).
Proof.
  intros [->|[(res & txt & ->)| ->]] H; simpl in H.
  - destruct (lpc sys !! a) as [[| | |]|]; try done.
    unfold after_check in H.
    destruct (CheckControl a (shared sys)) as [[o s1]|]; simpl in H; [|done].
    injection H as <- <-. unfold in_checkpoint. simpl.
    rewrite lookup_insert_eq. destruct o; simpl; eauto.
  - destruct (lpc sys !! a) as [[|sc| |]|]; try done.
    unfold after_check in H.
    destruct (CheckControl_evaluated a res txt (shared sys)) as [[o s1]|];
      simpl in H; [|done].
    injection H as <- <-. unfold in_checkpoint. simpl.
    rewrite lookup_insert_eq. destruct o; simpl; eauto.
  - destruct (lpc sys !! a) as [[| | |]|]; try done.
    unfold after_check in H.
    destruct (CheckControl_wakeup a (shared sys)) as [[o s1]|];
      simpl in H; [|done].
    injection H as <- <-. unfold in_checkpoint. simpl.
    rewrite lookup_insert_eq. destruct o; simpl; eauto.
Qed.

(** A loop that enters or is inside [CheckControl] and is paused
    afterwards is inside it afterwards. *)
Lemma checkpoint_holds_paused (sys sys' : System) (a : addr) (act : Action)
    (obs : Obs) :
  checkpoint_action a act →
  step act sys = Some (obs, sys') →
  paused sys' a →
  in_checkpoint sys' a.
Proof.
  intros Hact Hs Hp.
  destruct (checkpoint_pc _ _ _ _ _ Hact Hs) as [H|[r Hr]]; [done|].
  by destruct (paused_not_returned _ _ _ _ _ _ Hact Hs Hr).
Qed.

Lemma in_checkpoint_stays (sys sys' : System) (a : addr) (act : Action)
    (obs : Obs) :
  in_checkpoint sys a →
  step act sys = Some (obs, sys') →
  paused sys' a →
  in_checkpoint sys' a ∧ act ≠ A_CheckControl a.
Proof.
  intros Hin Hs Hp.
  assert (act ≠ A_CheckControl a) as Hne.
  { intros ->. simpl in Hs. by destruct Hin as [Hin|[sc Hin]]; rewrite Hin in Hs. }
  split; [|done].
  assert (Hoff : ¬ loop_action a act → in_checkpoint sys' a).
  { intros Hl. unfold in_checkpoint.
    by rewrite (step_pc_other _ _ _ _ _ Hl Hs). }
  assert (Hown : checkpoint_action a act → in_checkpoint sys' a).
  { intros Hc. by eapply checkpoint_holds_paused. }
  destruct act as
    [th|th|b th now objv|b|b res txt|b|b|b|e' objv|e' status|objv sg|objv| |];
    try (apply Hoff; simpl; tauto);
    (destruct (decide (b = a)) as [->|Hb]; [|by apply Hoff]).
  - simpl in Hs. by destruct Hin as [Hin|[sc Hin]]; rewrite Hin in Hs.
  - apply Hown. by left.
  - apply Hown. right; left. by eexists _, _.
  - apply Hown. by right; right.
  - simpl in Hs. by destruct Hin as [Hin|[sc Hin]]; rewrite Hin in Hs.
  - simpl in Hs. by destruct Hin as [Hin|[sc Hin]]; rewrite Hin in Hs.
Qed.

Lemma paused_run_start (a : addr) (sys sys' : System) (acts : list Action) :
  paused_run a sys acts sys' → paused sys a.
Proof. by intros []. Qed.

Lemma paused_run_end (a : addr) (sys sys' : System) (acts : list Action) :
  paused_run a sys acts sys' → paused sys' a.
Proof. induction 1; done. Qed.

Lemma paused_step_spins (a : addr) (sys sys1 : System) (act : Action)
    (obs : Obs) (n : Z) :
  step act sys = Some (obs, sys1) →
  paused sys1 a →
  spins_of sys a = Some n →
  (act = A_CheckControl a ∧ spins_of sys1 a = Some ((n + 1) mod UINT_MOD)
   ∧ in_checkpoint sys1 a)
  ∨ (act ≠ A_CheckControl a ∧ spins_of sys1 a = Some n).
Proof.
  intros Hs Hp Hn. pose proof Hp as (l1 & Hl1 & Hc1).
  unfold spins_of in *.
  destruct (loopmem (shared sys) !! a) as [l|] eqn:Hl; [|done].
  injection Hn as <-. rewrite Hl1. simpl.
  destruct (spins_step _ _ _ _ _ _ _ Hs Hl Hl1) as [[-> E]|[Hne E]].
  - left. split_and!; [done|by rewrite E|].
    eapply checkpoint_holds_paused; [|done..]. by left.
  - right. split; [done|by rewrite E].
Qed.

Lemma paused_run_inside (a : addr) (sys sys' : System) (acts : list Action)
    (n : Z) :
  paused_run a sys acts sys' →
  in_checkpoint sys a →
  spins_of sys a = Some n →
  spins_of sys' a = Some n ∧ in_checkpoint sys' a.
Proof.
  induction 1 as [sys Hp|sys sys1 sys2 act obs acts Hp Hs Hrun IH];
    intros Hin Hn; [done|].
  pose proof (paused_run_start _ _ _ _ Hrun) as Hp1.
  destruct (in_checkpoint_stays _ _ _ _ _ Hin Hs Hp1) as [Hin1 Hne].
  destruct (paused_step_spins _ _ _ _ _ _ Hs Hp1 Hn) as [[-> _]|[_ Hn1]];
    [done|].
  by apply IH.
Qed.

(** C7, as the code has it.  While the control flag of a loop stays at
    [LOOP_PAUSE], whatever the threads of the server do: the counter
    [spins] advances at most once, namely when the loop, paused while it
    was in its body, enters its next checkpoint, where it then stays; and
    once the loop is inside the checkpoint the counter does not advance at
    all.  In any state the counter of a loop is written only by that
    loop's entry into [CheckControl], which adds one (modulo [2 ^ 32]). *)
Theorem paused_spins_hold (a : addr) (sys sys' : System)
    (acts : list Action) (n : Z) :
  paused_run a sys acts sys' →
  spins_of sys a = Some n →
  (spins_of sys' a = Some n
   ∨ (spins_of sys' a = Some ((n + 1) mod UINT_MOD)
      ∧ in_checkpoint sys' a))
  ∧ (in_checkpoint sys a → spins_of sys' a = Some n ∧ in_checkpoint sys' a)
  ∧ (∀ act obs sys1 l l1,
       step act sys = Some (obs, sys1) →
       loopmem (shared sys) !! a = Some l →
       loopmem (shared sys1) !! a = Some l1 →
       (act = A_CheckControl a ∧ spins l1 = (spins l + 1) mod UINT_MOD)
       ∨ (act ≠ A_CheckControl a ∧ spins l1 = spins l)).
Proof.
  intros Hrun Hn. split_and!.
  - revert n Hn.
    induction Hrun as [sys Hp|sys sys1 sys2 act obs acts Hp Hs Hrun IH];
      intros n Hn; [by left|].
    pose proof (paused_run_start _ _ _ _ Hrun) as Hp1.
    destruct (paused_step_spins _ _ _ _ _ _ Hs Hp1 Hn)
      as [(-> & Hn1 & Hin1)|[_ Hn1]].
    + right. by apply (paused_run_inside a sys1 sys2 acts).
    + by apply IH.
  - intros Hin. by apply (paused_run_inside a sys sys' acts).
  - intros act obs sys1 l l1 Hs Hl Hl1. by eapply spins_step.
Qed.

(** The claim as written fails: a loop paused while in its body (one
    checkpoint passed, so [spins = 1]) enters its next checkpoint with the
    flag still at [LOOP_PAUSE], and its counter goes to 2. *)
Lemma paused_spins_advance_once :
  ∃ sys' l l',
    reachable (after acts_paused_in_body)
    ∧ loopmem (shared (after acts_paused_in_body)) !! 1%nat = Some l
    ∧ control l = LOOP_PAUSE ∧ spins l = 1
    ∧ step (A_CheckControl 1%nat) (after acts_paused_in_body)
      = Some (O_None, sys')
    ∧ loopmem (shared sys') !! 1%nat = Some l'
    ∧ control l' = LOOP_PAUSE ∧ spins l' = 2.
Proof.
  eexists _, _, _. split_and!.
  - apply after_reachable. vm_compute. by eexists.
  - vm_compute. reflexivity.
  - reflexivity.
  - reflexivity.
  - vm_compute. reflexivity.
  - vm_compute. reflexivity.
  - reflexivity.
  - reflexivity.
Qed.

Lemma paused_iff (sys : System) (a : addr) :
  paused sys a
  ↔ (control <$> loopmem (shared sys) !! a) = Some LOOP_PAUSE.
Proof.
  unfold paused. split.
  - intros (l & Hl & Hc). rewrite Hl. simpl. by rewrite Hc.
  - destruct (loopmem (shared sys) !! a) as [l|]; [|done].
    intros [= E]. by exists l.
Qed.

Lemma paused_spins_hold_witness :
  lpc (after acts_paused_blocked) !! 1%nat = Some LP_CondWait
  ∧ spins_of (after acts_paused_blocked) 1%nat = Some 2
  ∧ ∃ sys',
      run [A_LoopWakeup 1%nat; A_Loops;
           A_Signal ["loopctl_pause"; "0"] LOOP_PAUSE; A_LoopWakeup 1%nat]
        (after acts_paused_blocked) = Some sys'
      ∧ spins_of sys' 1%nat = Some 2
      ∧ in_checkpoint sys' 1%nat.
Proof.
  split_and!; [vm_compute; reflexivity..|].
  set (acts := [A_LoopWakeup 1%nat; A_Loops;
                A_Signal ["loopctl_pause"; "0"] LOOP_PAUSE;
                A_LoopWakeup 1%nat]).
  set (sys' := default init_sys (run acts (after acts_paused_blocked))).
  exists sys'. split; [vm_compute; reflexivity|].
  apply (proj1 (proj2 (paused_spins_hold 1%nat (after acts_paused_blocked)
                         sys' acts 2 ltac:(
    repeat (eapply paused_run_cons;
            [apply paused_iff; vm_compute; reflexivity
            |vm_compute; reflexivity|]);
    apply paused_run_nil; apply paused_iff; vm_compute; reflexivity)
    ltac:(vm_compute; reflexivity)))).
  left. vm_compute. reflexivity.
Defined.

(** * Further properties of the commands *)

(** ** [Signal]: [loopctl_pause], [loopctl_run], [loopctl_cancel] *)

(** X1.  [Signal] with an id that is not in the table fails with "no such loop
    id" and writes nothing; with anything but one argument it fails with
    the usage message and writes nothing; for a loop in the table it sets
    the control flag and nothing else of any loop, broadcasts once, and
    sending the same signal again only broadcasts again. *)
Theorem Signal_spec (c id : string) (sg : LoopControl) (s : State) :
  (loops s !! id = None →
     Signal [c; id] sg s = Some (TCL_ERROR, "no such loop id: " +:+ id, s))
  ∧ (∀ objv, length objv ≠ 2%nat →
       Signal objv sg s
       = Some (TCL_ERROR, Tcl_WrongNumArgs objv "loop-id", s))
  ∧ (∀ a l,
       loops s !! id = Some a → loopmem s !! a = Some l →
       ∃ s' s'',
         Signal [c; id] sg s = Some (TCL_OK, "", s')
         ∧ loopmem s' = <[a := with_control sg l]> (loopmem s)
         ∧ loops s' = loops s ∧ evalmem s' = evalmem s
         ∧ threads s' = threads s ∧ next s' = next s ∧ log s' = log s
         ∧ broadcasts s' = S (broadcasts s)
         ∧ Signal [c; id] sg s' = Some (TCL_OK, "", s'')
         ∧ s'' = Ns_CondBroadcast s').
Proof.
  split_and!.
  - intros H. unfold Signal, GetLoop. by rewrite H.
  - intros objv H. unfold Signal.
    by destruct objv as [|x [|y [|z rest]]].
  - intros a l Hid Hl.
    set (s' := Ns_CondBroadcast
                 (set_loopmem (<[a := with_control sg l]>) s)).
    assert (H1 : Signal [c; id] sg s = Some (TCL_OK, "", s')).
    { unfold Signal, GetLoop. by rewrite Hid, Hl. }
    exists s', (Ns_CondBroadcast s'). split_and!; try done.
    unfold Signal, GetLoop.
    replace (loops s') with (loops s) by done. rewrite Hid.
    replace (loopmem s') with (<[a := with_control sg l]> (loopmem s))
      by done.
    rewrite lookup_insert_eq. simpl. repeat f_equal.
    unfold s', Ns_CondBroadcast, set_loopmem. simpl. f_equal.
    rewrite insert_insert_eq. by destruct l.
Qed.

(** [loopctl_pause] with the id of no loop and with the id of the loop
    that has just entered. *)
Lemma Signal_spec_witness :
  Signal ["loopctl_pause"; "5"] LOOP_PAUSE (shared (after acts_one_loop))
  = Some (TCL_ERROR, "no such loop id: 5", shared (after acts_one_loop))
  ∧ ∃ s',
      Signal ["loopctl_pause"; "0"] LOOP_PAUSE (shared (after acts_one_loop))
      = Some (TCL_OK, "", s')
      ∧ (control <$> loopmem s' !! 1%nat) = Some LOOP_PAUSE.
Proof.
  destruct (Signal_spec "loopctl_pause" "5" LOOP_PAUSE
              (shared (after acts_one_loop))) as (H1 & _ & _).
  destruct (Signal_spec "loopctl_pause" "0" LOOP_PAUSE
              (shared (after acts_one_loop))) as (_ & _ & H2).
  split.
  - apply H1. vm_compute. reflexivity.
  - destruct (H2 1%nat
                (mkLoopData LOOP_RUN "0" 7 0 t0 "0" objv_while None))
      as (s' & s'' & HS & Hm & _).
    + vm_compute. reflexivity.
    + vm_compute. reflexivity.
    + exists s'. split; [exact HS|]. rewrite Hm.
      by rewrite lookup_insert_eq.
Defined.

(** ** No command reads a structure that is gone *)

(** X2.  In every state the server can reach, every action a thread is in a
    position to take is carried out: the [LoopData] and [EvalData]
    structures it follows pointers to (from the table, from [evalPtr],
    from the controller's [loopPtr]) are all still alive.  [EnterLoop]
    needs the table to have fewer than 2^32 keys. *)
Theorem enabled_step (act : Action) (sys : System) :
  reachable sys → enabled act sys → is_Some (step act sys).
Proof.
  intros Hr Hen. pose proof (reachable_Inv _ Hr) as HI.
  destruct HI as [Hnext Htable Hmem Hlpc Hatt Hepc Hevm].
  destruct act as [th|th|a th now objv|a|a res txt|a|a|a|e objv|e status
                  |objv sg|objv| |]; simpl in Hen; unfold step.
  - by eexists.
  - by eexists.
  - destruct Hen as [Hfresh Hsize]. rewrite Hfresh.
    destruct (loopmem (shared sys) !! a) as [l|] eqn:Hl.
    { assert (Hs : is_Some (lpc sys !! a)) by (apply Hlpc; by eexists).
      rewrite Hfresh in Hs. by destruct Hs. }
    destruct (free_key_exists (loops (shared sys)) (next (shared sys)) Hsize)
      as (k & Hk & Hfree).
    destruct (probe_Some _ _ _ Hnext Hk Hfree) as (k0 & _ & _ & _ & Hp).
    rewrite EnterLoop_unfold, Hp. by eexists.
  - rewrite Hen.
    assert (Hs : is_Some (loopmem (shared sys) !! a))
      by (apply Hlpc; by eexists).
    destruct Hs as [l Hl]. unfold CheckControl. rewrite Hl. simpl.
    edestruct (CheckControl_while_total a
                 (set_loopmem
                    (<[a := with_spins ((spins l + 1) mod UINT_MOD) l]>)
                    (shared sys))) as (o & Ho & _).
    { simpl. apply lookup_insert_eq. }
    { simpl. intros e He. by destruct (Hatt a l e Hl He) as (_ & ev & -> & _). }
    rewrite Ho. by eexists.
  - destruct Hen as [sc Hpc]. rewrite Hpc.
    assert (Hs : is_Some (loopmem (shared sys) !! a))
      by (apply Hlpc; by eexists).
    destruct Hs as [l Hl]. unfold CheckControl_evaluated.
    set (s0 := if decide (res ≠ TCL_OK)
               then Ns_Log (LogErrorInfo txt) (shared sys) else shared sys).
    assert (Hl0 : loopmem s0 !! a = Some l) by (unfold s0; by case_decide).
    assert (He0 : evalmem s0 = evalmem (shared sys))
      by (unfold s0; by case_decide).
    rewrite Hl0. simpl.
    destruct (evalPtr l) as [e|] eqn:He; simpl.
    + destruct (Hatt a l e Hl He) as (_ & ev & Hev & _).
      rewrite He0, Hev. simpl. case_decide; [by eexists|].
      edestruct (CheckControl_while_total a
        (Ns_CondBroadcast
           (set_loopmem (<[a := with_evalPtr None l]>)
              (set_evalmem
                 (<[e := with_state EVAL_DONE
                           (with_result (result ev +:+ txt) ev)]>) s0))))
        as (o & Ho & _).
      { simpl. apply lookup_insert_eq. }
      { simpl. done. }
      rewrite Ho. by eexists.
    + case_decide; [by eexists|].
      edestruct (CheckControl_while_total a (Ns_Log (LogDropped txt) s0))
        as (o & Ho & _).
      { simpl. exact Hl0. }
      { rewrite He. done. }
      rewrite Ho. by eexists.
  - rewrite Hen.
    assert (Hs : is_Some (loopmem (shared sys) !! a))
      by (apply Hlpc; by eexists).
    destruct Hs as [l Hl]. unfold CheckControl_wakeup.
    edestruct (CheckControl_while_total a (shared sys)) as (o & Ho & _).
    { exact Hl. }
    { intros e He. by destruct (Hatt a l e Hl He) as (_ & ev & -> & _). }
    rewrite Ho. by eexists.
  - rewrite Hen. simpl. by eexists.
  - destruct Hen as (pc & Hpc & Hlv). rewrite Hpc, Hlv.
    assert (Hs : is_Some (loopmem (shared sys) !! a))
      by (apply Hlpc; by eexists).
    destruct Hs as [l Hl]. unfold LeaveLoop. rewrite Hl. simpl.
    unfold drop_pending. destruct (evalPtr l) as [e|] eqn:He.
    + destruct (Hatt a l e Hl He) as (_ & ev & Hev & _).
      rewrite Hev. by eexists.
    + by eexists.
  - rewrite Hen.
    destruct (evalmem (shared sys) !! e) as [ev|] eqn:Hev.
    { assert (Hs : is_Some (epc sys !! e)) by (apply Hevm; by eexists).
      rewrite Hen in Hs. by destruct Hs. }
    unfold EvalObjCmd.
    destruct objv as [|c [|id [|sc [|x rest]]]]; try by eexists.
    unfold GetLoop. destruct (loops (shared sys) !! id) as [a|] eqn:Hid;
      [|by eexists].
    destruct (Htable id a Hid) as (l & Hl & _). rewrite Hl. simpl.
    destruct (evalPtr l); [by eexists|].
    unfold EvalObjCmd_wait. simpl.
    rewrite (lookup_insert_eq (evalmem (shared sys))). simpl. by eexists.
  - destruct Hen as [a Ha]. rewrite Ha. simpl.
    destruct (Hepc e a Ha) as (ev & Hev & Hw).
    unfold EvalObjCmd_wakeup, EvalObjCmd_wait. rewrite Hev. simpl.
    case_decide; [by eexists|].
    destruct (state ev) eqn:Hst; try by eexists.
    destruct Hw as (l & Hl & _); [done|]. rewrite Hl. by eexists.
  - unfold Signal. destruct objv as [|c [|id [|x rest]]]; try by eexists.
    unfold GetLoop. destruct (loops (shared sys) !! id) as [a|] eqn:Hid;
      [|by eexists].
    destruct (Htable id a Hid) as (l & Hl & _). rewrite Hl. by eexists.
  - destruct (AbortObjCmd objv (shared sys)) as [[r m] s']. by eexists.
  - by eexists.
  - by eexists.
Qed.

(** A loop command that has just entered its loop and is about to call
    [CheckControl] is in a position to do so. *)
Lemma enabled_step_witness :
  is_Some (step (A_CheckControl 1%nat) (after acts_one_loop)).
Proof.
  apply enabled_step.
  - apply after_reachable. vm_compute. by eexists.
  - vm_compute. reflexivity.
Defined.

(** ** One request per loop *)

(** X3.  In every state the server can reach, a request attached to a loop is
    the only one in play for it: its controller is blocked in
    [EvalObjCmd] with [loopPtr] at that loop; the request is in state
    [EVAL_WAIT] with an empty result; no other loop has it attached; and
    every other controller that still names the loop has a request that
    is already settled (done or dropped). *)
Theorem one_request_per_loop (sys : System) (a : addr) (l : LoopData)
    (e : addr) :
  reachable sys →
  loopmem (shared sys) !! a = Some l →
  evalPtr l = Some e →
  epc sys !! e = Some a
  ∧ (∃ ev, evalmem (shared sys) !! e = Some ev
       ∧ state ev = EVAL_WAIT ∧ result ev = "")
  ∧ (∀ b lb, loopmem (shared sys) !! b = Some lb →
       evalPtr lb = Some e → b = a)
  ∧ (∀ e' ev', epc sys !! e' = Some a →
       evalmem (shared sys) !! e' = Some ev' →
       e' ≠ e → state ev' ≠ EVAL_WAIT).
Proof.
  intros Hr Hl He. pose proof (reachable_Inv _ Hr) as HI.
  pose proof (reachable_as_set_up _ Hr) as HS.
  destruct (inv_attached _ HI a l e Hl He) as (Hepc & ev & Hev & Hst).
  split_and!.
  - exact Hepc.
  - exists ev. split_and!; try done.
    destruct (HS e ev Hev) as [_ Hres]. apply Hres. by rewrite Hst.
  - intros b lb Hlb Heb.
    destruct (inv_attached _ HI b lb e Hlb Heb) as (Hepc' & _). congruence.
  - intros e' ev' Hepc' Hev' Hne Hw.
    destruct (inv_epc _ HI e' a Hepc') as (ev2 & Hev2 & Hwait).
    assert (ev2 = ev') by congruence. subst ev2.
    destruct (Hwait Hw) as (l2 & Hl2 & He2). congruence.
Qed.

(** The request of the controller at address 9 is the one attached to the
    loop at address 1. *)
Lemma one_request_per_loop_witness :
  epc (after acts_pending) !! 9%nat = Some 1%nat
  ∧ ∃ ev, evalmem (shared (after acts_pending)) !! 9%nat = Some ev
      ∧ state ev = EVAL_WAIT ∧ result ev = "".
Proof.
  destruct (one_request_per_loop (after acts_pending) 1%nat
              (mkLoopData LOOP_RUN "0" 7 0 t0 "0" objv_while (Some 9%nat))
              9%nat) as (H1 & H2 & _).
  - apply after_reachable. vm_compute. by eexists.
  - vm_compute. reflexivity.
  - reflexivity.
  - split; [exact H1|exact H2].
Defined.

(** ** Waking up early, and resuming a paused loop *)

(** X4.  A controller woken with [NS_OK] while its request is still in state
    [EVAL_WAIT] goes back to waiting and changes nothing. *)
Theorem early_wakeup_waits_on (sys : System) (e a : addr) (ev : EvalData) :
  epc sys !! e = Some a →
  evalmem (shared sys) !! e = Some ev →
  state ev = EVAL_WAIT →
  step (A_EvalWakeup e NS_OK) sys = Some (O_None, sys).
Proof.
  intros Hepc Hev Hst. unfold step. rewrite Hepc. simpl.
  unfold EvalObjCmd_wakeup, EvalObjCmd_wait. rewrite Hev. simpl.
  rewrite decide_True by done. simpl.
  rewrite insert_id by done. by rewrite sys_eta.
Qed.

Lemma early_wakeup_waits_on_witness :
  step (A_EvalWakeup 9%nat NS_OK) (after acts_pending)
  = Some (O_None, after acts_pending).
Proof.
  apply (early_wakeup_waits_on (after acts_pending) 9%nat 1%nat
           (mkEvalData EVAL_WAIT TCL_OK "set x 1" "")).
  - vm_compute. reflexivity.
  - vm_compute. reflexivity.
  - reflexivity.
Defined.



(** ** A request from end to end *)

(** X6.  A controller sends a script to a loop that is in its body and has no
    request attached.  The request is accepted; at its next checkpoint the
    loop runs exactly that script; when the script returns [TCL_OK] with
    the text [txt], the checkpoint goes on as one without a request would
    have; the controller, woken with any status, returns [TCL_OK] and
    [txt]; and the server is then in the state the plain checkpoint would
    have left, but for two more broadcasts on the condition variable. *)
Theorem eval_round_trip (sys : System) (a : addr) (l : LoopData)
    (c id sc txt : string) (e : addr) (status : Ns_ReturnCode) :
  reachable sys →
  lpc sys !! a = Some LP_Body →
  loops (shared sys) !! id = Some a →
  loopmem (shared sys) !! a = Some l →
  evalPtr l = None →
  epc sys !! e = None →
  ∃ sys1 sys2 sys3 sys4 plain obs,
    step (A_Eval e [c; id; sc]) sys = Some (O_None, sys1)
    ∧ step (A_CheckControl a) sys1 = Some (O_None, sys2)
    ∧ lpc sys2 !! a = Some (LP_Eval sc)
    ∧ step (A_Evaluated a TCL_OK txt) sys2 = Some (obs, sys3)
    ∧ step (A_EvalWakeup e status) sys3 = Some (O_Cmd TCL_OK txt, sys4)
    ∧ step (A_CheckControl a) sys = Some (obs, plain)
    ∧ sys4 = mkSys (Ns_CondBroadcast (Ns_CondBroadcast (shared plain)))
               (lpc plain) (epc plain).
Proof.
  intros Hr Hpc Hid Hl He Hepc.
  pose proof (reachable_Inv _ Hr) as HI.
  assert (Hev : evalmem (shared sys) !! e = None).
  { destruct (evalmem (shared sys) !! e) eqn:Hev; [|done].
    assert (Hs : is_Some (epc sys !! e))
      by (apply (inv_evalmem _ HI); by eexists).
    rewrite Hepc in Hs. by destruct Hs. }
  set (n := (spins l + 1) mod UINT_MOD).
  set (o := if decide (control l = LOOP_PAUSE) then CC_CondWait
            else if decide (control l = LOOP_CANCEL)
                 then CC_Return TCL_ERROR (Some canceled_msg)
                 else CC_Return TCL_OK None).
  set (sp := set_loopmem (<[a := with_spins n l]>) (shared sys)).
  assert (Hplain : step (A_CheckControl a) sys
                   = Some (obs_of o,
                           mkSys sp (<[a := pc_of o]> (lpc sys)) (epc sys))).
  { unfold step. rewrite Hpc. unfold CheckControl. rewrite Hl. simpl.
    unfold CheckControl_while. simpl. rewrite lookup_insert_eq. simpl.
    rewrite He. unfold o. by repeat case_decide. }
  set (s1 := Ns_CondBroadcast
               (set_loopmem (<[a := with_evalPtr (Some e) l]>)
                  (set_evalmem
                     (<[e := mkEvalData EVAL_WAIT TCL_OK sc ""]>)
                     (shared sys)))).
  set (sys1 := mkSys s1 (lpc sys) (<[e := a]> (epc sys))).
  assert (H1 : step (A_Eval e [c; id; sc]) sys = Some (O_None, sys1)).
  { unfold step. rewrite Hepc, Hev. unfold EvalObjCmd, GetLoop.
    rewrite Hid, Hl. simpl. rewrite He. unfold EvalObjCmd_wait. simpl.
    rewrite (lookup_insert_eq (evalmem (shared sys))). simpl. reflexivity. }
  set (l2 := with_spins n (with_evalPtr (Some e) l)).
  set (s2 := set_loopmem (<[a := l2]>) s1).
  set (sys2 := mkSys s2 (<[a := LP_Eval sc]> (lpc sys)) (epc sys1)).
  assert (H2 : step (A_CheckControl a) sys1 = Some (O_None, sys2)).
  { unfold step. simpl. rewrite Hpc. unfold CheckControl. simpl.
    rewrite lookup_insert_eq. simpl. unfold CheckControl_while. simpl.
    rewrite lookup_insert_eq. simpl.
    rewrite (lookup_insert_eq (evalmem (shared sys))). simpl. reflexivity. }
  set (s3 := Ns_CondBroadcast
               (set_loopmem (<[a := with_evalPtr None l2]>)
                  (set_evalmem
                     (<[e := mkEvalData EVAL_DONE TCL_OK sc txt]>) s2))).
  set (sys3 := mkSys s3 (<[a := pc_of o]> (lpc sys2)) (epc sys2)).
  assert (H3 : step (A_Evaluated a TCL_OK txt) sys2
               = Some (obs_of o, sys3)).
  { unfold step. simpl. rewrite lookup_insert_eq.
    unfold CheckControl_evaluated. simpl. rewrite lookup_insert_eq. simpl.
    rewrite (lookup_insert_eq (evalmem (shared sys))). simpl.
    unfold o. case_decide; [reflexivity|].
    unfold CheckControl_while. simpl. rewrite lookup_insert_eq. simpl.
    rewrite decide_False by done. by case_decide. }
  set (sys4 := mkSys (set_evalmem (delete e) s3) (lpc sys3)
                 (delete e (epc sys3))).
  assert (H4 : step (A_EvalWakeup e status) sys3
               = Some (O_Cmd TCL_OK txt, sys4)).
  { rewrite (EvalWakeup_settled sys3 e a
               (mkEvalData EVAL_DONE TCL_OK sc txt) status); try done.
    - simpl. apply lookup_insert_eq.
    - simpl. apply lookup_insert_eq. }
  exists sys1, sys2, sys3, sys4,
    (mkSys sp (<[a := pc_of o]> (lpc sys)) (epc sys)), (obs_of o).
  split_and!; try done.
  - simpl. apply lookup_insert_eq.
  - unfold sys4, sys3, sys2, sys1. cbn [shared lpc epc]. f_equal.
    + apply state_ext; try reflexivity.
      * cbn. rewrite !insert_insert_eq. f_equal.
        destruct l; simpl in *; by subst.
      * cbn. rewrite insert_insert_eq, delete_insert_eq. by apply delete_id.
    + by rewrite insert_insert_eq.
    + rewrite delete_insert_eq. by apply delete_id.
Qed.

Lemma eval_round_trip_witness :
  ∃ sys1 sys2 sys3 sys4,
    step (A_Eval 9%nat ["loopctl_eval"; "0"; "set x 1"]) (after acts_one_loop)
    = Some (O_None, sys1)
    ∧ step (A_CheckControl 1%nat) sys1 = Some (O_None, sys2)
    ∧ step (A_Evaluated 1%nat TCL_OK "1") sys2
      = Some (O_Check TCL_OK None, sys3)
    ∧ step (A_EvalWakeup 9%nat NS_OK) sys3 = Some (O_Cmd TCL_OK "1", sys4)
    ∧ evalmem (shared sys4) = ∅.
Proof.
  destruct (eval_round_trip (after acts_one_loop) 1%nat
              (mkLoopData LOOP_RUN "0" 7 0 t0 "0" objv_while None)
              "loopctl_eval" "0" "set x 1" "1" 9%nat NS_OK)
    as (sys1 & sys2 & sys3 & sys4 & plain & obs
        & H1 & H2 & _ & H3 & H4 & Hp & Heq).
  - apply after_reachable. vm_compute. by eexists.
  - vm_compute. reflexivity.
  - vm_compute. reflexivity.
  - vm_compute. reflexivity.
  - reflexivity.
  - vm_compute. reflexivity.
  - exists sys1, sys2, sys3, sys4.
    assert (Hobs : Some (obs, plain)
                   = step (A_CheckControl 1%nat) (after acts_one_loop))
      by (symmetry; exact Hp).
    vm_compute in Hobs. injection Hobs as -> ->.
    split_and!; [exact H1|exact H2|exact H3|exact H4|].
    rewrite Heq. vm_compute. reflexivity.
Defined.

(** ** A result that arrives after its request has timed out *)

(** X7.  The loop is running the script [sc] of the request at [e] when that
    request times out, and a second controller then sends [sc2] to the
    same loop.  The second request is accepted; when [sc] returns, its
    text [txt] is written into the second request, which is marked done
    and detached; the second controller returns [TCL_OK] with [txt], and
    the checkpoint goes on without running [sc2]. *)
Theorem late_result_answers_next_request (sys : System) (a : addr)
    (l : LoopData) (e e2 : addr) (c id sc sc2 txt : string) (res : Z)
    (status : Ns_ReturnCode) :
  reachable sys →
  lpc sys !! a = Some (LP_Eval sc) →
  loops (shared sys) !! id = Some a →
  loopmem (shared sys) !! a = Some l →
  evalPtr l = Some e →
  epc sys !! e2 = None →
  ∃ sys1 sys2 sys3 sys4 obs,
    step (A_EvalWakeup e NS_TIMEOUT) sys
    = Some (O_Cmd TCL_ERROR "timeout: result dropped", sys1)
    ∧ step (A_Eval e2 [c; id; sc2]) sys1 = Some (O_None, sys2)
    ∧ step (A_Evaluated a res txt) sys2 = Some (obs, sys3)
    ∧ evalmem (shared sys3) !! e2
      = Some (mkEvalData EVAL_DONE TCL_OK sc2 txt)
    ∧ loopmem (shared sys3) !! a = Some (with_evalPtr None l)
    ∧ (∀ x, lpc sys3 !! a ≠ Some (LP_Eval x))
    ∧ step (A_EvalWakeup e2 status) sys3 = Some (O_Cmd TCL_OK txt, sys4).
Proof.
  intros Hr Hpc Hid Hl He Hepc2.
  pose proof (reachable_Inv _ Hr) as HI.
  destruct (inv_attached _ HI a l e Hl He) as (Hepc & ev & Hev & Hst).
  assert (Hne : e2 ≠ e) by (intros ->; congruence).
  assert (Hev2 : evalmem (shared sys) !! e2 = None).
  { destruct (evalmem (shared sys) !! e2) eqn:Hx; [|done].
    assert (Hs : is_Some (epc sys !! e2))
      by (apply (inv_evalmem _ HI); by eexists).
    rewrite Hepc2 in Hs. by destruct Hs. }
  set (l0 := with_evalPtr None l).
  set (s1 := set_evalmem (delete e)
               (set_loopmem (<[a := l0]>) (shared sys))).
  set (sys1 := mkSys s1 (lpc sys) (delete e (epc sys))).
  assert (H1 : step (A_EvalWakeup e NS_TIMEOUT) sys
               = Some (O_Cmd TCL_ERROR "timeout: result dropped", sys1)).
  { unfold step. rewrite Hepc. simpl.
    unfold EvalObjCmd_wakeup, EvalObjCmd_wait. rewrite Hev. simpl.
    rewrite Hst, Hl. reflexivity. }
  set (ev2 := mkEvalData EVAL_WAIT TCL_OK sc2 "").
  set (s2 := Ns_CondBroadcast
               (set_loopmem (<[a := with_evalPtr (Some e2) l0]>)
                  (set_evalmem (<[e2 := ev2]>) s1))).
  set (sys2 := mkSys s2 (lpc sys) (<[e2 := a]> (epc sys1))).
  assert (H2 : step (A_Eval e2 [c; id; sc2]) sys1 = Some (O_None, sys2)).
  { unfold step.
    replace (epc sys1 !! e2) with (epc sys !! e2)
      by (simpl; by rewrite lookup_delete_ne).
    replace (evalmem (shared sys1) !! e2) with (evalmem (shared sys) !! e2)
      by (simpl; by rewrite lookup_delete_ne).
    rewrite Hepc2, Hev2. unfold EvalObjCmd, GetLoop.
    replace (loops (shared sys1)) with (loops (shared sys)) by done.
    rewrite Hid.
    replace (loopmem (shared sys1) !! a) with (Some l0)
      by (simpl; by rewrite lookup_insert_eq).
    simpl. unfold EvalObjCmd_wait. simpl.
    rewrite (lookup_insert_eq (delete e (evalmem (shared sys)))). simpl.
    reflexivity. }
  set (s0 := if decide (res ≠ TCL_OK)
             then Ns_Log (LogErrorInfo txt) s2 else s2).
  set (s3 := Ns_CondBroadcast
               (set_loopmem
                  (<[a := with_evalPtr None (with_evalPtr (Some e2) l0)]>)
                  (set_evalmem
                     (<[e2 := mkEvalData EVAL_DONE TCL_OK sc2 txt]>) s0))).
  set (o := if decide (control l = LOOP_PAUSE) then CC_CondWait
            else if decide (control l = LOOP_CANCEL)
                 then CC_Return TCL_ERROR (Some canceled_msg)
                 else CC_Return TCL_OK None).
  set (sys3 := mkSys s3 (<[a := pc_of o]> (lpc sys2)) (epc sys2)).
  assert (Hl0 : loopmem s0 !! a = Some (with_evalPtr (Some e2) l0)).
  { unfold s0. case_decide; simpl; apply lookup_insert_eq. }
  assert (He0 : evalmem s0 !! e2 = Some ev2).
  { unfold s0.
    case_decide; simpl;
      apply (lookup_insert_eq (delete e (evalmem (shared sys)))). }
  assert (H3 : step (A_Evaluated a res txt) sys2 = Some (obs_of o, sys3)).
  { unfold step.
    replace (lpc sys2 !! a) with (Some (LP_Eval sc)) by done.
    unfold CheckControl_evaluated. change (shared sys2) with s2. fold s0.
    rewrite Hl0. simpl. rewrite He0. simpl. fold s3. unfold o.
    case_decide; [reflexivity|].
    unfold CheckControl_while.
    replace (loopmem s3 !! a)
      with (Some (with_evalPtr None (with_evalPtr (Some e2) l0)))
      by (symmetry; apply lookup_insert_eq).
    simpl. rewrite decide_False by done. by case_decide. }
  set (sys4 := mkSys (set_evalmem (delete e2) s3) (lpc sys3)
                 (delete e2 (epc sys3))).
  exists sys1, sys2, sys3, sys4, (obs_of o). split_and!; try done.
  - simpl. apply lookup_insert_eq.
  - simpl. by rewrite lookup_insert_eq.
  - intros x. simpl. rewrite lookup_insert_eq. unfold o.
    by repeat case_decide.
  - rewrite (EvalWakeup_settled sys3 e2 a
               (mkEvalData EVAL_DONE TCL_OK sc2 txt) status); try done.
    + simpl. apply lookup_insert_eq.
    + simpl. apply lookup_insert_eq.
Qed.

(** The script "set x 1" of the controller at 9 is running when that
    controller times out and the controller at 10 sends "set y 2": the
    latter gets the "1" of the former's script. *)
Lemma late_result_answers_next_request_witness :
  ∃ sys1 sys2 sys3 sys4 obs,
    step (A_EvalWakeup 9%nat NS_TIMEOUT) (after acts_evaluating)
    = Some (O_Cmd TCL_ERROR "timeout: result dropped", sys1)
    ∧ step (A_Eval 10%nat ["loopctl_eval"; "0"; "set y 2"]) sys1
      = Some (O_None, sys2)
    ∧ step (A_Evaluated 1%nat TCL_OK "1") sys2 = Some (obs, sys3)
    ∧ step (A_EvalWakeup 10%nat NS_OK) sys3 = Some (O_Cmd TCL_OK "1", sys4).
Proof.
  destruct (late_result_answers_next_request (after acts_evaluating) 1%nat
              (mkLoopData LOOP_RUN "0" 7 1 t0 "0" objv_while (Some 9%nat))
              9%nat 10%nat "loopctl_eval" "0" "set x 1" "set y 2" "1"
              TCL_OK NS_OK)
    as (sys1 & sys2 & sys3 & sys4 & obs & H1 & H2 & H3 & _ & _ & _ & H4).
  - apply after_reachable. vm_compute. by eexists.
  - vm_compute. reflexivity.
  - vm_compute. reflexivity.
  - vm_compute. reflexivity.
  - reflexivity.
  - vm_compute. reflexivity.
  - by exists sys1, sys2, sys3, sys4, obs.
Defined.

(** ** The ids given out before the counter wraps *)

Lemma step_next_keeps (act : Action) (sys sys' : System) (obs : Obs) :
  keeps_registry act →
  step act sys = Some (obs, sys') →
  next (shared sys') = next (shared sys).
Proof.
  intros Hkeep H.
  destruct act as
    [th|th|b th now objv|b|b res txt|b|b|b|e' objv|e' status|objv sg
    |objv| |]; simpl in H; try done.
  - unfold InitInterp in H.
    by destruct (threads (shared sys) !! hex th); injection H as <- <-.
  - by injection H as <- <-.
  - destruct (lpc sys !! b) as [[| | |]|]; try done.
    unfold after_check in H.
    destruct (CheckControl b (shared sys)) as [[o s1]|] eqn:HC;
      simpl in H; [|done].
    injection H as <- <-.
    by destruct (CheckControl_shape _ _ _ _ HC) as (l & Hl & -> & _).
  - destruct (lpc sys !! b) as [[|sc| |]|]; try done.
    unfold after_check in H.
    destruct (CheckControl_evaluated b res txt (shared sys))
      as [[o s1]|] eqn:HC; simpl in H; [|done].
    injection H as <- <-.
    destruct (CheckControl_evaluated_shape _ _ _ _ _ _ HC)
      as (l & Hl & [[He ->]|(e0 & ev0 & He & Hev0 & ->)] & _);
      simpl; by case_decide.
  - destruct (lpc sys !! b) as [[| | |]|]; try done.
    unfold after_check, CheckControl_wakeup in H.
    destruct (CheckControl_while b (shared sys)) as [[o s1]|] eqn:HC;
      simpl in H; [|done].
    injection H as <- <-.
    by pose proof (CheckControl_while_state _ _ _ _ HC) as ->.
  - destruct (lpc sys !! b) as [[| | |r]|]; try done.
    case_decide; [|done]. by injection H as <- <-.
  - destruct (epc sys !! e'); [done|].
    destruct (evalmem (shared sys) !! e'); [done|].
    unfold after_eval in H.
    destruct (EvalObjCmd e' objv (shared sys)) as [[o s1]|] eqn:HE;
      simpl in H; [|done].
    by destruct (EvalObjCmd_shape _ _ _ _ _ HE)
      as [[-> [msg ->]]|(c & id & sc & b & l & _ & _ & Hl & He & -> & ->)];
      injection H as <- <-.
  - destruct (epc sys !! e') as [b|] eqn:Hpc; simpl in H; [|done].
    unfold after_eval, EvalObjCmd_wakeup in H.
    destruct (EvalObjCmd_wait e' b status (shared sys))
      as [[o s1]|] eqn:HW; simpl in H; [|done].
    destruct (EvalObjCmd_wait_shape _ _ _ _ _ _ HW) as (ev0 & Hev0 & Hcase).
    by destruct Hcase as [(-> & _ & -> & ->)
                         |[(_ & _ & -> & l & Hl & ->)
                          |[(_ & -> & ->)|(_ & -> & ->)]]];
      injection H as <- <-.
  - destruct (Signal objv sg (shared sys)) as [[[r m] s1]|] eqn:HS;
      simpl in H; [|done].
    injection H as <- <-.
    by destruct (Signal_shape _ _ _ _ _ _ HS)
      as [[-> _]|(c & id & b & l & _ & _ & Hl & _ & _ & ->)].
  - unfold AbortObjCmd in H.
    destruct objv as [|c [|id [|x rest]]];
      try (by injection H as <- <-).
    destruct (threads (shared sys) !! id); by injection H as <- <-.
  - unfold LoopsObjCmd, List in H. by injection H as <- <-.
  - unfold ThreadsObjCmd, List in H. by injection H as <- <-.
Qed.

Lemma step_counter (act : Action) (sys sys' : System) (obs : Obs) :
  (∀ b th now objv, act ≠ A_EnterLoop b th now objv) →
  step act sys = Some (obs, sys') →
  next (shared sys') = next (shared sys)
  ∧ ∀ id, is_Some (loops (shared sys') !! id) →
          is_Some (loops (shared sys) !! id).
Proof.
  intros Hk H.
  assert (Hcase : keeps_registry act ∨ ∃ b, act = A_LeaveLoop b).
  { destruct act; try (by left); [|right; by eexists].
    by destruct (Hk loopPtr thread now objv). }
  destruct Hcase as [Hkeep|[b ->]].
  - rewrite (step_keeps_registry _ _ _ _ Hkeep H).
    split; [by eapply step_next_keeps|done].
  - simpl in H.
    destruct (lpc sys !! b) as [pc|]; [|done].
    destruct (leaves pc); [|done].
    destruct (LeaveLoop b (shared sys)) as [s1|] eqn:HL; simpl in H; [|done].
    injection H as <- <-.
    destruct (LeaveLoop_shape _ _ _ HL) as (lb & s2 & Hlb & _ & -> & H0 & H1).
    assert (E : next s2 = next (shared sys) ∧ loops s2 = loops (shared sys)).
    { destruct (evalPtr lb) as [e|] eqn:He.
      - by destruct (H1 e eq_refl) as (ev & _ & ->).
      - by rewrite H0. }
    destruct E as [En El]. simpl. split; [done|].
    intros id [x Hx]. rewrite El in Hx.
    destruct (decide (id = hPtr lb)) as [->|Hne].
    + by rewrite lookup_delete_eq in Hx.
    + rewrite lookup_delete_ne in Hx by done. by eexists.
Qed.

Lemma enter_sequential (sys sys' : System) (obs : Obs) (n : nat) (a : addr)
    (th : Z) (now : Ns_Time) (objv : list string) :
  Z.of_nat n < UINT_MOD →
  next (shared sys) = Z.of_nat n →
  (∀ id, is_Some (loops (shared sys) !! id) →
         ∃ m, (m < n)%nat ∧ id = hex (Z.of_nat m)) →
  step (A_EnterLoop a th now objv) sys = Some (obs, sys') →
  next (shared sys') = (Z.of_nat n + 1) mod UINT_MOD
  ∧ loops (shared sys') = <[hex (Z.of_nat n) := a]> (loops (shared sys))
  ∧ ∃ l, loopmem (shared sys') !! a = Some l ∧ lid l = hex (Z.of_nat n).
Proof.
  intros Hn Hnext Hids H. simpl in H.
  destruct (lpc sys !! a); [done|].
  destruct (loopmem (shared sys) !! a); [done|].
  destruct (EnterLoop a th now objv (shared sys)) as [s1|] eqn:HE;
    simpl in H; [|done].
  injection H as <- <-.
  apply EnterLoop_inv in HE; [|rewrite Hnext; lia].
  destruct HE as (k & Hk & Hocc & Hfree & ->).
  assert (Hkey0 : probe_key (next (shared sys)) 0 = hex (Z.of_nat n)).
  { unfold probe_key. rewrite Hnext, Z.add_0_r, Z.mod_small by lia. done. }
  assert (k = 0%nat) as ->.
  { destruct k as [|k]; [done|]. exfalso.
    destruct (Hids _ (Hocc 0%nat ltac:(lia))) as (m & Hm & Heq).
    rewrite Hkey0 in Heq. apply hex_inj in Heq; lia. }
  rewrite Hkey0. simpl. rewrite Hnext, Z.add_0_r. split_and!; try done.
  eexists. split; [apply lookup_insert_eq|done].
Qed.

Lemma ids_sequential_from (acts : list Action) (sys sys' : System) (n : nat) :
  run acts sys = Some sys' →
  Z.of_nat (n + enters acts) < UINT_MOD →
  next (shared sys) = Z.of_nat n →
  (∀ id, is_Some (loops (shared sys) !! id) →
         ∃ m, (m < n)%nat ∧ id = hex (Z.of_nat m)) →
  next (shared sys') = Z.of_nat (n + enters acts)
  ∧ ∀ id, is_Some (loops (shared sys') !! id) →
          ∃ m, (m < n + enters acts)%nat ∧ id = hex (Z.of_nat m).
Proof.
  revert sys n. induction acts as [|act rest IH]; intros sys n Hrun Hb Hn Hids.
  - simpl in *. injection Hrun as <-. rewrite Nat.add_0_r. done.
  - simpl in Hrun.
    destruct (step act sys) as [[obs sys1]|] eqn:Hstep; simpl in Hrun; [|done].
    assert (Hcase : (∃ b th now objv, act = A_EnterLoop b th now objv)
                    ∨ ∀ b th now objv, act ≠ A_EnterLoop b th now objv).
    { destruct act; try (by right). left. by eexists _, _, _, _. }
    destruct Hcase as [(b & th & now & objv & ->)|Hk].
    + simpl in Hb. simpl enters.
      destruct (enter_sequential sys sys1 obs n b th now objv)
        as (Hn1 & Hlo & _); try done; [lia|].
      rewrite Z.mod_small in Hn1 by lia.
      replace (n + S (enters rest))%nat with (S n + enters rest)%nat by lia.
      apply (IH sys1 (S n)); try done; [lia|lia|].
      intros id Hid. rewrite Hlo in Hid.
      destruct (decide (id = hex (Z.of_nat n))) as [->|Hx].
      * exists n. split; [lia|done].
      * rewrite lookup_insert_ne in Hid by done.
        destruct (Hids id Hid) as (m & Hm & ->). exists m. split; [lia|done].
    + destruct (step_counter _ _ _ _ Hk Hstep) as [Hn1 Hsub].
      assert (He : enters (act :: rest) = enters rest)
        by (destruct act; try done; by destruct (Hk loopPtr thread now objv)).
      rewrite He in *. apply (IH sys1 n); try done; [congruence|].
      intros id Hid. apply Hids. by apply Hsub.
Qed.

(** X8.  As long as fewer than 2^32 loops have been entered since the server
    started, the counter equals the number of loops entered, every id in
    the table is the hexadecimal numeral of an earlier count, and the next
    loop to enter gets the numeral of the current count at the first
    try. *)
Theorem ids_sequential (acts : list Action) (sys : System) :
  run acts init_sys = Some sys →
  Z.of_nat (enters acts) < UINT_MOD →
  next (shared sys) = Z.of_nat (enters acts)
  ∧ (∀ id, id ∈ listed sys →
       ∃ m, (m < enters acts)%nat ∧ id = hex (Z.of_nat m))
  ∧ (∀ a th now objv obs sys',
       step (A_EnterLoop a th now objv) sys = Some (obs, sys') →
       running sys' a (hex (Z.of_nat (enters acts)))
       ∧ listed sys' ≡ₚ hex (Z.of_nat (enters acts)) :: listed sys).
Proof.
  intros Hrun Hb.
  destruct (ids_sequential_from acts init_sys sys 0 Hrun) as [Hn Hids];
    try done.
  { intros id [x Hx]. simpl in Hx. by rewrite lookup_empty in Hx. }
  simpl in Hn, Hids. split_and!; try done.
  - intros id Hid. apply Hids. by apply listed_elem.
  - intros a th now objv obs sys' Hstep.
    destruct (enter_sequential sys sys' obs (enters acts) a th now objv)
      as (Hn1 & Hlo & l & Hl & Hlid); try done.
    split.
    + split; [|by exists l].
      simpl in Hstep.
      destruct (lpc sys !! a); [done|].
      destruct (loopmem (shared sys) !! a); [done|].
      destruct (EnterLoop a th now objv (shared sys)); simpl in Hstep;
        [|done].
      injection Hstep as <- <-. simpl. rewrite lookup_insert_eq. by eexists.
    + unfold listed, LoopsObjCmd, List. simpl. rewrite Hlo.
      rewrite map_to_list_insert; [done|].
      destruct (loops (shared sys) !! hex (Z.of_nat (enters acts)))
        eqn:Hx; [|done].
      destruct (Hids _ (mk_is_Some _ _ Hx)) as (m & Hm & Heq).
      apply hex_inj in Heq; lia.
Qed.

(** Two loops entered one after the other in a fresh server get the ids
    "0" and "1". *)
Lemma ids_sequential_witness :
  next (shared (after acts_one_loop)) = 1
  ∧ ∀ a th now objv obs sys',
      step (A_EnterLoop a th now objv) (after acts_one_loop)
      = Some (obs, sys') →
      running sys' a "1".
Proof.
  destruct (ids_sequential acts_one_loop (after acts_one_loop))
    as (Hn & _ & He).
  - vm_compute. reflexivity.
  - vm_compute. reflexivity.
  - split; [exact Hn|].
    intros a th now objv obs sys' Hstep.
    exact (proj1 (He a th now objv obs sys' Hstep)).
Defined.

(** ** The spin counter counts the visits to the checkpoint *)

Lemma step_alive (act : Action) (sys sys' : System) (obs : Obs) (a : addr) :
  Inv sys →
  step act sys = Some (obs, sys') →
  is_Some (loopmem (shared sys) !! a) →
  act ≠ A_LeaveLoop a →
  is_Some (loopmem (shared sys') !! a).
Proof.
  intros HI H Hl Hne.
  pose proof (step_Inv _ _ _ _ HI H) as HI'.
  apply (inv_lpc _ HI'). apply (inv_lpc _ HI) in Hl.
  assert (Hcase : ¬ loop_action a act ∨ loop_action a act).
  { destruct act as
      [th|th|b th now objv|b|b res txt|b|b|b|e' objv|e' status|objv sg
      |objv| |]; simpl;
      try match goal with
          | |- ¬ (?x = a) ∨ _ =>
              destruct (decide (x = a)); [by right|by left]
          end;
      left; tauto. }
  destruct Hcase as [Hno|Hyes].
  - by rewrite (step_pc_other _ _ _ _ _ Hno H).
  - destruct act as
      [th|th|b th now objv|b|b res txt|b|b|b|e' objv|e' status|objv sg
      |objv| |]; simpl in Hyes; try done; subst b; simpl in H.
    + destruct Hl as [pc Hpc]. by rewrite Hpc in H.
    + destruct (lpc sys !! a) as [[| | |]|]; try done.
      unfold after_check in H.
      destruct (CheckControl a (shared sys)) as [[o s1]|];
        simpl in H; [|done].
      injection H as <- <-. simpl. rewrite lookup_insert_eq. by eexists.
    + destruct (lpc sys !! a) as [[|sc| |]|]; try done.
      unfold after_check in H.
      destruct (CheckControl_evaluated a res txt (shared sys))
        as [[o s1]|]; simpl in H; [|done].
      injection H as <- <-. simpl. rewrite lookup_insert_eq. by eexists.
    + destruct (lpc sys !! a) as [[| | |]|]; try done.
      unfold after_check in H.
      destruct (CheckControl_wakeup a (shared sys)) as [[o s1]|];
        simpl in H; [|done].
      injection H as <- <-. simpl. rewrite lookup_insert_eq. by eexists.
    + destruct (lpc sys !! a) as [[| | |r]|]; try done.
      case_decide; [|done]. injection H as <- <-. simpl.
      rewrite lookup_insert_eq. by eexists.
    + done.
Qed.

Lemma spins_run (acts : list Action) (sys sys' : System) (a : addr)
    (l : LoopData) :
  Inv sys →
  run acts sys = Some sys' →
  loopmem (shared sys) !! a = Some l →
  0 ≤ spins l < UINT_MOD →
  Forall (λ act, act ≠ A_LeaveLoop a) acts →
  ∃ l', loopmem (shared sys') !! a = Some l'
    ∧ spins l' = (spins l + Z.of_nat (visits a acts)) mod UINT_MOD.
Proof.
  revert sys l. induction acts as [|act rest IH];
    intros sys l HI Hrun Hl Hr Hall.
  - simpl in *. injection Hrun as <-. exists l. split; [done|].
    rewrite Z.add_0_r, Z.mod_small; done.
  - simpl in Hrun.
    destruct (step act sys) as [[obs sys1]|] eqn:Hstep; simpl in Hrun; [|done].
    inversion Hall as [|? ? Hne Hall']; subst.
    destruct (step_alive _ _ _ _ a HI Hstep) as [l1 Hl1]; [by eexists|done|].
    pose proof (step_Inv _ _ _ _ HI Hstep) as HI1.
    destruct (spins_step _ _ _ _ a l l1 Hstep Hl Hl1) as [[-> Hs]|[Hn Hs]].
    + destruct (IH sys1 l1 HI1 Hrun Hl1) as (l' & Hl' & Hs'); [|done|].
      { rewrite Hs. apply Z.mod_pos_bound. apply UINT_MOD_pos. }
      exists l'. split; [done|]. rewrite Hs', Hs. simpl.
      rewrite decide_True by done.
      rewrite Zplus_mod_idemp_l. f_equal. lia.
    + destruct (IH sys1 l1 HI1 Hrun Hl1) as (l' & Hl' & Hs'); [|done|].
      { by rewrite Hs. }
      exists l'. split; [done|]. rewrite Hs', Hs. f_equal. f_equal.
      f_equal. destruct act; try done. simpl.
      rewrite decide_False; [done|]. intros ->. done.
Qed.

(** X9.  From the moment a loop command has entered its loop until it leaves
    it, the [spins] field of its [LoopData] is the number of times the
    command has entered [CheckControl], modulo 2^32, whatever the other
    threads do meanwhile. *)
Theorem spins_count_visits (sys0 sys sys' : System) (a : addr) (th : Z)
    (now : Ns_Time) (objv : list string) (obs : Obs) (acts : list Action) :
  reachable sys0 →
  step (A_EnterLoop a th now objv) sys0 = Some (obs, sys) →
  run acts sys = Some sys' →
  Forall (λ act, act ≠ A_LeaveLoop a) acts →
  spins_of sys' a = Some (Z.of_nat (visits a acts) mod UINT_MOD).
Proof.
  intros Hr Hstep Hrun Hall.
  pose proof (reachable_Inv _ Hr) as HI0.
  pose proof (step_Inv _ _ _ _ HI0 Hstep) as HI.
  assert (Hl : ∃ l, loopmem (shared sys) !! a = Some l ∧ spins l = 0).
  { simpl in Hstep.
    destruct (lpc sys0 !! a); [done|].
    destruct (loopmem (shared sys0) !! a); [done|].
    destruct (EnterLoop a th now objv (shared sys0)) as [s1|] eqn:HE;
      simpl in Hstep; [|done].
    injection Hstep as <- <-.
    apply EnterLoop_inv in HE; [|apply (inv_next _ HI0)].
    destruct HE as (k & _ & _ & _ & ->). simpl.
    eexists. split; [apply lookup_insert_eq|done]. }
  destruct Hl as (l & Hl & Hs).
  destruct (spins_run acts sys sys' a l HI Hrun Hl) as (l' & Hl' & Hs');
    [rewrite Hs; pose proof UINT_MOD_pos; lia|done|].
  unfold spins_of. rewrite Hl'. simpl. by rewrite Hs', Hs.
Qed.

(** A loop that went through its checkpoint twice, was paused in between
    and is now blocked there, has a spin count of 2. *)
Lemma spins_count_visits_witness :
  spins_of (after acts_paused_blocked) 1%nat = Some 2.
Proof.
  apply (spins_count_visits (after [A_InitInterp 7])
           (after acts_one_loop) (after acts_paused_blocked) 1%nat 7 t0
           objv_while O_None
           [A_CheckControl 1%nat; A_Body 1%nat;
            A_Signal ["loopctl_pause"; "0"] LOOP_PAUSE;
            A_CheckControl 1%nat]).
  - apply after_reachable. vm_compute. by eexists.
  - vm_compute. reflexivity.
  - vm_compute. reflexivity.
  - repeat constructor; discriminate.
Defined.

(** ** The table of threads *)

(** X10.  A thread that is not yet in the table and runs [InitInterp] is then
    listed by [loopctl_threads], once, next to the threads listed before;
    [loopctl_abort] with its id succeeds and marks its handler, and a
    later [InitInterp] of the same thread (for another interpreter)
    leaves the mark in place; the exit of another thread leaves its entry
    alone; and its own [ThreadCleanup], before or after an abort, puts
    the table back as it was, so that [loopctl_abort] fails again. *)
Theorem thread_registration (t : Z) (c : string) (s : State) :
  0 ≤ t →
  threads s !! hex t = None →
  (ThreadsObjCmd (InitInterp t s)).2 ≡ₚ hex t :: (ThreadsObjCmd s).2
  ∧ InitInterp t (InitInterp t s) = InitInterp t s
  ∧ (∃ s2, AbortObjCmd [c; hex t] (InitInterp t s) = (TCL_OK, "", s2)
       ∧ threads s2 !! hex t = Some (mkThreadData (mkAsync true))
       ∧ InitInterp t s2 = s2
       ∧ ThreadCleanup t s2 = s)
  ∧ (∀ t', 0 ≤ t' → t' ≠ t →
       threads (ThreadCleanup t' (InitInterp t s)) !! hex t
       = Some (mkThreadData (mkAsync false)))
  ∧ ThreadCleanup t (InitInterp t s) = s
  ∧ AbortObjCmd [c; hex t] (ThreadCleanup t (InitInterp t s))
    = (TCL_ERROR, "no such active thread: " +:+ hex t, s).
Proof.
  intros Ht Hfree.
  assert (Hinit : InitInterp t s
                  = set_threads
                      (<[hex t := mkThreadData (mkAsync false)]>) s).
  { unfold InitInterp. by rewrite Hfree. }
  assert (Hback : ThreadCleanup t (InitInterp t s) = s).
  { rewrite Hinit. unfold ThreadCleanup, set_threads. simpl.
    rewrite delete_insert_eq, delete_id by done. by destruct s. }
  split_and!.
  - rewrite Hinit. unfold ThreadsObjCmd, List. simpl.
    by rewrite map_to_list_insert.
  - rewrite Hinit. unfold InitInterp. simpl. by rewrite lookup_insert_eq.
  - rewrite Hinit. eexists. unfold AbortObjCmd. simpl.
    rewrite lookup_insert_eq. split_and!; try done.
    + simpl. apply lookup_insert_eq.
    + unfold InitInterp. simpl. by rewrite lookup_insert_eq.
    + unfold ThreadCleanup, set_threads. simpl.
      rewrite !delete_insert_eq, delete_id by done. by destruct s.
  - intros t' Ht' Hne. rewrite Hinit. unfold ThreadCleanup. simpl.
    rewrite lookup_delete_ne.
    + apply lookup_insert_eq.
    + intros Heq. apply hex_inj in Heq; done.
  - exact Hback.
  - rewrite Hback. unfold AbortObjCmd. by rewrite Hfree.
Qed.

Lemma thread_registration_witness :
  (ThreadsObjCmd (InitInterp 7 init_state)).2 = ["7"]
  ∧ ThreadCleanup 7 (InitInterp 7 init_state) = init_state.
Proof.
  destruct (thread_registration 7 "loopctl_abort" init_state)
    as (H1 & _ & _ & _ & H2 & _).
  - lia.
  - vm_compute. reflexivity.
  - split; [vm_compute; reflexivity|exact H2].
Defined.

(** ** The loop commands *)

Lemma call_run_app (pc : option LoopPc) (cs cs' : list Call) :
  call_run pc (cs ++ cs')
  = match call_run pc cs with
    | Some pc' => call_run pc' cs'
    | None => None
    end.
Proof.
  revert pc. induction cs as [|c cs IH]; intros pc; simpl; [done|].
  destruct (call_step pc c); [apply IH|done].
Qed.

(** [H] says that a call is among a few others, none of which it is. *)
Ltac not_among H :=
  repeat (apply elem_of_cons in H as [H|H]; [discriminate H|]);
  by apply elem_of_nil in H.

Lemma loop_exit_body (result : Z) :
  call_run (Some LP_Body) (loop_exit result).1 = Some None
  ∧ C_CheckControl TCL_ERROR ∉ (loop_exit result).1.
Proof.
  unfold loop_exit. simpl. split.
  - by repeat case_decide.
  - intros H. repeat case_decide; simpl in H; not_among H.
Qed.













(** *** [foreach] *)










Lemma Foreach_set_vars_all (ok : nat → bool) (vars args : list string)
    (v k : nat) :
  (∀ v, ok v = true) →
  Foreach_set_vars ok vars args v k
  = (imap (λ v' name, C_ObjSetVar2 name (nth (k + v')%nat args "") true)
          vars,
     true, (k + length vars)%nat).
Proof.
  intros Hok. revert v k.
  induction vars as [|name rest IH]; intros v k; simpl.
  - by rewrite Nat.add_0_r.
  - rewrite Hok, (IH (S v) (S k)). f_equal; [f_equal|lia].
    f_equal.
    + rewrite Nat.add_0_r. case_decide; [done|].
      by rewrite nth_overflow by lia.
    + apply imap_ext. intros v' name' _. simpl.
      by replace (k + S v')%nat with (S (k + v')) by lia.
Qed.

Lemma Foreach_set_lists_all (get : string → Z * list string) (r : Round)
    (objv : list string) (j n i : nat) (index : list nat) :
  (∀ i v, r_setvar r i v = true) →
  (i + n ≤ length index)%nat →
  (∀ i', (i ≤ i' < i + n)%nat →
         nth i' index 0%nat = (j * length (varv get objv i'))%nat) →
  ∃ index',
    Foreach_set_lists get r objv n i index
    = (concat
         (map (λ i',
                 imap (λ v name,
                         C_ObjSetVar2 name
                           (nth (j * length (varv get objv i') + v)%nat
                                (argv get objv i') "")
                           true)
                      (varv get objv i'))
              (seq i n)),
       true, index')
    ∧ length index' = length index
    ∧ (∀ i', (i ≤ i' < i + n)%nat →
             nth i' index' 0%nat = (S j * length (varv get objv i'))%nat)
    ∧ (∀ i', (i' < i)%nat → nth i' index' 0%nat = nth i' index 0%nat).
Proof.
  intros Hok. revert i index.
  induction n as [|n IH]; intros i index Hlen Hidx; simpl.
  - exists index. split_and!; try done. intros i' Hi'. lia.
  - rewrite Foreach_set_vars_all by apply Hok.
    rewrite (Hidx i) by lia.
    set (k := (j * length (varv get objv i) + length (varv get objv i))%nat).
    destruct (IH (S i) (<[i := k]> index)) as (index' & HE & Hl & Hin & Hout).
    { rewrite length_insert. lia. }
    { intros i' Hi'. rewrite nth_lookup, list_lookup_insert_ne by lia.
      rewrite <- nth_lookup. apply Hidx. lia. }
    exists index'. rewrite HE. split_and!.
    + done.
    + by rewrite Hl, length_insert.
    + intros i' Hi'. destruct (decide (i' = i)) as [->|Hne].
      * rewrite Hout by lia.
        rewrite nth_lookup, list_lookup_insert_eq by lia. simpl.
        unfold k. lia.
      * apply Hin. lia.
    + intros i' Hi'. rewrite Hout by lia.
      by rewrite nth_lookup, list_lookup_insert_ne, <- nth_lookup by lia.
Qed.

Lemma Foreach_loop_all (get : string → Z * list string) (objv : list string)
    (numLists : nat) (rs : list Round) (j : nat) (index : list nat) :
  Forall sets_and_runs rs →
  (numLists ≤ length index)%nat →
  (∀ i, (i < numLists)%nat →
        nth i index 0%nat = (j * length (varv get objv i))%nat) →
  Foreach_loop get objv numLists (length rs) index TCL_OK rs
  = (concat
       (imap (λ j' r,
                foreach_sets get objv numLists (j + j')
                  ++ [C_CheckControl TCL_OK;
                      C_EvalObjEx (nth (length objv - 1)%nat objv "")
                                  (r_body r)])
             rs)
       ++ [C_ResetResult; C_LeaveLoop],
     Some TCL_OK).
Proof.
  intros Hall. revert j index.
  induction Hall as [|r rest (Hset & Hc & Hb) Hall IH];
    intros j index Hlen Hidx.
  - done.
  - simpl.
    destruct (Foreach_set_lists_all get r objv j numLists 0 index Hset)
      as (index' & HE & Hl & Hin & _); [lia|intros; apply Hidx; lia|].
    assert (Hnext :
      Foreach_loop get objv numLists (length rest) index' TCL_OK rest
      = (concat
           (imap (λ j' r0,
                    foreach_sets get objv numLists (S j + j')
                      ++ [C_CheckControl TCL_OK;
                          C_EvalObjEx (nth (length objv - 1)%nat objv "")
                                      (r_body r0)])
                 rest)
           ++ [C_ResetResult; C_LeaveLoop],
         Some TCL_OK)).
    { apply IH; [lia|]. intros i Hi. apply Hin. lia. }
    rewrite HE. unfold calls_then, check_and_body. rewrite Hc.
    destruct Hb as [Hb|Hb]; rewrite Hb; simpl; rewrite Hnext; simpl.
    all: f_equal; rewrite Nat.add_0_r; unfold foreach_sets at 2.
    all: rewrite <- !app_assoc; simpl; do 5 f_equal.
    all: apply imap_ext; intros j' r' _; simpl.
    all: by replace (j + S j')%nat with (S (j + j')) by lia.
Qed.

Lemma Foreach_break_up_ok (get : string → Z * list string)
    (objv : list string) (n i maxj : nat) :
  (∀ i', (i ≤ i' < i + n)%nat →
         (get (nth (1 + i' * 2)%nat objv "")).1 = TCL_OK
         ∧ varv get objv i' ≠ []
         ∧ (get (nth (2 + i' * 2)%nat objv "")).1 = TCL_OK) →
  Foreach_break_up get objv n i maxj
  = inr (Nat.max maxj
           (foldr Nat.max 0%nat
              (map (λ i', rounds_for (length (argv get objv i'))
                                     (length (varv get objv i')))
                   (seq i n)))).
Proof.
  revert i maxj. induction n as [|n IH]; intros i maxj Hok; simpl.
  - by rewrite Nat.max_0_r.
  - destruct (Hok i ltac:(lia)) as (H1 & H2 & H3).
    unfold varv, argv in *. simpl in *.
    destruct (get (nth (S (i * 2)) objv "")) as [r1 vars].
    destruct (get (nth (S (S (i * 2))) objv "")) as [r2 args].
    simpl in *. subst r1 r2.
    rewrite decide_False by (intros ?; done).
    rewrite decide_False by (destruct vars; simpl; [done|lia]).
    rewrite decide_False by (intros ?; done).
    rewrite IH by (intros i' Hi'; apply Hok; lia).
    f_equal. case_decide; lia.
Qed.

(** X14.  A [foreach] command whose lists can all be broken up, in rounds in
    which every variable can be set, the loop is not canceled and the
    body returns normally or by [continue]: it runs as many rounds as the
    longest list needs; in round [j] it sets variable [v] of every list
    to element [j * varc + v] of its value list, or to the empty string
    past the end, in the order of the lists and the variables, then calls
    [CheckControl] and runs the body; and at the end it resets the
    result, leaves the loop and returns [TCL_OK]. *)
Theorem ForeachObjCmd_assigns (get : string → Z * list string)
    (objv : list string) (rs : list Round) :
  ¬ ((length objv < 4)%nat ∨ (length objv mod 2)%nat ≠ 0%nat) →
  foreach_lists_ok get objv ((length objv - 2) / 2) →
  (∀ i, (i < (length objv - 2) / 2)%nat →
        Z.of_nat (foreach_rounds get objv ((length objv - 2) / 2)
                  * length (varv get objv i)) < 2 ^ 31) →
  Forall sets_and_runs rs →
  length rs = foreach_rounds get objv ((length objv - 2) / 2) →
  ForeachObjCmd get objv rs
  = (C_EnterLoop objv
       :: concat
            (imap (λ j r,
                     foreach_sets get objv ((length objv - 2) / 2) j
                       ++ [C_CheckControl TCL_OK;
                           C_EvalObjEx (nth (length objv - 1)%nat objv "")
                                       (r_body r)])
                  rs)
       ++ [C_ResetResult; C_LeaveLoop],
     Some TCL_OK).
Proof.
  intros Hn Hok _ Hall Hlen. unfold ForeachObjCmd.
  rewrite decide_False by done. unfold calls_then.
  set (n := ((length objv - 2) / 2)%nat) in *.
  rewrite Foreach_break_up_ok by (intros i' Hi'; apply Hok; lia).
  rewrite Nat.max_0_l. fold (foreach_rounds get objv n). rewrite <- Hlen.
  rewrite (Foreach_loop_all get objv n rs 0); try done.
  - by rewrite length_replicate.
  - intros i Hi. rewrite nth_lookup, lookup_replicate_2 by done. done.
Qed.

(** [foreach {a b} {1 2 3} body] runs two rounds: a = 1 and b = 2, then
    a = 3 and b empty. *)
Lemma ForeachObjCmd_assigns_witness :
  ForeachObjCmd get_words objv_foreach [round_ok; round_ok]
  = ([C_EnterLoop objv_foreach;
      C_ObjSetVar2 "a" "1" true; C_ObjSetVar2 "b" "2" true;
      C_CheckControl TCL_OK; C_EvalObjEx "body" TCL_OK;
      C_ObjSetVar2 "a" "3" true; C_ObjSetVar2 "b" "" true;
      C_CheckControl TCL_OK; C_EvalObjEx "body" TCL_OK;
      C_ResetResult; C_LeaveLoop],
     Some TCL_OK).
Proof.
  rewrite (ForeachObjCmd_assigns get_words objv_foreach
             [round_ok; round_ok]).
  - vm_compute. reflexivity.
  - vm_compute. intros [H|H]; [lia|done].
  - intros i Hi. assert (i = 0%nat) as -> by (vm_compute in Hi; lia).
    vm_compute. split_and!; done.
  - intros i Hi. assert (i = 0%nat) as -> by (vm_compute in Hi; lia).
    vm_compute. reflexivity.
  - repeat constructor; by left.
  - vm_compute. reflexivity.
Defined.

(** ** [loopctl_info] *)

(** X15.  In every state the server can reach, [loopctl_info] fails with "no
    such loop id" for an id that [loopctl_loops] does not list, and for
    one that it lists it succeeds and reports that loop's own id, thread,
    entry time, spin count, status and command; after a signal to the
    loop it reports the status of that signal and everything else as
    before. *)
Theorem InfoObjCmd_reports (elements : list string → string)
    (sys : System) (c id : string) :
  reachable sys →
  (id ∉ listed sys →
     InfoObjCmd elements [c; id] (shared sys)
     = Some (TCL_ERROR, "no such loop id: " +:+ id))
  ∧ (id ∈ listed sys →
       ∃ a l, running sys a id
         ∧ loopmem (shared sys) !! a = Some l ∧ lid l = id
         ∧ InfoObjCmd elements [c; id] (shared sys)
           = Some (TCL_OK, info_text elements (lid l) l)
         ∧ ∀ c' sg, ∃ sys',
             step (A_Signal [c'; id] sg) sys = Some (O_Cmd TCL_OK "", sys')
             ∧ InfoObjCmd elements [c; id] (shared sys')
               = Some (TCL_OK,
                       info_text elements (lid l) (with_control sg l))).
Proof.
  intros Hr. pose proof (reachable_Inv _ Hr) as HI. split.
  - intros Hno. unfold InfoObjCmd, GetLoop.
    destruct (loops (shared sys) !! id) as [a|] eqn:Hid; [|done].
    destruct Hno. apply listed_elem. by eexists.
  - intros Hin. apply listed_elem in Hin as [a Hid].
    destruct (inv_table _ HI id a Hid) as (l & Hl & Hh & Hlid).
    exists a, l. split_and!; try done.
    + split; [|by exists l]. apply (inv_lpc _ HI). by eexists.
    + unfold InfoObjCmd, GetLoop. rewrite Hid, Hl. simpl. by rewrite Hlid.
    + intros c' sg. eexists. split.
      * unfold step, Signal, GetLoop. rewrite Hid, Hl. simpl. reflexivity.
      * unfold InfoObjCmd, GetLoop. simpl. rewrite Hid. simpl.
        rewrite lookup_insert_eq. simpl. by rewrite Hlid.
Qed.

Lemma InfoObjCmd_reports_witness :
  InfoObjCmd (String.concat " ") ["loopctl_info"; "0"]
    (shared (after acts_paused_blocked))
  = Some (TCL_OK,
          "loopid 0 threadid 7 start 100:0 spins 2 status paused "
            +:+ "command {while 1 body}")
  ∧ InfoObjCmd (String.concat " ") ["loopctl_info"; "1"]
      (shared (after acts_paused_blocked))
    = Some (TCL_ERROR, "no such loop id: 1").
Proof.
  destruct (InfoObjCmd_reports (String.concat " ")
              (after acts_paused_blocked) "loopctl_info" "0")
    as [_ H0].
  { apply after_reachable. vm_compute. by eexists. }
  destruct (InfoObjCmd_reports (String.concat " ")
              (after acts_paused_blocked) "loopctl_info" "1")
    as [H1 _].
  { apply after_reachable. vm_compute. by eexists. }
  split.
  - destruct H0 as (a & l & _ & _ & _ & _ & _).
    + apply listed_elem. vm_compute. by eexists.
    + vm_compute. reflexivity.
  - apply H1. intros Hin. apply listed_elem in Hin as [x Hx].
    vm_compute in Hx. discriminate Hx.
Defined.

(** ** A result nobody waits for, and a loop that never runs *)

(** X16.  The loop is running the script of a request when the request times
    out, and no other request arrives before the script returns: the
    controller gets "timeout: result dropped"; the text of the script is
    written to the server log as a dropped result (after the error
    information, if the script failed), no request and no loop structure
    is written and nobody is woken; and the checkpoint goes on according
    to the control flag. *)
Theorem timed_out_result_dropped (sys : System) (a : addr) (sc : string)
    (l : LoopData) (e : addr) (res : Z) (txt : string) :
  reachable sys →
  lpc sys !! a = Some (LP_Eval sc) →
  loopmem (shared sys) !! a = Some l →
  evalPtr l = Some e →
  ∃ sys1 sys2 obs,
    step (A_EvalWakeup e NS_TIMEOUT) sys
    = Some (O_Cmd TCL_ERROR "timeout: result dropped", sys1)
    ∧ step (A_Evaluated a res txt) sys1 = Some (obs, sys2)
    ∧ log (shared sys2)
      = log (shared sys)
          ++ (if decide (res ≠ TCL_OK) then [LogErrorInfo txt] else [])
          ++ [LogDropped txt]
    ∧ loopmem (shared sys2) = loopmem (shared sys1)
    ∧ evalmem (shared sys2) = delete e (evalmem (shared sys))
    ∧ broadcasts (shared sys2) = broadcasts (shared sys)
    ∧ loops (shared sys2) = loops (shared sys)
    ∧ (control l = LOOP_RUN → obs = O_Check TCL_OK None)
    ∧ (control l = LOOP_CANCEL →
         obs = O_Check TCL_ERROR (Some canceled_msg))
    ∧ (control l = LOOP_PAUSE →
         obs = O_None ∧ lpc sys2 !! a = Some LP_CondWait).
Proof.
  intros Hr Hpc Hl He.
  pose proof (reachable_Inv _ Hr) as HI.
  destruct (inv_attached _ HI a l e Hl He) as (Hepc & ev & Hev & Hst).
  set (l0 := with_evalPtr None l).
  set (s1 := set_evalmem (delete e)
               (set_loopmem (<[a := l0]>) (shared sys))).
  set (sys1 := mkSys s1 (lpc sys) (delete e (epc sys))).
  assert (H1 : step (A_EvalWakeup e NS_TIMEOUT) sys
               = Some (O_Cmd TCL_ERROR "timeout: result dropped", sys1)).
  { unfold step. rewrite Hepc. simpl.
    unfold EvalObjCmd_wakeup, EvalObjCmd_wait. rewrite Hev. simpl.
    rewrite Hst, Hl. reflexivity. }
  set (s0 := if decide (res ≠ TCL_OK)
             then Ns_Log (LogErrorInfo txt) s1 else s1).
  set (s2 := Ns_Log (LogDropped txt) s0).
  set (o := if decide (control l = LOOP_PAUSE) then CC_CondWait
            else if decide (control l = LOOP_CANCEL)
                 then CC_Return TCL_ERROR (Some canceled_msg)
                 else CC_Return TCL_OK None).
  set (sys2 := mkSys s2 (<[a := pc_of o]> (lpc sys1)) (epc sys1)).
  assert (Hl0 : loopmem s0 !! a = Some l0).
  { unfold s0. case_decide; simpl; apply lookup_insert_eq. }
  assert (H2 : step (A_Evaluated a res txt) sys1 = Some (obs_of o, sys2)).
  { unfold step.
    replace (lpc sys1 !! a) with (Some (LP_Eval sc)) by done.
    unfold CheckControl_evaluated. change (shared sys1) with s1. fold s0.
    rewrite Hl0. simpl. fold s2. unfold o.
    case_decide; [reflexivity|].
    unfold CheckControl_while.
    replace (loopmem s2 !! a) with (Some l0) by done.
    simpl. rewrite decide_False by done. by case_decide. }
  exists sys1, sys2, (obs_of o). split_and!; try done.
  - simpl. unfold s0. case_decide; simpl; by rewrite <- ?app_assoc.
  - simpl. unfold s0. by case_decide.
  - simpl. unfold s0. by case_decide.
  - simpl. unfold s0. by case_decide.
  - simpl. unfold s0. by case_decide.
  - intros Hc. unfold o. rewrite Hc. done.
  - intros Hc. unfold o. rewrite Hc. done.
  - intros Hc. split.
    + unfold o. by rewrite Hc.
    + simpl. rewrite lookup_insert_eq. unfold o. by rewrite Hc.
Qed.

Lemma timed_out_result_dropped_witness :
  ∃ sys1 sys2,
    step (A_EvalWakeup 9%nat NS_TIMEOUT) (after acts_evaluating)
    = Some (O_Cmd TCL_ERROR "timeout: result dropped", sys1)
    ∧ step (A_Evaluated 1%nat TCL_OK "1") sys1
      = Some (O_Check TCL_OK None, sys2)
    ∧ log (shared sys2) = [LogDropped "1"].
Proof.
  destruct (timed_out_result_dropped (after acts_evaluating) 1%nat
              "set x 1"
              (mkLoopData LOOP_RUN "0" 7 1 t0 "0" objv_while (Some 9%nat))
              9%nat TCL_OK "1")
    as (sys1 & sys2 & obs & H1 & H2 & Hlog & _ & _ & _ & _ & Hrun & _).
  - apply after_reachable. vm_compute. by eexists.
  - vm_compute. reflexivity.
  - vm_compute. reflexivity.
  - reflexivity.
  - exists sys1, sys2. rewrite (Hrun eq_refl) in H2.
    split_and!; [exact H1|exact H2|].
    rewrite Hlog. vm_compute. reflexivity.
Defined.


